(** * The start-up migration runner of the Eduvium API (server/migrations.ts)

    A shallow embedding of [runMigrations] and of the steps it awaits, over an
    explicit model of the relational store, followed by the properties of the
    runner: failure propagation and isolation, the tracking table, the order of
    the steps, idempotence of a whole run and the three data steps (budget
    recalculation, investment years, user-school assignment). *)

From Stdlib Require Import List String Ascii ZArith Bool Lia Arith Permutation.
From Stdlib Require Import OrderedTypeEx.
Import ListNotations.

Local Open Scope string_scope.
Local Open Scope list_scope.
Local Open Scope Z_scope.

(** ** Rows of the tables the runner reads or writes

    Only the columns that a statement of the runner mentions are kept.
    Timestamps ([created_at], [executed_at]) are left out everywhere. *)

Record Board := mkBoard { board_id : string; board_name : string }.

Record School := mkSchool {
  school_id : string; school_name : string; school_board : option string }.

Record User := mkUser {
  user_id : string; user_email : option string;
  first_name : option string; last_name : option string;
  user_role : string }.

Record UserSchool := mkUserSchool {
  us_user : string; us_school : string; is_default : bool }.

Record BudgetCategory := mkBudgetCategory {
  bc_id : string; bc_name : string; bc_school : string;
  budget : Z; spent : Z }.

Record MaintenanceHistory := mkMaintenanceHistory {
  mh_category : option string; mh_school : string; cost : option Z }.

(** A TIMESTAMP column as JavaScript's [Date] sees it; [getFullYear] is its
    year in local time. *)
Record Date := mkDate { date_year : Z; date_month : Z; date_day : Z }.

Definition getFullYear (d : Date) : Z := date_year d.

Record Investment := mkInvestment {
  inv_id : string; start_date : option Date;
  is_cyclic : bool; cycle_years : option Z }.

Record InvestmentYear := mkInvestmentYear {
  iy_investment : string; iy_year : Z; iy_amount : Z }.

Record Drawing := mkDrawing { drawing_id : string; drawing_category : string }.

(** ** The database

    [relations] holds the names of the tables, types, indexes and constraints
    that exist; [columns] the added or dropped columns the runner cares about
    (as "table.column"). A table's rows are meaningful when its name is in
    [relations]. *)

Record DB := mkDB {
  relations : list string;
  columns : list string;
  drawing_category_labels : list string;
  role_labels : list string;
  migration_status : list string;
  boards : list Board;
  schools : list School;
  users : list User;
  user_schools : list UserSchool;
  budget_categories : list BudgetCategory;
  maintenance_history : list MaintenanceHistory;
  investments : list Investment;
  investment_years : list InvestmentYear;
  drawings : list Drawing }.

Definition set_relations v d := mkDB v (columns d) (drawing_category_labels d) (role_labels d) (migration_status d) (boards d) (schools d) (users d) (user_schools d) (budget_categories d) (maintenance_history d) (investments d) (investment_years d) (drawings d).
Definition set_columns v d := mkDB (relations d) v (drawing_category_labels d) (role_labels d) (migration_status d) (boards d) (schools d) (users d) (user_schools d) (budget_categories d) (maintenance_history d) (investments d) (investment_years d) (drawings d).
Definition set_drawing_category_labels v d := mkDB (relations d) (columns d) v (role_labels d) (migration_status d) (boards d) (schools d) (users d) (user_schools d) (budget_categories d) (maintenance_history d) (investments d) (investment_years d) (drawings d).
Definition set_role_labels v d := mkDB (relations d) (columns d) (drawing_category_labels d) v (migration_status d) (boards d) (schools d) (users d) (user_schools d) (budget_categories d) (maintenance_history d) (investments d) (investment_years d) (drawings d).
Definition set_migration_status v d := mkDB (relations d) (columns d) (drawing_category_labels d) (role_labels d) v (boards d) (schools d) (users d) (user_schools d) (budget_categories d) (maintenance_history d) (investments d) (investment_years d) (drawings d).
Definition set_boards v d := mkDB (relations d) (columns d) (drawing_category_labels d) (role_labels d) (migration_status d) v (schools d) (users d) (user_schools d) (budget_categories d) (maintenance_history d) (investments d) (investment_years d) (drawings d).
Definition set_schools v d := mkDB (relations d) (columns d) (drawing_category_labels d) (role_labels d) (migration_status d) (boards d) v (users d) (user_schools d) (budget_categories d) (maintenance_history d) (investments d) (investment_years d) (drawings d).
Definition set_users v d := mkDB (relations d) (columns d) (drawing_category_labels d) (role_labels d) (migration_status d) (boards d) (schools d) v (user_schools d) (budget_categories d) (maintenance_history d) (investments d) (investment_years d) (drawings d).
Definition set_user_schools v d := mkDB (relations d) (columns d) (drawing_category_labels d) (role_labels d) (migration_status d) (boards d) (schools d) (users d) v (budget_categories d) (maintenance_history d) (investments d) (investment_years d) (drawings d).
Definition set_budget_categories v d := mkDB (relations d) (columns d) (drawing_category_labels d) (role_labels d) (migration_status d) (boards d) (schools d) (users d) (user_schools d) v (maintenance_history d) (investments d) (investment_years d) (drawings d).
Definition set_investment_years v d := mkDB (relations d) (columns d) (drawing_category_labels d) (role_labels d) (migration_status d) (boards d) (schools d) (users d) (user_schools d) (budget_categories d) (maintenance_history d) (investments d) v (drawings d).
Definition set_drawings v d := mkDB (relations d) (columns d) (drawing_category_labels d) (role_labels d) (migration_status d) (boards d) (schools d) (users d) (user_schools d) (budget_categories d) (maintenance_history d) (investments d) (investment_years d) v.

(** ** Strings *)

Definition mem (x : string) (l : list string) : bool := existsb (String.eqb x) l.

(** Insert-if-absent into a list of names. *)
Definition add_name (x : string) (l : list string) : list string :=
  if mem x l then l else x :: l.

Definition remove_name (x : string) (l : list string) : list string :=
  filter (fun y => negb (String.eqb x y)) l.

(** [String.prototype.includes]. *)
Definition includes (s sub : string) : bool :=
  match String.index 0 sub s with Some _ => true | None => false end.

(** SQL [LOWER], on the ASCII letters. *)
Definition lower_ascii (c : ascii) : ascii :=
  let n := nat_of_ascii c in
  if (Nat.leb 65 n && Nat.leb n 90)%bool then ascii_of_nat (n + 32) else c.

Fixpoint LOWER (s : string) : string :=
  match s with
  | EmptyString => EmptyString
  | String c r => String (lower_ascii c) (LOWER r)
  end.

(** [s.replace(/-/g, "")]. *)
Fixpoint remove_dashes (s : string) : string :=
  match s with
  | EmptyString => EmptyString
  | String c r => if Ascii.eqb c "-"%char then remove_dashes r
                  else String c (remove_dashes r)
  end.

(** ** Errors and query results *)

Record Error := mkError { message : string }.

(** A row as the node-postgres driver returns it, by the shape of the query
    that produced it. *)
Inductive Row :=
| RowExists (b : bool)           (* SELECT EXISTS (...)                  *)
| RowCount (n : Z)               (* SELECT COUNT( * ) as count            *)
| RowOne                         (* SELECT 1                             *)
| RowId (id : string)            (* SELECT id                            *)
| RowLabel (l : string)          (* SELECT enumlabel                     *)
| RowSchool (s : School)         (* SELECT id, name FROM schools         *)
| RowUser (u : User)             (* SELECT / RETURNING id, email, role   *)
| RowInvestment (i : Investment) (* SELECT id, start_date, is_cyclic, .. *).

Record QueryResult := mkResult { rows : list Row; rowCount : nat }.

Definition no_rows (n : nat) : QueryResult := mkResult [] n.
Definition some_rows (l : list Row) : QueryResult := mkResult l (List.length l).

(** ** The SQL statements of the runner

    One constructor per statement text in migrations.ts, with the values the
    code interpolates into it. *)

Inductive Sql :=
| QCreateMigrationTable
| QSelectMigration (name : string)
| QInsertMigration (name : string)
| QSchoolsTableExists
| QCreateSchema
| QCountSchools
| QInsertBoards
| QInsertSchools
| QSelectUserById (id : string)
| QInsertAdminUser (id : string)
| QCountUsers
| QCountOrphanedUsers
| QInsertUserSchools
| QSelectSchools
| QResetSpent
| QRecalcSpent
| QCreateSessionTable
| QAddSessionPkey
| QCreateSessionIndex
| QAddEnumValue (value : string)
| QCreateRoomsTable
| QCreateTerrainTable
| QAddMaxStudentsColumn
| QCreateFoldersTable
| QExtendDocuments
| QCreateInvestmentYearsTable
| QDropOldInvestmentColumns
| QFixDrawingCategories
| QSelectInvestmentsWithoutYears
| QInsertInvestmentYear (investment : string) (year : Z)
| QCheckRoleEnum
| QAddRoleValue (value : string)
| QConvertUserRoles
| QAddReportAttachmentColumns
| QAddMaintenanceAttachmentColumns
| QSelectJean
| QUpdateJean.

(** *** Reference rows of seed_schools_and_boards *)

Definition hervormde_scholen := "16f34a48-cda4-4355-b27f-2f3a554d4f49".
Definition vpco := "4fce4dc9-f9b4-4c18-b1b2-386b12e2b7b9".

Definition seed_boards : list Board :=
  [ mkBoard hervormde_scholen "Hervormde Scholen";
    mkBoard vpco "VPCO" ].

Definition seed_schools : list School :=
  [ mkSchool "1d09ec9f-8177-4e8d-8ffe-22912d6785b2" "De Appelgaard" (Some hervormde_scholen);
    mkSchool "655a2de6-a5a9-48f6-9ca3-19aa6675cac9" "De Hoeksteen" (Some hervormde_scholen);
    mkSchool "14d3ab65-e849-4af2-9280-b386ac80c69d" "De Horizon" (Some hervormde_scholen);
    mkSchool "7ffa2b7b-2d71-4f5d-89c4-88190ff85f7c" "Ichtus" (Some hervormde_scholen);
    mkSchool "099237d5-89eb-405f-90d1-2670976e7775" "Maranatha" (Some hervormde_scholen);
    mkSchool "3aaf933c-1b0f-4c7c-b670-d6eed43de3c9" "Rehoboth" (Some hervormde_scholen);
    mkSchool "1921acbb-cb38-46f0-9819-dd3a02b27ca0" "Olijfboom" (Some vpco);
    mkSchool "2e39cec0-0213-4839-9223-3a042fb0a0ad" "School a" None;
    mkSchool "9e277fdf-7db8-437d-96ff-ccc38c0ac924" "Test Omgeving" None ].

Definition admin_user (id : string) : User :=
  mkUser id (Some "admin@eduvium.nl") (Some "System") (Some "Administrator") "admin".

Definition jean := "jean@deruiterpartners.nl".

(** *** create_schema.sql

    Every table is created IF NOT EXISTS and every type inside a block that
    ignores duplicate_object, so the script adds what is missing. *)

Definition base_types : list string :=
  [ "role"; "priority"; "status"; "investment_status"; "investment_type";
    "quote_status"; "installation_type"; "activity_type"; "floor_level";
    "drawing_category"; "contact_category" ].

Definition base_tables : list string :=
  [ "boards"; "schools"; "sessions"; "IDX_session_expire"; "users";
    "user_schools"; "maintenance"; "appointments"; "contracts"; "reports";
    "report_comments"; "building_data"; "installation_data"; "contact_data";
    "drawings"; "budget_categories"; "documents"; "activities"; "investments";
    "maintenance_history"; "year_plan_columns"; "year_plan_rows"; "quotes" ].

Definition initial_role_labels := [ "admin"; "directeur"; "medewerker" ].
Definition initial_drawing_category_labels :=
  [ "bouwkundig"; "w-installatie"; "e-installatie"; "terrein"; "overig" ].
Definition old_investment_columns :=
  [ "investments.budgeted_cost"; "investments.parent_investment_id" ].

Definition add_names (names l : list string) : list string :=
  fold_right add_name l names.

Definition create_schema (d : DB) : DB :=
  let r := relations d in
  set_relations (add_names (base_types ++ base_tables) r)
    (set_columns (if mem "investments" r then columns d
                  else add_names old_investment_columns (columns d))
       (set_drawing_category_labels
          (if mem "drawing_category" r then drawing_category_labels d
           else initial_drawing_category_labels)
          (set_role_labels
             (if mem "role" r then role_labels d else initial_role_labels) d))).

(** *** Meaning of the statements on rows *)

Definition has_all (names : list string) (d : DB) : bool :=
  forallb (fun n => mem n (relations d)) names.

Definition add_relation (n : string) (d : DB) : DB :=
  set_relations (add_name n (relations d)) d.

Definition add_columns (names : list string) (d : DB) : DB :=
  set_columns (add_names names (columns d)) d.

Definition drop_columns (names : list string) (d : DB) : DB :=
  set_columns (fold_right remove_name (columns d) names) d.

(** Append-if-absent to a list of names. *)
Definition add_last (x : string) (l : list string) : list string :=
  if mem x l then l else l ++ [x].

(** INSERT ... ON CONFLICT (name) DO NOTHING. *)
Definition insert_migration (name : string) (d : DB) : DB :=
  set_migration_status (add_last name (migration_status d)) d.

(** INSERT ... ON CONFLICT (id) DO NOTHING, row by row. *)
Definition insert_board (acc : list Board) (b : Board) : list Board :=
  if existsb (fun x => String.eqb (board_id x) (board_id b)) acc then acc
  else acc ++ [b].

Definition insert_school (acc : list School) (s : School) : list School :=
  if existsb (fun x => String.eqb (school_id x) (school_id s)) acc then acc
  else acc ++ [s].

(** The two INSERTs of seed_schools_and_boards on the rows already there. *)
Definition with_seed_boards (old : list Board) : list Board :=
  fold_left insert_board seed_boards old.

Definition with_seed_schools (old : list School) : list School :=
  fold_left insert_school seed_schools old.

Arguments with_seed_boards : simpl never.
Arguments with_seed_schools : simpl never.

Definition has_user (id : string) (d : DB) : bool :=
  existsb (fun u => String.eqb (user_id u) id) (users d).

Definition email_taken (e : string) (d : DB) : bool :=
  existsb (fun u => match user_email u with
                    | Some x => String.eqb x e
                    | None => false
                    end) (users d).

Definition has_assignment (d : DB) (u : User) : bool :=
  existsb (fun us => String.eqb (us_user us) (user_id u)) (user_schools d).

Definition orphaned (d : DB) (u : User) : bool := negb (has_assignment d u).

Definition linked (d : DB) (u : User) (s : School) : bool :=
  existsb (fun us => (String.eqb (us_user us) (user_id u)
                      && String.eqb (us_school us) (school_id s))%bool)
          (user_schools d).

(** ORDER BY s.name, as a stable insertion sort. *)
Fixpoint insert_by_name (s : School) (l : list School) : list School :=
  match l with
  | [] => [s]
  | x :: r => if String.leb (school_name s) (school_name x) then s :: l
              else x :: insert_by_name s r
  end.

Definition sort_by_name (l : list School) : list School :=
  fold_right insert_by_name [] l.

(** The rows the INSERT ... SELECT of assign_users_to_schools produces for one
    user: the schools not yet linked to the user, ordered by name, the first
    one (ROW_NUMBER() = 1) flagged as default. *)
Definition flag_first (u : User) (l : list School) : list UserSchool :=
  match l with
  | [] => []
  | s :: r => mkUserSchool (user_id u) (school_id s) true
              :: map (fun x => mkUserSchool (user_id u) (school_id x) false) r
  end.

Definition assignments_for (d : DB) (u : User) : list UserSchool :=
  flag_first u (sort_by_name (filter (fun s => negb (linked d u s)) (schools d))).

Definition new_assignments (d : DB) : list UserSchool :=
  flat_map (assignments_for d) (users d).

(** SUM(mh.cost) over the history rows of a budget category; the sum over no
    row is NULL. *)
Definition matches (bc : BudgetCategory) (mh : MaintenanceHistory) : bool :=
  match mh_category mh, cost mh with
  | Some c, Some _ =>
      (String.eqb (LOWER c) (LOWER (bc_name bc))
       && String.eqb (mh_school mh) (bc_school bc))%bool
  | _, _ => false
  end.

Definition cost_or_zero (mh : MaintenanceHistory) : Z :=
  match cost mh with Some z => z | None => 0 end.

Definition sum_cost (l : list MaintenanceHistory) : option Z :=
  match l with
  | [] => None
  | _ => Some (fold_right (fun mh acc => cost_or_zero mh + acc) 0 l)
  end.

Definition COALESCE (o : option Z) (z : Z) : Z :=
  match o with Some x => x | None => z end.

Definition recalculated (d : DB) (bc : BudgetCategory) : Z :=
  COALESCE (sum_cost (filter (matches bc) (maintenance_history d))) 0.

Definition set_spent (z : Z) (bc : BudgetCategory) : BudgetCategory :=
  mkBudgetCategory (bc_id bc) (bc_name bc) (bc_school bc) (budget bc) z.

(** The range of an INTEGER column. *)
Definition in_int4 (z : Z) : bool := (-2147483648 <=? z) && (z <=? 2147483647).

Definition valid_drawing_categories :=
  [ "bouwkundig"; "w-installatie"; "e-installatie"; "terrein"; "overig";
    "veiligheid"; "afwerking" ].

Definition invalid_category (dr : Drawing) : bool :=
  negb (mem (drawing_category dr) valid_drawing_categories).

Definition set_role (r : string) (u : User) : User :=
  mkUser (user_id u) (user_email u) (first_name u) (last_name u) r.

Definition is_jean (u : User) : bool :=
  match user_email u with
  | Some e => String.eqb (LOWER e) (LOWER jean)
  | None => false
  end.

Definition has_years (d : DB) (i : Investment) : bool :=
  existsb (fun iy => String.eqb (iy_investment iy) (inv_id i)) (investment_years d).

Definition needs_years (d : DB) (i : Investment) : bool :=
  (negb (has_years d i)
   && match start_date i with Some _ => true | None => false end)%bool.

Definition has_year (d : DB) (id : string) (y : Z) : bool :=
  existsb (fun iy => (String.eqb (iy_investment iy) id && (iy_year iy =? y))%bool)
          (investment_years d).

(** *** Meaning of the statements

    A statement fails of itself when a relation it names does not exist, when
    it would store a value outside INTEGER, or when it would give two users
    the same e-mail address (users.email is UNIQUE). Any other failure of the
    engine or of the connection reaches the runner through the faults of the
    environment (see [db_execute]). *)

Definition relation_missing : Error := mkError "relation does not exist".
Definition integer_out_of_range : Error := mkError "integer out of range".
Definition duplicate_email : Error :=
  mkError "duplicate key value violates unique constraint users_email_key".

Definition done (n : nat) (d : DB) : Error + (QueryResult * DB) :=
  inr (no_rows n, d).

Definition answer (l : list Row) (d : DB) : Error + (QueryResult * DB) :=
  inr (some_rows l, d).

Definition requiring (names : list string) (d : DB)
    (k : Error + (QueryResult * DB)) : Error + (QueryResult * DB) :=
  if has_all names d then k else inl relation_missing.

(** CREATE TABLE IF NOT EXISTS [n] with REFERENCES to [refs]. *)
Definition create_table (n : string) (refs : list string) (d : DB)
    : Error + (QueryResult * DB) :=
  if mem n (relations d) then done 0 d
  else requiring refs d (done 0 (add_relation n d)).

Definition exec_sql (q : Sql) (d : DB) : Error + (QueryResult * DB) :=
  match q with
  | QCreateMigrationTable => create_table "migration_status" [] d
  | QSelectMigration name =>
      requiring ["migration_status"] d
        (answer (if mem name (migration_status d) then [RowOne] else []) d)
  | QInsertMigration name =>
      requiring ["migration_status"] d
        (done (if mem name (migration_status d) then 0 else 1)
              (insert_migration name d))
  | QSchoolsTableExists => answer [RowExists (mem "schools" (relations d))] d
  | QCreateSchema => done 0 (create_schema d)
  | QCountSchools =>
      requiring ["schools"] d
        (answer [RowCount (Z.of_nat (List.length (schools d)))] d)
  | QInsertBoards =>
      requiring ["boards"] d
        (let b := with_seed_boards (boards d) in
         done (List.length b - List.length (boards d)) (set_boards b d))
  | QInsertSchools =>
      requiring ["schools"; "boards"] d
        (let s := with_seed_schools (schools d) in
         done (List.length s - List.length (schools d)) (set_schools s d))
  | QSelectUserById id =>
      requiring ["users"] d
        (answer (map (fun u => RowId (user_id u))
                     (filter (fun u => String.eqb (user_id u) id) (users d))) d)
  | QInsertAdminUser id =>
      requiring ["users"] d
        (if has_user id d then done 0 d
         else if email_taken "admin@eduvium.nl" d then inl duplicate_email
         else done 1 (set_users (users d ++ [admin_user id]) d))
  | QCountUsers =>
      requiring ["users"] d
        (answer [RowCount (Z.of_nat (List.length (users d)))] d)
  | QCountOrphanedUsers =>
      requiring ["users"; "user_schools"] d
        (answer [RowCount (Z.of_nat (List.length (filter (orphaned d) (users d))))] d)
  | QInsertUserSchools =>
      requiring ["user_schools"; "users"; "schools"] d
        (let new := new_assignments d in
         done (List.length new) (set_user_schools (user_schools d ++ new) d))
  | QSelectSchools =>
      requiring ["schools"] d (answer (map RowSchool (schools d)) d)
  | QResetSpent =>
      requiring ["budget_categories"] d
        (done (List.length (budget_categories d))
              (set_budget_categories (map (set_spent 0) (budget_categories d)) d))
  | QRecalcSpent =>
      requiring ["budget_categories"; "maintenance_history"] d
        (if forallb (fun bc => in_int4 (recalculated d bc)) (budget_categories d)
         then done (List.length (budget_categories d))
                (set_budget_categories
                   (map (fun bc => set_spent (recalculated d bc) bc)
                        (budget_categories d)) d)
         else inl integer_out_of_range)
  | QCreateSessionTable => create_table "session" [] d
  | QAddSessionPkey =>
      if mem "session_pkey" (relations d) then done 0 d
      else requiring ["session"] d (done 0 (add_relation "session_pkey" d))
  | QCreateSessionIndex =>
      requiring ["session"] d (done 0 (add_relation "IDX_session_expire" d))
  | QAddEnumValue v =>
      requiring ["drawing_category"] d
        (done 0 (set_drawing_category_labels
                   (add_last v (drawing_category_labels d)) d))
  | QCreateRoomsTable => create_table "rooms" ["building_data"; "schools"] d
  | QCreateTerrainTable => create_table "terrain" ["schools"] d
  | QAddMaxStudentsColumn =>
      requiring ["rooms"] d (done 0 (add_columns ["rooms.max_students"] d))
  | QCreateFoldersTable => create_table "folders" ["schools"] d
  | QExtendDocuments =>
      requiring ["documents"; "folders"] d
        (done 0 (add_columns ["documents.folder_id"; "documents.description"] d))
  | QCreateInvestmentYearsTable => create_table "investment_years" ["investments"] d
  | QDropOldInvestmentColumns =>
      requiring ["investments"] d (done 0 (drop_columns old_investment_columns d))
  | QFixDrawingCategories =>
      requiring ["drawings"] d
        (done (List.length (filter invalid_category (drawings d)))
              (set_drawings
                 (map (fun dr => if invalid_category dr
                                 then mkDrawing (drawing_id dr) "overig"
                                 else dr) (drawings d)) d))
  | QSelectInvestmentsWithoutYears =>
      requiring ["investments"; "investment_years"] d
        (answer (map RowInvestment (filter (needs_years d) (investments d))) d)
  | QInsertInvestmentYear id y =>
      requiring ["investment_years"] d
        (if has_year d id y then done 0 d
         else done 1 (set_investment_years
                        (investment_years d ++ [mkInvestmentYear id y 0]) d))
  | QCheckRoleEnum =>
      requiring ["role"] d
        (answer (map RowLabel
                     (filter (fun l => mem l ["directeur"; "medewerker"])
                             (role_labels d))) d)
  | QAddRoleValue v =>
      requiring ["role"] d
        (done 0 (set_role_labels (add_last v (role_labels d)) d))
  | QConvertUserRoles =>
      requiring ["users"] d
        (done (List.length (filter (fun u => String.eqb (user_role u) "user") (users d)))
              (set_users
                 (map (fun u => if String.eqb (user_role u) "user"
                                then set_role "directeur" u else u)
                      (users d)) d))
  | QAddReportAttachmentColumns =>
      requiring ["reports"] d
        (done 0 (add_columns ["reports.attachment_url"; "reports.attachment_name"] d))
  | QAddMaintenanceAttachmentColumns =>
      requiring ["maintenance"] d
        (done 0 (add_columns ["maintenance.attachment_url"; "maintenance.attachment_name"] d))
  | QSelectJean =>
      requiring ["users"] d (answer (map RowUser (filter is_jean (users d))) d)
  | QUpdateJean =>
      requiring ["users"] d
        (answer (map (fun u => RowUser (set_role "admin" u)) (filter is_jean (users d)))
                (set_users (map (fun u => if is_jean u then set_role "admin" u else u)
                                (users d)) d))
  end.

(** ** The world the runner acts on *)

(** The steps [runMigrations] awaits, in no particular order here. *)
Inductive Step :=
| CreateBaseSchema
| EnsureSessionTable
| AddDrawingCategoryEnumValues
| SeedSchoolsAndBoards
| SeedHardcodedAdminUser
| AssignUsersToSchools
| EnsureSupabaseBucketsForSchools
| RecalculateBudgetSpentAmounts
| CreateRoomsAndTerrainTables
| AddMaxStudentsToRooms
| CreateFoldersAndExtendDocuments
| CreateInvestmentYearsTable
| FixInvalidDrawingCategories
| PopulateInvestmentYears
| AddAttachmentColumnsToReportsAndMaintenance
| ExtendRoleEnumForRbac
| FixJeanAdminRole.

(** Calls that leave the process but not for the database. *)
Inductive External :=
| ImportSupabaseStorage
| CreateBucketIfNotExists (bucket : string).

(** Where a [console.error] is written. *)
Inductive ErrorContext :=
| CreatingMigrationTable
| CheckingMigrationStatus (name : string)
| MarkingMigrationComplete (name : string)
| DuringStep (s : Step)
| CreatingBucket (bucket : string)
| NonCriticalMigration
| CriticalSetup.

(** The [console.log] lines that tell which branch was taken. *)
Inductive Message :=
| Starting
| SchemaAlreadyExists
| MarkedCompleteButSchemaMissing
| AlreadyCompleted (s : Step)
| Completed (s : Step)
| SchoolsAlreadyExist
| AdminUserExists
| NoUsersYet
| AllUsersAssigned
| NoSchoolsFound
| ContinuingDespiteBucketErrors
| SessionTableAlreadyExists
| NoInvestmentsNeedYears
| SetupCompleted.

Inductive Event :=
| Enter (s : Step)                       (* first console.log of a step *)
| Exec (q : Sql)                         (* db.execute was called       *)
| Call (c : External)                    (* an external call was made   *)
| Info (m : Message)                     (* console.log                 *)
| Logged (c : ErrorContext) (e : Error)  (* console.error               *).

(** [faults] is what the environment will do to the coming round trips (to
    the database or to object storage), one entry per round trip: [Some e]
    makes it throw [e] without effect, [None] lets it through; past the end
    of the list nothing is injected. *)
Record World := mkWorld {
  db : DB;
  buckets : list string;
  schema_file : bool;
  faults : list (option Error);
  log : list Event }.

Definition set_db d w := mkWorld d (buckets w) (schema_file w) (faults w) (log w).
Definition set_buckets b w := mkWorld (db w) b (schema_file w) (faults w) (log w).
Definition set_faults f w := mkWorld (db w) (buckets w) (schema_file w) f (log w).
Definition add_log e w := mkWorld (db w) (buckets w) (schema_file w) (faults w) (log w ++ [e]).

(** ** Awaited computations

    [Throw] is a rejected promise or a thrown exception; [Diverge] a loop that
    does not end. *)

Inductive Outcome (A : Type) :=
| Ok (a : A)
| Throw (e : Error)
| Diverge.

Arguments Ok {A} a.
Arguments Throw {A} e.
Arguments Diverge {A}.

Definition M (A : Type) := World -> Outcome A * World.

Definition ret {A} (a : A) : M A := fun w => (Ok a, w).

Definition bind {A B} (c : M A) (k : A -> M B) : M B := fun w =>
  match c w with
  | (Ok a, w1) => k a w1
  | (Throw e, w1) => (Throw e, w1)
  | (Diverge, w1) => (Diverge, w1)
  end.

Definition throw {A} (e : Error) : M A := fun w => (Throw e, w).

Definition diverge {A} : M A := fun w => (Diverge, w).

(** try { c } catch (e) { h e } *)
Definition try_catch {A} (c : M A) (h : Error -> M A) : M A := fun w =>
  match c w with
  | (Throw e, w1) => h e w1
  | r => r
  end.

Declare Scope monad_scope.
Delimit Scope monad_scope with monad.
Notation "x <- c ;; k" := (bind c (fun x => k))
  (at level 100, c at next level, right associativity) : monad_scope.
Notation "c ;; k" := (bind c (fun _ => k))
  (at level 100, right associativity) : monad_scope.
Local Open Scope monad_scope.

Definition emit (e : Event) : M unit := fun w => (Ok tt, add_log e w).

Definition console_log (m : Message) : M unit := emit (Info m).
Definition console_error (c : ErrorContext) (e : Error) : M unit := emit (Logged c e).
Definition enter (s : Step) : M unit := emit (Enter s).

(** The next entry of [faults]. *)
Definition next_fault : M unit := fun w =>
  match faults w with
  | [] => (Ok tt, w)
  | None :: f => (Ok tt, set_faults f w)
  | Some e :: f => (Throw e, set_faults f w)
  end.

Definition run_sql (q : Sql) : M QueryResult := fun w =>
  match exec_sql q (db w) with
  | inl e => (Throw e, w)
  | inr (r, d) => (Ok r, set_db d w)
  end.

(** await db.execute(sql`...`) *)
Definition db_execute (q : Sql) : M QueryResult :=
  emit (Exec q) ;; next_fault ;; run_sql q.

Definition external (c : External) : M unit :=
  emit (Call c) ;; next_fault ;;
  match c with
  | ImportSupabaseStorage => ret tt
  | CreateBucketIfNotExists b =>
      fun w => (Ok tt, if mem b (buckets w) then w else set_buckets (b :: buckets w) w)
  end.

Fixpoint for_each {A} (l : list A) (body : A -> M unit) : M unit :=
  match l with
  | [] => ret tt
  | x :: r => body x ;; for_each r body
  end.

Definition when (b : bool) (c : M unit) : M unit := if b then c else ret tt.

(** A property of a row that is [undefined] was dereferenced. *)
Definition type_error : Error := mkError "Cannot read properties of undefined".

(** ** The tracking table *)

Definition ensureMigrationTable : M unit :=
  try_catch
    (db_execute QCreateMigrationTable ;; ret tt)
    (fun error => console_error CreatingMigrationTable error ;; throw error).

Definition hasMigrationRun (name : string) : M bool :=
  try_catch
    (result <- db_execute (QSelectMigration name) ;;
     ret (Nat.ltb 0 (List.length (rows result))))
    (fun error => console_error (CheckingMigrationStatus name) error ;; ret false).

Definition markMigrationComplete (name : string) : M unit :=
  try_catch
    (db_execute (QInsertMigration name) ;; ret tt)
    (fun error => console_error (MarkingMigrationComplete name) error ;; throw error).

(** The usual handler of a step: log and rethrow. *)
Definition rethrow (s : Step) (error : Error) : M unit :=
  console_error (DuringStep s) error ;; throw error.

(** ** The steps *)

(** fs.existsSync(schemaPath) *)
Definition existsSync : M bool := fun w => (Ok (schema_file w), w).

(** tableCheck.rows[0]?.exists === true *)
Definition first_exists (r : QueryResult) : bool :=
  match rows r with RowExists true :: _ => true | _ => false end.

(** Number(result.rows[0]?.count), NaN read as [None]. *)
Definition first_count (r : QueryResult) : option Z :=
  match rows r with RowCount n :: _ => Some n | _ => None end.

Definition createBaseSchema : M unit :=
  let migrationName := "create_base_schema" in
  enter CreateBaseSchema ;;
  try_catch
    (tableCheck <- db_execute QSchoolsTableExists ;;
     let schemaExists := first_exists tableCheck in
     if schemaExists then
       console_log SchemaAlreadyExists ;;
       try_catch (markMigrationComplete migrationName) (fun _ => ret tt)
     else
       ran <- hasMigrationRun migrationName ;;
       when ran (console_log MarkedCompleteButSchemaMissing) ;;
       present <- existsSync ;;
       if negb present then throw (mkError "Schema SQL file not found")
       else
         db_execute QCreateSchema ;;
         markMigrationComplete migrationName ;;
         console_log (Completed CreateBaseSchema))
    (rethrow CreateBaseSchema).

Definition seedSchoolsAndBoards : M unit :=
  let migrationName := "seed_schools_and_boards" in
  enter SeedSchoolsAndBoards ;;
  try_catch
    (schoolsCount <- db_execute QCountSchools ;;
     let hasSchools := match first_count schoolsCount with
                       | Some n => 0 <? n
                       | None => false
                       end in
     if hasSchools then
       console_log SchoolsAlreadyExist ;;
       markMigrationComplete migrationName
     else
       db_execute QInsertBoards ;;
       db_execute QInsertSchools ;;
       markMigrationComplete migrationName ;;
       console_log (Completed SeedSchoolsAndBoards))
    (rethrow SeedSchoolsAndBoards).

Definition HARDCODED_USER_ID := "3f62dec4-fc48-4308-850d-cd0dca4d4349".

Definition seedHardcodedAdminUser : M unit :=
  enter SeedHardcodedAdminUser ;;
  try_catch
    (userCheck <- db_execute (QSelectUserById HARDCODED_USER_ID) ;;
     if Nat.ltb 0 (List.length (rows userCheck)) then
       console_log AdminUserExists
     else
       db_execute (QInsertAdminUser HARDCODED_USER_ID) ;;
       console_log (Completed SeedHardcodedAdminUser))
    (rethrow SeedHardcodedAdminUser).

(** Number(result.rows[0]?.count) || 0 *)
Definition count_or_zero (r : QueryResult) : Z :=
  match first_count r with Some n => n | None => 0 end.

Definition assignUsersToSchools : M unit :=
  enter AssignUsersToSchools ;;
  try_catch
    (usersCount <- db_execute QCountUsers ;;
     let totalUsers := count_or_zero usersCount in
     if totalUsers =? 0 then console_log NoUsersYet
     else
       orphanedUsers <- db_execute QCountOrphanedUsers ;;
       let orphanedCount := count_or_zero orphanedUsers in
       if orphanedCount =? 0 then console_log AllUsersAssigned
       else
         db_execute QInsertUserSchools ;;
         console_log (Completed AssignUsersToSchools))
    (rethrow AssignUsersToSchools).

Definition ensureSupabaseBucketsForSchools : M unit :=
  enter EnsureSupabaseBucketsForSchools ;;
  try_catch
    (external ImportSupabaseStorage ;;
     allSchools <- db_execute QSelectSchools ;;
     let count := List.length (rows allSchools) in
     if Nat.eqb count 0 then console_log NoSchoolsFound
     else
       for_each (rows allSchools) (fun row =>
         match row with
         | RowSchool s =>
             let schoolId := school_id s in
             let bucketName := String.append "school-" (remove_dashes schoolId) in
             try_catch
               (external (CreateBucketIfNotExists bucketName))
               (fun supabaseError =>
                  console_error (CreatingBucket bucketName) supabaseError)
         | _ => throw type_error
         end) ;;
       console_log (Completed EnsureSupabaseBucketsForSchools))
    (fun error =>
       console_error (DuringStep EnsureSupabaseBucketsForSchools) error ;;
       console_log ContinuingDespiteBucketErrors).

Definition recalculateBudgetSpentAmounts : M unit :=
  let migrationName := "recalculate_budget_spent_amounts" in
  enter RecalculateBudgetSpentAmounts ;;
  try_catch
    (ran <- hasMigrationRun migrationName ;;
     if ran then console_log (AlreadyCompleted RecalculateBudgetSpentAmounts)
     else
       db_execute QResetSpent ;;
       db_execute QRecalcSpent ;;
       markMigrationComplete migrationName ;;
       console_log (Completed RecalculateBudgetSpentAmounts))
    (rethrow RecalculateBudgetSpentAmounts).

Definition ensureSessionTable : M unit :=
  enter EnsureSessionTable ;;
  try_catch
    (db_execute QCreateSessionTable ;;
     db_execute QAddSessionPkey ;;
     db_execute QCreateSessionIndex ;;
     console_log (Completed EnsureSessionTable))
    (fun error =>
       if includes (message error) "already exists" then
         console_log SessionTableAlreadyExists
       else
         console_error (DuringStep EnsureSessionTable) error ;; throw error).

(** The steps from here on share one shape: return early when the tracking
    table has the name, otherwise run the statements inside try/catch, mark
    the name and log. *)

Definition addDrawingCategoryEnumValues : M unit :=
  let migrationName := "add_all_drawing_category_enum_values" in
  enter AddDrawingCategoryEnumValues ;;
  ran <- hasMigrationRun migrationName ;;
  if ran then console_log (AlreadyCompleted AddDrawingCategoryEnumValues)
  else
    try_catch
      (let enumValues := ["terrein"; "overig"; "veiligheid"; "afwerking"] in
       for_each enumValues (fun value => db_execute (QAddEnumValue value) ;; ret tt) ;;
       markMigrationComplete migrationName ;;
       console_log (Completed AddDrawingCategoryEnumValues))
      (rethrow AddDrawingCategoryEnumValues).

Definition createRoomsAndTerrainTables : M unit :=
  let migrationName := "create_rooms_and_terrain_tables" in
  enter CreateRoomsAndTerrainTables ;;
  ran <- hasMigrationRun migrationName ;;
  if ran then console_log (AlreadyCompleted CreateRoomsAndTerrainTables)
  else
    try_catch
      (db_execute QCreateRoomsTable ;;
       db_execute QCreateTerrainTable ;;
       markMigrationComplete migrationName ;;
       console_log (Completed CreateRoomsAndTerrainTables))
      (rethrow CreateRoomsAndTerrainTables).

Definition addMaxStudentsToRooms : M unit :=
  let migrationName := "add_max_students_to_rooms" in
  enter AddMaxStudentsToRooms ;;
  ran <- hasMigrationRun migrationName ;;
  if ran then console_log (AlreadyCompleted AddMaxStudentsToRooms)
  else
    try_catch
      (db_execute QAddMaxStudentsColumn ;;
       markMigrationComplete migrationName ;;
       console_log (Completed AddMaxStudentsToRooms))
      (rethrow AddMaxStudentsToRooms).

Definition createFoldersAndExtendDocuments : M unit :=
  let migrationName := "create_folders_and_extend_documents" in
  enter CreateFoldersAndExtendDocuments ;;
  ran <- hasMigrationRun migrationName ;;
  if ran then console_log (AlreadyCompleted CreateFoldersAndExtendDocuments)
  else
    try_catch
      (db_execute QCreateFoldersTable ;;
       db_execute QExtendDocuments ;;
       markMigrationComplete migrationName ;;
       console_log (Completed CreateFoldersAndExtendDocuments))
      (rethrow CreateFoldersAndExtendDocuments).

Definition createInvestmentYearsTable : M unit :=
  let migrationName := "create_investment_years_table" in
  enter CreateInvestmentYearsTable ;;
  ran <- hasMigrationRun migrationName ;;
  if ran then console_log (AlreadyCompleted CreateInvestmentYearsTable)
  else
    try_catch
      (db_execute QCreateInvestmentYearsTable ;;
       db_execute QDropOldInvestmentColumns ;;
       markMigrationComplete migrationName ;;
       console_log (Completed CreateInvestmentYearsTable))
      (rethrow CreateInvestmentYearsTable).

Definition fixInvalidDrawingCategories : M unit :=
  let migrationName := "fix_invalid_drawing_categories" in
  enter FixInvalidDrawingCategories ;;
  ran <- hasMigrationRun migrationName ;;
  if ran then console_log (AlreadyCompleted FixInvalidDrawingCategories)
  else
    try_catch
      (db_execute QFixDrawingCategories ;;
       markMigrationComplete migrationName ;;
       console_log (Completed FixInvalidDrawingCategories))
      (rethrow FixInvalidDrawingCategories).

(** for (let year = startYear; year <= maxYear; year += cycleYears), by fuel:
    one unit per iteration. *)
Fixpoint year_loop (fuel : nat) (id : string) (year maxYear cycleYears : Z)
    : M unit :=
  if year <=? maxYear then
    match fuel with
    | O => diverge
    | S fuel' =>
        db_execute (QInsertInvestmentYear id year) ;;
        year_loop fuel' id (year + cycleYears) maxYear cycleYears
    end
  else ret tt.

(** A positive interval leaves the loop within 31 iterations. *)
Definition year_fuel : nat := 31.

(** investment.is_cyclic && investment.cycle_years, as a truth value. *)
Definition cyclic_interval (i : Investment) : option Z :=
  if is_cyclic i then
    match cycle_years i with
    | Some c => if c =? 0 then None else Some c
    | None => None
    end
  else None.

(** new Date(investment.start_date).getFullYear() *)
Definition start_year (i : Investment) : Z :=
  match start_date i with
  | Some d => getFullYear d
  | None => 1970
  end.

Definition populate_one (row : Row) : M unit :=
  match row with
  | RowInvestment investment =>
      let startYear := start_year investment in
      match cyclic_interval investment with
      | Some cycleYears =>
          let maxYear := startYear + 30 in
          year_loop year_fuel (inv_id investment) startYear maxYear cycleYears
      | None =>
          db_execute (QInsertInvestmentYear (inv_id investment) startYear) ;; ret tt
      end
  | _ => throw type_error
  end.

Definition populateInvestmentYears : M unit :=
  let migrationName := "populate_investment_years" in
  enter PopulateInvestmentYears ;;
  ran <- hasMigrationRun migrationName ;;
  if ran then console_log (AlreadyCompleted PopulateInvestmentYears)
  else
    try_catch
      (investmentsResult <- db_execute QSelectInvestmentsWithoutYears ;;
       let investments := rows investmentsResult in
       if Nat.eqb (List.length investments) 0 then
         console_log NoInvestmentsNeedYears ;;
         markMigrationComplete migrationName
       else
         for_each investments populate_one ;;
         markMigrationComplete migrationName ;;
         console_log (Completed PopulateInvestmentYears))
      (rethrow PopulateInvestmentYears).

Definition extendRoleEnumForRbac : M unit :=
  let migrationName := "extend_role_enum_for_rbac" in
  enter ExtendRoleEnumForRbac ;;
  ran <- hasMigrationRun migrationName ;;
  if ran then console_log (AlreadyCompleted ExtendRoleEnumForRbac)
  else
    try_catch
      (enumCheck <- db_execute QCheckRoleEnum ;;
       when (Nat.ltb (List.length (rows enumCheck)) 2)
         (try_catch (db_execute (QAddRoleValue "directeur") ;; ret tt)
                    (fun _ => ret tt) ;;
          try_catch (db_execute (QAddRoleValue "medewerker") ;; ret tt)
                    (fun _ => ret tt)) ;;
       db_execute QConvertUserRoles ;;
       markMigrationComplete migrationName ;;
       console_log (Completed ExtendRoleEnumForRbac))
      (rethrow ExtendRoleEnumForRbac).

Definition addAttachmentColumnsToReportsAndMaintenance : M unit :=
  let migrationName := "add_attachment_columns_to_reports_and_maintenance" in
  enter AddAttachmentColumnsToReportsAndMaintenance ;;
  ran <- hasMigrationRun migrationName ;;
  if ran then console_log (AlreadyCompleted AddAttachmentColumnsToReportsAndMaintenance)
  else
    try_catch
      (db_execute QAddReportAttachmentColumns ;;
       db_execute QAddMaintenanceAttachmentColumns ;;
       markMigrationComplete migrationName ;;
       console_log (Completed AddAttachmentColumnsToReportsAndMaintenance))
      (rethrow AddAttachmentColumnsToReportsAndMaintenance).

Definition fixJeanAdminRole : M unit :=
  let migrationName := "fix_jean_admin_role_v2" in
  enter FixJeanAdminRole ;;
  ran <- hasMigrationRun migrationName ;;
  if ran then console_log (AlreadyCompleted FixJeanAdminRole)
  else
    try_catch
      (db_execute QSelectJean ;;
       db_execute QUpdateJean ;;
       markMigrationComplete migrationName ;;
       console_log (Completed FixJeanAdminRole))
      (rethrow FixJeanAdminRole).

(** ** The runner *)

Definition runMigrations : M unit :=
  console_log Starting ;;
  try_catch
    (ensureMigrationTable ;;
     createBaseSchema ;;
     ensureSessionTable ;;
     addDrawingCategoryEnumValues ;;
     seedSchoolsAndBoards ;;
     try_catch
       (seedHardcodedAdminUser ;;
        assignUsersToSchools ;;
        ensureSupabaseBucketsForSchools ;;
        recalculateBudgetSpentAmounts ;;
        createRoomsAndTerrainTables ;;
        addMaxStudentsToRooms ;;
        createFoldersAndExtendDocuments ;;
        createInvestmentYearsTable ;;
        fixInvalidDrawingCategories ;;
        populateInvestmentYears ;;
        addAttachmentColumnsToReportsAndMaintenance ;;
        extendRoleEnumForRbac ;;
        fixJeanAdminRole)
       (fun nonCriticalError => console_error NonCriticalMigration nonCriticalError) ;;
     console_log SetupCompleted)
    (fun error => console_error CriticalSetup error ;; throw error).

(** ** The runner as a list of steps *)

Definition step_body (s : Step) : M unit :=
  match s with
  | CreateBaseSchema => createBaseSchema
  | EnsureSessionTable => ensureSessionTable
  | AddDrawingCategoryEnumValues => addDrawingCategoryEnumValues
  | SeedSchoolsAndBoards => seedSchoolsAndBoards
  | SeedHardcodedAdminUser => seedHardcodedAdminUser
  | AssignUsersToSchools => assignUsersToSchools
  | EnsureSupabaseBucketsForSchools => ensureSupabaseBucketsForSchools
  | RecalculateBudgetSpentAmounts => recalculateBudgetSpentAmounts
  | CreateRoomsAndTerrainTables => createRoomsAndTerrainTables
  | AddMaxStudentsToRooms => addMaxStudentsToRooms
  | CreateFoldersAndExtendDocuments => createFoldersAndExtendDocuments
  | CreateInvestmentYearsTable => createInvestmentYearsTable
  | FixInvalidDrawingCategories => fixInvalidDrawingCategories
  | PopulateInvestmentYears => populateInvestmentYears
  | AddAttachmentColumnsToReportsAndMaintenance =>
      addAttachmentColumnsToReportsAndMaintenance
  | ExtendRoleEnumForRbac => extendRoleEnumForRbac
  | FixJeanAdminRole => fixJeanAdminRole
  end.

(** The steps awaited outside the inner try block, in order. *)
Definition critical_steps : list Step :=
  [ CreateBaseSchema; EnsureSessionTable; AddDrawingCategoryEnumValues;
    SeedSchoolsAndBoards ].

(** The steps awaited inside the inner try block, in order. *)
Definition noncritical_steps : list Step :=
  [ SeedHardcodedAdminUser; AssignUsersToSchools;
    EnsureSupabaseBucketsForSchools; RecalculateBudgetSpentAmounts;
    CreateRoomsAndTerrainTables; AddMaxStudentsToRooms;
    CreateFoldersAndExtendDocuments; CreateInvestmentYearsTable;
    FixInvalidDrawingCategories; PopulateInvestmentYears;
    AddAttachmentColumnsToReportsAndMaintenance; ExtendRoleEnumForRbac;
    FixJeanAdminRole ].

Definition step_sequence : list Step := critical_steps ++ noncritical_steps.

Fixpoint run_steps (l : list Step) : M unit :=
  match l with
  | [] => ret tt
  | s :: r => step_body s ;; run_steps r
  end.

Definition swallow_noncritical (nonCriticalError : Error) : M unit :=
  console_error NonCriticalMigration nonCriticalError.

Definition rethrow_critical (error : Error) : M unit :=
  console_error CriticalSetup error ;; throw error.

Definition runner : M unit :=
  console_log Starting ;;
  try_catch
    (ensureMigrationTable ;;
     run_steps critical_steps ;;
     try_catch (run_steps noncritical_steps) swallow_noncritical ;;
     console_log SetupCompleted)
    rethrow_critical.

(** The steps a log shows as entered, in order. *)
Fixpoint entered (l : list Event) : list Step :=
  match l with
  | [] => []
  | Enter s :: r => s :: entered r
  | _ :: r => entered r
  end.

Definition is_enter (e : Event) : bool :=
  match e with Enter _ => true | _ => false end.

Definition is_mark_failure (e : Event) : bool :=
  match e with Logged (MarkingMigrationComplete _) _ => true | _ => false end.

Definition Step_eq_dec (a b : Step) : {a = b} + {a <> b}.
Proof. decide equality. Defined.

Definition Step_eqb (a b : Step) : bool :=
  if Step_eq_dec a b then true else false.

(** ** Statements about the log

    Every computation only appends to the log; [logs c P] says that what [c]
    appends satisfies [P] together with the outcome. *)

Definition logs {A} (c : M A) (P : Outcome A -> list Event -> Prop) : Prop :=
  forall w r w', c w = (r, w') -> exists new, log w' = log w ++ new /\ P r new.

(** All events appended by [c] pass the test [phi]. *)
Definition emits (phi : Event -> bool) {A} (c : M A) : Prop :=
  logs c (fun _ new => forallb phi new = true).

Definition not_enter (e : Event) : bool := negb (is_enter e).
Definition not_mark_failure (e : Event) : bool := negb (is_mark_failure e).

(** ** Worlds used as examples *)

Definition empty_db : DB := mkDB [] [] [] [] [] [] [] [] [] [] [] [] [] [].

Definition boom : Error := mkError "connection terminated unexpectedly".

(** A fresh database and an environment whose [n]-th round trip (from 0)
    throws [boom]. *)
Definition fresh_world (injected : list (option Error)) : World :=
  mkWorld empty_db [] true injected [].

Definition failing_at (n : nat) : list (option Error) := repeat None n ++ [Some boom].

(** The first query of createBaseSchema fails. *)
Definition base_schema_fails : World := fresh_world (failing_at 1).

(** The first query of seedHardcodedAdminUser fails. *)
Definition admin_seed_fails : World := fresh_world (failing_at 18).

(** ** Isolation of the non-critical steps, as the specification words it

    In the run from [w] (started with an empty log): whenever the catch block
    of a non-critical step has logged an error, the run resolves and every
    non-critical step has been entered. *)
Definition isolates_noncritical_failures (w : World) : Prop :=
  forall s e,
    In s noncritical_steps ->
    In (Logged (DuringStep s) e) (log (snd (runMigrations w))) ->
    fst (runMigrations w) = Ok tt /\
    forall s', In s' noncritical_steps ->
               In (Enter s') (log (snd (runMigrations w))).

(** ** The tracked steps

    The name under which a step records itself in migration_status, and, for
    the steps that return early when [hasMigrationRun] says so, the first
    statement they execute otherwise. *)

Definition tracking_name (s : Step) : option string :=
  match s with
  | CreateBaseSchema => Some "create_base_schema"
  | AddDrawingCategoryEnumValues => Some "add_all_drawing_category_enum_values"
  | SeedSchoolsAndBoards => Some "seed_schools_and_boards"
  | RecalculateBudgetSpentAmounts => Some "recalculate_budget_spent_amounts"
  | CreateRoomsAndTerrainTables => Some "create_rooms_and_terrain_tables"
  | AddMaxStudentsToRooms => Some "add_max_students_to_rooms"
  | CreateFoldersAndExtendDocuments => Some "create_folders_and_extend_documents"
  | CreateInvestmentYearsTable => Some "create_investment_years_table"
  | FixInvalidDrawingCategories => Some "fix_invalid_drawing_categories"
  | PopulateInvestmentYears => Some "populate_investment_years"
  | AddAttachmentColumnsToReportsAndMaintenance =>
      Some "add_attachment_columns_to_reports_and_maintenance"
  | ExtendRoleEnumForRbac => Some "extend_role_enum_for_rbac"
  | FixJeanAdminRole => Some "fix_jean_admin_role_v2"
  | EnsureSessionTable | SeedHardcodedAdminUser | AssignUsersToSchools
  | EnsureSupabaseBucketsForSchools => None
  end.

Definition first_statement (s : Step) : option Sql :=
  match s with
  | AddDrawingCategoryEnumValues => Some (QAddEnumValue "terrein")
  | RecalculateBudgetSpentAmounts => Some QResetSpent
  | CreateRoomsAndTerrainTables => Some QCreateRoomsTable
  | AddMaxStudentsToRooms => Some QAddMaxStudentsColumn
  | CreateFoldersAndExtendDocuments => Some QCreateFoldersTable
  | CreateInvestmentYearsTable => Some QCreateInvestmentYearsTable
  | FixInvalidDrawingCategories => Some QFixDrawingCategories
  | PopulateInvestmentYears => Some QSelectInvestmentsWithoutYears
  | AddAttachmentColumnsToReportsAndMaintenance => Some QAddReportAttachmentColumns
  | ExtendRoleEnumForRbac => Some QCheckRoleEnum
  | FixJeanAdminRole => Some QSelectJean
  | _ => None
  end.

Definition any_event (e : Event) : bool := true.

(** [c] appends the event [ev], whatever its outcome. *)
Definition mentions (ev : Event) {A} (c : M A) : Prop :=
  logs c (fun _ new => In ev new).

(** Whenever [c] has logged a failure to mark a migration complete, [c] has
    thrown that error, unless the log shows [excuse]. *)
Definition escalates_unless (excuse : list Event -> Prop) {A} (c : M A) : Prop :=
  logs c (fun r new =>
    forall n e, In (Logged (MarkingMigrationComplete n) e) new ->
                r = Throw e \/ excuse new).

Definition escalates {A} (c : M A) : Prop := escalates_unless (fun _ => False) c.

(** Escalation of a failed mark, as the specification words it, for the run
    of step [s] from [w] (started with an empty log). *)
Definition mark_failure_fails_step (s : Step) (w : World) : Prop :=
  forall n e,
    In (Logged (MarkingMigrationComplete n) e) (log (snd (step_body s w))) ->
    fst (step_body s w) = Throw e.

(** The base schema is in place and the insert into migration_status fails. *)
Definition mark_fails_on_existing_schema : World :=
  mkWorld (set_relations ["schools"; "migration_status"] empty_db) [] true
          (failing_at 1) [].

(** The first round trip fails. *)
Definition first_query_fails : World := fresh_world (failing_at 0).

(** The tracking table and users exist; the fourth round trip, the insert
    into migration_status, fails. *)
Definition mark_fails_after_work : World :=
  mkWorld (set_relations ["users"; "migration_status"] empty_db) [] true
          (failing_at 3) [].

(** ** Order of the steps *)

(** [a] occurs in [l] before an occurrence of [b]. *)
Definition before (a b : Step) (l : list Step) : Prop :=
  exists l1 l2, l = l1 ++ b :: l2 /\ In a l1.

(** In every run of [runMigrations] in which [b] is entered, [a] has been
    entered earlier. *)
Definition runs_before (a b : Step) : Prop :=
  forall w r w' new,
    runMigrations w = (r, w') -> log w' = log w ++ new ->
    In b (entered new) -> before a b (entered new).

(** Statements that insert or update rows of the application's tables. *)
Definition is_row_write (q : Sql) : bool :=
  match q with
  | QInsertBoards | QInsertSchools | QInsertAdminUser _ | QInsertUserSchools
  | QResetSpent | QRecalcSpent | QFixDrawingCategories
  | QInsertInvestmentYear _ _ | QConvertUserRoles | QUpdateJean => true
  | _ => false
  end.

(** The relations a statement creates when they are missing. *)
Definition sql_creates (q : Sql) : list string :=
  match q with
  | QCreateMigrationTable => ["migration_status"]
  | QCreateSchema => base_types ++ base_tables
  | QCreateSessionTable => ["session"]
  | QAddSessionPkey => ["session_pkey"]
  | QCreateSessionIndex => ["IDX_session_expire"]
  | QCreateRoomsTable => ["rooms"]
  | QCreateTerrainTable => ["terrain"]
  | QCreateFoldersTable => ["folders"]
  | QCreateInvestmentYearsTable => ["investment_years"]
  | _ => []
  end.

(** The relations a statement cannot do without, other than the tracking
    table. *)
Definition sql_needs (q : Sql) : list string :=
  match q with
  | QCountSchools | QSelectSchools => ["schools"]
  | QInsertBoards => ["boards"]
  | QInsertSchools => ["schools"; "boards"]
  | QSelectUserById _ | QInsertAdminUser _ | QCountUsers | QConvertUserRoles
  | QSelectJean | QUpdateJean => ["users"]
  | QCountOrphanedUsers => ["users"; "user_schools"]
  | QInsertUserSchools => ["user_schools"; "users"; "schools"]
  | QResetSpent => ["budget_categories"]
  | QRecalcSpent => ["budget_categories"; "maintenance_history"]
  | QCreateSessionIndex => ["session"]
  | QAddEnumValue _ => ["drawing_category"]
  | QAddMaxStudentsColumn => ["rooms"]
  | QExtendDocuments => ["documents"; "folders"]
  | QDropOldInvestmentColumns => ["investments"]
  | QFixDrawingCategories => ["drawings"]
  | QSelectInvestmentsWithoutYears => ["investments"; "investment_years"]
  | QInsertInvestmentYear _ _ => ["investment_years"]
  | QCheckRoleEnum | QAddRoleValue _ => ["role"]
  | QAddReportAttachmentColumns => ["reports"]
  | QAddMaintenanceAttachmentColumns => ["maintenance"]
  | _ => []
  end.

(** The same, step by step. *)
Definition writes_rows (s : Step) : bool :=
  match s with
  | SeedSchoolsAndBoards | SeedHardcodedAdminUser | AssignUsersToSchools
  | RecalculateBudgetSpentAmounts | FixInvalidDrawingCategories
  | PopulateInvestmentYears | ExtendRoleEnumForRbac | FixJeanAdminRole => true
  | _ => false
  end.

Definition step_creates (s : Step) : list string :=
  match s with
  | CreateBaseSchema => base_types ++ base_tables
  | EnsureSessionTable => ["session"; "session_pkey"; "IDX_session_expire"]
  | CreateRoomsAndTerrainTables => ["rooms"; "terrain"]
  | CreateFoldersAndExtendDocuments => ["folders"]
  | CreateInvestmentYearsTable => ["investment_years"]
  | _ => []
  end.

Definition step_needs (s : Step) : list string :=
  match s with
  | CreateBaseSchema => []
  | EnsureSessionTable => ["session"]
  | AddDrawingCategoryEnumValues => ["drawing_category"]
  | SeedSchoolsAndBoards => ["schools"; "boards"]
  | SeedHardcodedAdminUser => ["users"]
  | AssignUsersToSchools => ["users"; "user_schools"; "schools"]
  | EnsureSupabaseBucketsForSchools => ["schools"]
  | RecalculateBudgetSpentAmounts => ["budget_categories"; "maintenance_history"]
  | CreateRoomsAndTerrainTables => []
  | AddMaxStudentsToRooms => ["rooms"]
  | CreateFoldersAndExtendDocuments => ["documents"; "folders"]
  | CreateInvestmentYearsTable => ["investments"]
  | FixInvalidDrawingCategories => ["drawings"]
  | PopulateInvestmentYears => ["investments"; "investment_years"]
  | AddAttachmentColumnsToReportsAndMaintenance => ["reports"; "maintenance"]
  | ExtendRoleEnumForRbac => ["role"; "users"]
  | FixJeanAdminRole => ["users"]
  end.

Definition subset (l1 l2 : list string) : bool := forallb (fun x => mem x l2) l1.

(** An event of step [s] agrees with the three tables above. *)
Definition within_footprint (s : Step) (e : Event) : bool :=
  match e with
  | Exec q =>
      (subset (sql_creates q) (step_creates s)
       && subset (sql_needs q) (step_needs s)
       && (negb (is_row_write q) || writes_rows s))%bool
  | _ => true
  end.

Fixpoint position (s : Step) (l : list Step) : nat :=
  match l with
  | [] => O
  | x :: r => if Step_eqb x s then O else S (position s r)
  end.

(** [a] is declared before [b] in [runMigrations]. *)
Definition declared_before (a b : Step) : bool :=
  Nat.ltb (position a step_sequence) (position b step_sequence).

Definition shares_relation (a b : Step) : bool :=
  existsb (fun t => mem t (step_needs b)) (step_creates a).

(** ** Statements about the database *)

(** [c] leaves the part [f] of the database as it found it, whatever its
    outcome. *)
Definition keeps {X} (f : DB -> X) {A} (c : M A) : Prop :=
  forall w r w', c w = (r, w') -> f (db w') = f (db w).

(** The statement [q] leaves [f] as it found it. *)
Definition sql_keeps {X} (f : DB -> X) (q : Sql) : Prop :=
  forall d res d', exec_sql q d = inr (res, d') -> f d' = f d.

(** The base relations exist, the tracking table too, nothing else. *)
Definition schema_only : DB :=
  set_relations ("migration_status" :: base_types ++ base_tables) empty_db.

Definition no_schools : World := mkWorld schema_only [] true [] [].

Definition one_school : World :=
  mkWorld (set_schools [mkSchool "s-1" "Basisschool" None] schema_only) [] true [] [].

(** ** Budget categories and maintenance history, in the words of the
    specification *)

Definition same_ignoring_case (a b : string) : bool :=
  String.eqb (LOWER a) (LOWER b).

(** The costs of the history rows that count for a budget category: same
    school, same category name up to case, cost not NULL. *)
Definition matching_costs (history : list MaintenanceHistory) (bc : BudgetCategory)
    : list Z :=
  flat_map (fun mh =>
              match mh_category mh, cost mh with
              | Some c, Some z =>
                  if (same_ignoring_case c (bc_name bc)
                      && String.eqb (mh_school mh) (bc_school bc))%bool
                  then [z] else []
              | _, _ => []
              end) history.

(** Their sum, 0 when there is none. *)
Definition history_cost (history : list MaintenanceHistory) (bc : BudgetCategory) : Z :=
  fold_right Z.add 0 (matching_costs history bc).

(** Two categories of one school, history rows in mixed case, one without
    cost, one of another school. *)
Definition budget_world : World :=
  mkWorld
    (set_budget_categories
       [ mkBudgetCategory "b-1" "Schilderwerk" "s-1" 1000 999;
         mkBudgetCategory "b-2" "Dak" "s-1" 500 7 ]
       (mkDB ("migration_status" :: base_types ++ base_tables) [] [] [] [] [] [] [] []
             []
             [ mkMaintenanceHistory (Some "schilderwerk") "s-1" (Some 120);
               mkMaintenanceHistory (Some "SCHILDERWERK") "s-1" (Some 30);
               mkMaintenanceHistory (Some "Schilderwerk") "s-1" None;
               mkMaintenanceHistory (Some "Schilderwerk") "s-2" (Some 400);
               mkMaintenanceHistory None "s-1" (Some 5) ]
             [] [] []))
    [] true [] [].

(** ** User-school links *)

(** The links of a user. *)
Definition rows_of (d : DB) (u : User) : list UserSchool :=
  filter (fun r => String.eqb (us_user r) (user_id u)) (user_schools d).

(** Two users without links, one with a link, three schools. *)
Definition orphans_world : World :=
  mkWorld
    (set_user_schools [mkUserSchool "u-3" "s-b" true]
       (set_users [ mkUser "u-1" (Some "a@x.nl") None None "admin";
                    mkUser "u-2" None None None "directeur";
                    mkUser "u-3" None None None "medewerker";
                    admin_user HARDCODED_USER_ID ]
          (set_schools [ mkSchool "s-c" "Zonnebloem" None;
                         mkSchool "s-a" "Akker" None;
                         mkSchool "s-b" "Morgenster" None ]
             schema_only)))
    [] true [] [].

(** ** Investment years, in the words of the specification *)

(** start, start + interval, start + 2 * interval, ... up to start + 30. *)
Definition cycle_of_years (start interval : Z) : list Z :=
  map (fun k => start + Z.of_nat k * interval)
      (seq 0 (S (Z.to_nat (30 / interval)))).

(** The years an investment gets: a cycle when it is cyclic and has a
    recurrence interval, its start year otherwise. *)
Definition planned_years (i : Investment) : list Z :=
  if is_cyclic i then
    match cycle_years i with
    | Some c => if c =? 0 then [start_year i] else cycle_of_years (start_year i) c
    | None => [start_year i]
    end
  else [start_year i].

Definition planned_rows (i : Investment) : list InvestmentYear :=
  map (fun y => mkInvestmentYear (inv_id i) y 0) (planned_years i).

(** The year rows of an investment. *)
Definition years_of (d : DB) (i : Investment) : list InvestmentYear :=
  filter (fun r => String.eqb (iy_investment r) (inv_id i)) (investment_years d).

(** The years the loop of populateInvestmentYears visits, [None] when the
    fuel runs out. *)
Fixpoint loop_years (fuel : nat) (year maxYear cycleYears : Z) : option (list Z) :=
  if year <=? maxYear then
    match fuel with
    | O => None
    | S fuel' =>
        match loop_years fuel' (year + cycleYears) maxYear cycleYears with
        | Some l => Some (year :: l)
        | None => None
        end
    end
  else Some [].

(** A world without injected faults in which [c] returns [a] and leaves the
    database [d']; no fault has been injected on the way. *)
Definition returns {A} (c : M A) (w : World) (a : A) (d' : DB) : Prop :=
  exists w', c w = (Ok a, w') /\ faults w' = [] /\ db w' = d'.

(** Four investments: cyclic every 12 years, cyclic with interval 0, not
    cyclic, and one that already has a year row; a fifth has no start date. *)
Definition investments_world : World :=
  mkWorld
    (mkDB ("migration_status" :: "investment_years" :: base_types ++ base_tables)
          [] [] [] [] [] [] [] [] [] []
          [ mkInvestment "i-1" (Some (mkDate 2024 3 1)) true (Some 12);
            mkInvestment "i-2" (Some (mkDate 2025 1 1)) true (Some 0);
            mkInvestment "i-3" (Some (mkDate 2026 6 30)) false (Some 5);
            mkInvestment "i-4" (Some (mkDate 2020 1 1)) true (Some 10);
            mkInvestment "i-5" None true (Some 3) ]
          [ mkInvestmentYear "i-4" 2020 5000 ]
          [])
    [] true [] [].

(** ** Idempotence of a run: what each step leaves behind *)

Definition tracked (d : DB) : Prop := mem "migration_status" (relations d) = true.

Definition marked (n : string) (d : DB) : Prop := mem n (migration_status d) = true.

Definition exists_rel (t : string) (d : DB) : Prop := mem t (relations d) = true.

(** Every user has a link to some school. *)
Definition no_orphans (d : DB) : Prop := forallb (has_assignment d) (users d) = true.

(** What a step that returned normally has established, and what makes it
    return normally without effect when it runs again. *)
Definition Done (s : Step) (d : DB) : Prop :=
  match s with
  | CreateBaseSchema => exists_rel "schools" d /\ marked "create_base_schema" d
  | EnsureSessionTable =>
      exists_rel "session" d /\ exists_rel "session_pkey" d /\
      exists_rel "IDX_session_expire" d
  | SeedSchoolsAndBoards =>
      exists_rel "schools" d /\ schools d <> [] /\
      marked "seed_schools_and_boards" d
  | SeedHardcodedAdminUser =>
      exists_rel "users" d /\ has_user HARDCODED_USER_ID d = true
  | AssignUsersToSchools =>
      exists_rel "users" d /\
      (users d = [] \/ (exists_rel "user_schools" d /\ no_orphans d))
  | EnsureSupabaseBucketsForSchools => True
  | _ => match tracking_name s with Some n => marked n d | None => True end
  end.

(** Without faults, [c] returns normally on the database [d] and leaves it
    as it is. *)
Definition settled (c : M unit) (d : DB) : Prop :=
  forall w, faults w = [] -> db w = d ->
            exists w', c w = (Ok tt, w') /\ faults w' = [] /\ db w' = d.

(** Without faults, [c] throws on the database [d] and leaves it as it is. *)
Definition stuck (c : M unit) (d : DB) : Prop :=
  forall w, faults w = [] -> db w = d ->
            exists e w', c w = (Throw e, w') /\ faults w' = [] /\ db w' = d.

(** [c] keeps the property [I] of the world, whatever its outcome. *)
Definition maintains (I : World -> Prop) {A} (c : M A) : Prop :=
  forall w r w', c w = (r, w') -> I w -> I w'.

(** A property of the world that no primitive action destroys. *)
Record stable (I : World -> Prop) : Prop := {
  stable_log : forall e w, I w -> I (add_log e w);
  stable_faults : forall w r w', next_fault w = (r, w') -> I w -> I w';
  stable_sql : forall q w res d, exec_sql q (db w) = inr (res, d) -> I w -> I (set_db d w);
  stable_buckets : forall b w, I w -> I (set_buckets b w) }.

(** A property of the database that no statement destroys. *)
Definition monotone (P : DB -> Prop) : Prop :=
  forall q d res d', exec_sql q d = inr (res, d') -> P d -> P d'.

(** The ids of the users and their links: what decides whether a user is
    orphaned. *)
Definition membership (d : DB) : list string * list UserSchool :=
  (map user_id (users d), user_schools d).

(** [C] is what the step may assume of the database, [Q] what it leaves
    when it throws. *)
Definition first_run_with (C : DB -> Prop) (Q : Step -> DB -> Prop) (s : Step) : Prop :=
  forall w r w',
    faults w = [] -> tracked (db w) -> C (db w) ->
    step_body s w = (r, w') ->
    match r with
    | Ok _ => Done s (db w')
    | Throw _ => Q s (db w')
    | Diverge => True
    end.

(** What a first run of a step leaves behind: when it returns, [Done]; when
    it throws, a database on which it throws again without effect. *)
Definition first_run (s : Step) : Prop :=
  forall w r w',
    faults w = [] -> tracked (db w) -> schools (db w) <> [] ->
    step_body s w = (r, w') ->
    match r with
    | Ok _ => Done s (db w')
    | Throw _ => stuck (step_body s) (db w')
    | Diverge => True
    end.

(** A critical step that returns has done its work. *)
Definition first_run_critical (s : Step) : Prop :=
  forall w w',
    faults w = [] -> tracked (db w) ->
    step_body s w = (Ok tt, w') -> Done s (db w').

(** Faults, relations and tracking table as they were. *)
Definition same_catalog (w w1 : World) : Prop :=
  faults w1 = [] /\ relations (db w1) = relations (db w) /\
  migration_status (db w1) = migration_status (db w).

(** Whether what [p] established survives the step [s]: only the user
    links of assignUsersToSchools can be undone, by a step that adds users
    or links. *)
Definition compatible (p s : Step) : bool :=
  negb (Step_eqb p AssignUsersToSchools
        && (Step_eqb s SeedHardcodedAdminUser || Step_eqb s AssignUsersToSchools)).

(** No step of [l] undoes what a step before it in [l] established. *)
Fixpoint ordered (l : list Step) : bool :=
  match l with
  | [] => true
  | s :: r => forallb (compatible s) r && ordered r
  end.

(** What a step that returned has established is still there after any
    step that runs later. *)
Definition lasts (p s : Step) : Prop :=
  maintains (fun w => Done p (db w)) (step_body s).

(** The claim as it stands, for the run that starts in [w]: whenever it
    succeeds, a second run on what it left succeeds and leaves the database
    as it found it. *)
Definition second_run_is_noop (w : World) : Prop :=
  forall w1, runMigrations w = (Ok tt, w1) ->
             exists w2, runMigrations w1 = (Ok tt, w2) /\ db w2 = db w1.

(** * Properties *)

(** ** Computations step by step *)

Section Monad.
Context {A B : Type}.

Lemma bind_Ok (c : M A) (k : A -> M B) w a w1 :
    c w = (Ok a, w1) -> bind c k w = k a w1.
Proof. unfold bind; intros ->; reflexivity. Qed.

Lemma bind_Throw (c : M A) (k : A -> M B) w e w1 :
    c w = (Throw e, w1) -> bind c k w = (Throw e, w1).
Proof. unfold bind; intros ->; reflexivity. Qed.

Lemma bind_Diverge (c : M A) (k : A -> M B) w w1 :
    c w = (Diverge, w1) -> bind c k w = (Diverge, w1).
Proof. unfold bind; intros ->; reflexivity. Qed.

Lemma try_Ok (c : M A) h w a w1 :
    c w = (Ok a, w1) -> try_catch c h w = (Ok a, w1).
Proof. unfold try_catch; intros ->; reflexivity. Qed.

Lemma try_Throw (c : M A) h w e w1 :
    c w = (Throw e, w1) -> try_catch c h w = h e w1.
Proof. unfold try_catch; intros ->; reflexivity. Qed.

Lemma try_Diverge (c : M A) h w w1 :
    c w = (Diverge, w1) -> try_catch c h w = (Diverge, w1).
Proof. unfold try_catch; intros ->; reflexivity. Qed.
End Monad.

Lemma bind_assoc {A B C} (c : M A) (k : A -> M B) (k' : B -> M C) w :
bind (bind c k) k' w = bind c (fun a => bind (k a) k') w.
Proof. unfold bind; destruct (c w) as [[a|e|] w1]; reflexivity. Qed.

Lemma bind_ret_unit (c : M unit) w : bind c (fun _ => ret tt) w = c w.
Proof.
unfold bind, ret; destruct (c w) as [[[]|e|] w1]; reflexivity.
Qed.

Lemma bind_ext {A B} (c : M A) (k k' : A -> M B) w :
(forall a w1, k a w1 = k' a w1) -> bind c k w = bind c k' w.
Proof. intros H; unfold bind; destruct (c w) as [[a|e|] w1]; auto. Qed.

Lemma bind_cong {A B} (c c' : M A) (k : A -> M B) w :
c w = c' w -> bind c k w = bind c' k w.
Proof. unfold bind; intros ->; reflexivity. Qed.

Lemma try_bind_Ok {A B} (c : M A) (k : A -> M B) h w a w1 :
  c w = (Ok a, w1) -> try_catch (bind c k) h w = try_catch (k a) h w1.
Proof. intros H. unfold try_catch. erewrite bind_Ok by exact H. reflexivity. Qed.

Lemma try_ext {A} (c c' : M A) h w :
c w = c' w -> try_catch c h w = try_catch c' h w.
Proof. unfold try_catch; intros ->; reflexivity. Qed.

Lemma run_steps_app l1 l2 w :
run_steps (l1 ++ l2) w = bind (run_steps l1) (fun _ => run_steps l2) w.
Proof.
revert w; induction l1 as [|s l1 IH]; intros w; simpl.
- reflexivity.
- rewrite bind_assoc. apply bind_ext; intros _ w1; apply IH.
Qed.

(** [runMigrations] awaits the critical steps and then, inside the inner try
    block, the non-critical ones. *)
Lemma runMigrations_runner w : runMigrations w = runner w.
Proof.
unfold runMigrations, runner.
apply bind_ext; intros _ w1. apply try_ext.
apply bind_ext; intros _ w2.
unfold critical_steps, noncritical_steps, swallow_noncritical.
cbn [run_steps step_body].
do 4 (rewrite bind_assoc; apply bind_ext; intros _ ?w; cbv beta).
change (bind (ret tt) ?k ?x) with (k tt x). cbv beta.
apply bind_cong. apply try_ext.
repeat (apply bind_ext; intros _ ?w).
symmetry; apply bind_ret_unit.
Qed.

(** ** What a computation writes to the log *)



Lemma logs_weaken {A} (c : M A) (P Q : Outcome A -> list Event -> Prop) :
logs c P -> (forall r new, P r new -> Q r new) -> logs c Q.
Proof.
intros H HPQ w r w' E. destruct (H w r w' E) as (new & Hl & HP). eauto.
Qed.

Lemma logs_bind {A B} (c : M A) (k : A -> M B) P1 P2 (Q : Outcome B -> list Event -> Prop) :
logs c P1 ->
(forall a, logs (k a) (P2 a)) ->
(forall a n1 r n2, P1 (Ok a) n1 -> P2 a r n2 -> Q r (n1 ++ n2)) ->
(forall e n1, P1 (Throw e) n1 -> Q (Throw e) n1) ->
(forall n1, P1 Diverge n1 -> Q Diverge n1) ->
logs (bind c k) Q.
Proof.
intros Hc Hk HOk HThrow HDiv w r w' E. unfold bind in E.
destruct (c w) as [[a|e|] w1] eqn:Ec;
    destruct (Hc _ _ _ Ec) as (n1 & Hl1 & HP1).
- destruct (Hk a _ _ _ E) as (n2 & Hl2 & HP2).
    exists (n1 ++ n2). split; [rewrite Hl2, Hl1, app_assoc; reflexivity | eauto].
- inversion E; subst. eauto.
- inversion E; subst. eauto.
Qed.

Lemma logs_try {A} (c : M A) (h : Error -> M A) P1 P2 (Q : Outcome A -> list Event -> Prop) :
logs c P1 ->
(forall e, logs (h e) (P2 e)) ->
(forall a n1, P1 (Ok a) n1 -> Q (Ok a) n1) ->
(forall e n1 r n2, P1 (Throw e) n1 -> P2 e r n2 -> Q r (n1 ++ n2)) ->
(forall n1, P1 Diverge n1 -> Q Diverge n1) ->
logs (try_catch c h) Q.
Proof.
intros Hc Hh HOk HThrow HDiv w r w' E. unfold try_catch in E.
destruct (c w) as [[a|e|] w1] eqn:Ec;
    destruct (Hc _ _ _ Ec) as (n1 & Hl1 & HP1).
- inversion E; subst. eauto.
- destruct (Hh e _ _ _ E) as (n2 & Hl2 & HP2).
    exists (n1 ++ n2). split; [rewrite Hl2, Hl1, app_assoc; reflexivity | eauto].
- inversion E; subst. eauto.
Qed.

Lemma logs_emit e (P : Outcome unit -> list Event -> Prop) :
P (Ok tt) [e] -> logs (emit e) P.
Proof. intros H w r w' E. inversion E; subst. exists [e]. auto. Qed.

Lemma logs_silent {A} (c : M A) (P : Outcome A -> list Event -> Prop) :
(forall w r w', c w = (r, w') -> log w' = log w /\ P r []) -> logs c P.
Proof.
intros H w r w' E. destruct (H _ _ _ E) as [Hl HP].
exists []. rewrite app_nil_r. auto.
Qed.

Lemma next_fault_log w r w' : next_fault w = (r, w') -> log w' = log w.
Proof.
unfold next_fault. destruct (faults w) as [|[e|] f]; intros E; inversion E; reflexivity.
Qed.

Lemma run_sql_log q w r w' : run_sql q w = (r, w') -> log w' = log w.
Proof.
unfold run_sql. destruct (exec_sql q (db w)) as [e|[res d]];
    intros E; inversion E; reflexivity.
Qed.

(** A round trip to the database appends its statement and nothing else. *)
Lemma db_execute_log q w r w' :
db_execute q w = (r, w') -> log w' = log w ++ [Exec q].
Proof.
unfold db_execute, bind, emit. simpl.
destruct (next_fault (add_log (Exec q) w)) as [[[]|e|] w1] eqn:E1; intros E.
- apply run_sql_log in E. apply next_fault_log in E1. rewrite E, E1. reflexivity.
- inversion E; subst. apply next_fault_log in E1. exact E1.
- inversion E; subst. apply next_fault_log in E1. exact E1.
Qed.

Lemma external_log c w r w' :
external c w = (r, w') -> log w' = log w ++ [Call c].
Proof.
unfold external, bind, emit. simpl.
destruct (next_fault (add_log (Call c) w)) as [[[]|e|] w1] eqn:E1; intros E.
- apply next_fault_log in E1. destruct c; unfold ret in E; inversion E; subst.
    + exact E1.
    + destruct (mem bucket (buckets w1)); exact E1.
- inversion E; subst. apply next_fault_log in E1. exact E1.
- inversion E; subst. apply next_fault_log in E1. exact E1.
Qed.

Section Emits.
Variable phi : Event -> bool.

Lemma emits_ret {A} (a : A) : emits phi (ret a).
Proof. apply logs_silent. intros w r w' E; inversion E; auto. Qed.

Lemma emits_throw {A} e : emits phi (@throw A e).
Proof. apply logs_silent. intros w r w' E; inversion E; auto. Qed.

Lemma emits_diverge {A} : emits phi (@diverge A).
Proof. apply logs_silent. intros w r w' E; inversion E; auto. Qed.

Lemma emits_existsSync : emits phi existsSync.
Proof. apply logs_silent. intros w r w' E; inversion E; auto. Qed.

Lemma emits_emit e : phi e = true -> emits phi (emit e).
Proof. intros H. apply logs_emit. simpl. rewrite H. reflexivity. Qed.

Lemma emits_db_execute q : phi (Exec q) = true -> emits phi (db_execute q).
Proof.
    intros H w r w' E. apply db_execute_log in E.
    exists [Exec q]. simpl. rewrite H. auto.
Qed.

Lemma emits_external c : phi (Call c) = true -> emits phi (external c).
Proof.
    intros H w r w' E. apply external_log in E.
    exists [Call c]. simpl. rewrite H. auto.
Qed.

Lemma emits_bind {A B} (c : M A) (k : A -> M B) :
    emits phi c -> (forall a, emits phi (k a)) -> emits phi (bind c k).
Proof.
    intros Hc Hk. eapply logs_bind; [exact Hc | exact Hk | | | ]; cbv beta;
      intros; rewrite ?forallb_app; auto using andb_true_intro.
Qed.

Lemma emits_try {A} (c : M A) (h : Error -> M A) :
    emits phi c -> (forall e, emits phi (h e)) -> emits phi (try_catch c h).
Proof.
    intros Hc Hh. eapply logs_try; [exact Hc | exact Hh | | | ]; cbv beta;
      intros; rewrite ?forallb_app; auto using andb_true_intro.
Qed.

Lemma emits_for_each {A} (l : list A) (body : A -> M unit) :
    (forall x, emits phi (body x)) -> emits phi (for_each l body).
Proof.
    intros H. induction l as [|x l IH]; simpl.
    - apply emits_ret.
    - apply emits_bind; auto.
Qed.

Lemma emits_when b c : emits phi c -> emits phi (when b c).
Proof. intros H. destruct b; simpl; [exact H | apply emits_ret]. Qed.
End Emits.

Lemma emits_year_loop phi fuel id y m c :
  (forall i z, phi (Exec (QInsertInvestmentYear i z)) = true) ->
  emits phi (year_loop fuel id y m c).
Proof.
  intros H. revert y. induction fuel as [|fuel IH]; intros y; simpl;
    destruct (y <=? m); try apply emits_ret; try apply emits_diverge.
  apply emits_bind; [apply emits_db_execute, H | intros _; apply IH].
Qed.

Lemma emits_populate_one phi row :
  (forall i z, phi (Exec (QInsertInvestmentYear i z)) = true) ->
  emits phi (populate_one row).
Proof.
  intros H. unfold populate_one. destruct row; try apply emits_throw.
  destruct (cyclic_interval i).
  - apply emits_year_loop, H.
  - apply emits_bind; [apply emits_db_execute, H | intros _; apply emits_ret].
Qed.

(** Applies the rules above along the syntax of a computation. *)
Ltac emits_step :=
  match goal with
  | |- emits _ (ret _) => apply emits_ret
  | |- emits _ (throw _) => apply emits_throw
  | |- emits _ diverge => apply emits_diverge
  | |- emits _ existsSync => apply emits_existsSync
  | |- emits _ (emit _) => apply emits_emit; reflexivity
  | |- emits _ (console_log _) => apply emits_emit; reflexivity
  | |- emits _ (console_error _ _) => apply emits_emit; reflexivity
  | |- emits _ (enter _) => apply emits_emit; reflexivity
  | |- emits _ (db_execute _) => apply emits_db_execute; reflexivity
  | |- emits _ (external _) => apply emits_external; reflexivity
  | |- emits _ (bind _ _) => apply emits_bind; [| intros ?]
  | |- emits _ (try_catch _ _) => apply emits_try; [| intros ?]
  | |- emits _ (for_each _ _) => apply emits_for_each; intros ?
  | |- emits _ (when _ _) => apply emits_when
  | |- emits _ (rethrow _ _) => unfold rethrow
  | |- emits _ (hasMigrationRun _) => unfold hasMigrationRun
  | |- emits _ (markMigrationComplete _) => unfold markMigrationComplete
  | |- emits _ (populate_one _) => apply emits_populate_one; intros; reflexivity
  | |- emits _ (if ?b then _ else _) => destruct b
  | |- emits _ (match ?x with _ => _ end) => destruct x
  | |- emits _ (let _ := _ in _) => cbv zeta
  end.

Ltac emits_tac := repeat emits_step.


Lemma hasMigrationRun_quiet name : emits not_enter (hasMigrationRun name).
Proof. unfold hasMigrationRun. emits_tac. Qed.

Lemma markMigrationComplete_quiet name : emits not_enter (markMigrationComplete name).
Proof. unfold markMigrationComplete. emits_tac. Qed.

Lemma entered_app l1 l2 : entered (l1 ++ l2) = entered l1 ++ entered l2.
Proof.
  induction l1 as [|[] l1 IH]; simpl; auto. rewrite IH. reflexivity.
Qed.

Lemma entered_quiet l : forallb not_enter l = true -> entered l = [].
Proof.
  induction l as [|[] l IH]; simpl; auto; discriminate.
Qed.

Lemma In_entered s l : In s (entered l) <-> In (Enter s) l.
Proof.
  induction l as [|e l IH]; simpl; [tauto|].
  destruct e; simpl; rewrite IH; split; intros H;
    try (right; exact H); try (destruct H as [H|H]; [discriminate H | exact H]).
  - destruct H as [H|H]; [left; congruence | right; exact H].
  - destruct H as [H|H]; [left; congruence | right; exact H].
Qed.

(** A step that logs its entry and then runs a body that enters nothing. *)
Lemma enter_then s (c : M unit) :
  emits not_enter c -> logs (enter s ;; c) (fun _ new => entered new = [s]).
Proof.
  intros H.
  eapply logs_bind with (P1 := fun r n => r = Ok tt /\ n = [Enter s])
                        (P2 := fun _ _ n => forallb not_enter n = true).
  - apply logs_emit. auto.
  - intros _. exact H.
  - intros a n1 r n2 [_ ->] Hq. simpl. rewrite entered_quiet; auto.
  - intros e n1 [Hr _]; discriminate.
  - intros n1 [Hr _]; discriminate.
Qed.

(** Each step logs its own entry, once, and no other step's. *)
Lemma step_enters s : logs (step_body s) (fun _ new => entered new = [s]).
Proof.
  destruct s; cbn [step_body];
    match goal with |- logs ?c _ => unfold c end;
    cbv zeta; apply enter_then; emits_tac.
Qed.

(** ** Lists without repetition *)

Lemma split_unique {A} (b : A) x y p q :
  NoDup (x ++ b :: y) -> x ++ b :: y = p ++ b :: q -> x = p /\ y = q.
Proof.
  revert p. induction x as [|a x IH]; intros [|c p] Hnd E; simpl in *.
  - inversion E; auto.
  - inversion E; subst. inversion Hnd; subst.
    exfalso. apply H1. apply in_or_app. right. left. reflexivity.
  - inversion E; subst. inversion Hnd; subst.
    exfalso. apply H1. apply in_or_app. right. left. reflexivity.
  - inversion E; subst. inversion Hnd; subst.
    destruct (IH p H3 H1) as [-> ->]. auto.
Qed.

Lemma NoDup_later {A} (l1 : list A) s l2 s' :
  NoDup (l1 ++ s :: l2) -> In s' l2 -> ~ In s' (l1 ++ [s]).
Proof.
  induction l1 as [|a l1 IH]; simpl; intros Hnd Hin Hin'; inversion Hnd; subst.
  - destruct Hin' as [E|[]]. subst. auto.
  - destruct Hin' as [E|Hin'].
    + subst. apply H1. apply in_or_app. right. right. exact Hin.
    + exact (IH H2 Hin Hin').
Qed.

Lemma step_sequence_NoDup : NoDup step_sequence.
Proof.
  unfold step_sequence, critical_steps, noncritical_steps. simpl.
  repeat (constructor; [simpl; intuition discriminate|]). constructor.
Qed.

(** ** Runs of a list of steps *)

(** What [run_steps l] has entered is the part of [l] it got through. *)
Lemma run_steps_entered l :
  logs (run_steps l) (fun r new =>
    exists l1 l2, l = l1 ++ l2 /\ entered new = l1 /\ (r = Ok tt -> l2 = [])).
Proof.
  induction l as [|s l IH]; simpl.
  - apply logs_silent. intros w r w' E. inversion E; subst.
    split; auto. exists [], []. auto.
  - eapply logs_bind with (P2 := fun _ => _);
      [apply step_enters | intros ?; apply IH | | | ]; cbv beta.
    + intros _ n1 r n2 H1 (l1 & l2 & Hl & H2 & H3).
      exists (s :: l1), l2. rewrite entered_app, H1, H2, Hl. auto.
    + intros e n1 H1. exists [s], l. rewrite H1. repeat split; auto. discriminate.
    + intros n1 H1. exists [s], l. rewrite H1. repeat split; auto. discriminate.
Qed.

Lemma run_steps_Ok_entered l w w' :
  run_steps l w = (Ok tt, w') ->
  exists new, log w' = log w ++ new /\ entered new = l.
Proof.
  intros E. destruct (run_steps_entered l _ _ _ E) as (new & Hl & l1 & l2 & -> & H1 & H2).
  exists new. rewrite (H2 eq_refl), app_nil_r. auto.
Qed.

(** A list of steps stops at the first step that throws. *)
Lemma run_steps_throw l1 s l2 w w1 w2 e :
  run_steps l1 w = (Ok tt, w1) ->
  step_body s w1 = (Throw e, w2) ->
  run_steps (l1 ++ s :: l2) w = (Throw e, w2).
Proof.
  intros H1 H2. rewrite run_steps_app. erewrite bind_Ok by exact H1.
  simpl. apply bind_Throw. exact H2.
Qed.

Lemma run_steps_throw_entered l1 s w w1 w2 e :
  run_steps l1 w = (Ok tt, w1) ->
  step_body s w1 = (Throw e, w2) ->
  exists new, log w2 = log w ++ new /\ entered new = l1 ++ [s].
Proof.
  intros H1 H2.
  destruct (run_steps_Ok_entered _ _ _ H1) as (n1 & Hl1 & He1).
  destruct (step_enters s _ _ _ H2) as (n2 & Hl2 & He2).
  exists (n1 ++ n2). rewrite Hl2, Hl1, app_assoc, entered_app, He1, He2. auto.
Qed.

Lemma ensureMigrationTable_quiet : emits not_enter ensureMigrationTable.
Proof. unfold ensureMigrationTable. emits_tac. Qed.

Lemma ensureMigrationTable_entered w r w' :
  ensureMigrationTable (add_log (Info Starting) w) = (r, w') ->
  exists new, log w' = log w ++ new /\ entered new = [].
Proof.
  intros E. destruct (ensureMigrationTable_quiet _ _ _ E) as (n & Hl & Hq).
  exists (Info Starting :: n). simpl in *. rewrite Hl, <- app_assoc.
  split; [reflexivity | apply entered_quiet, Hq].
Qed.

(** ** Failure of a critical step *)

(** C2. When a critical step throws to the runner, [runMigrations] throws the
    same error; the world it leaves is the one the failing step left, plus the
    line of the outer catch: no step declared after the failing one is entered
    and the database is as the failing step left it. *)
Theorem critical_failure_propagates w w1 w2 w3 l1 s l2 e :
  critical_steps = l1 ++ s :: l2 ->
  ensureMigrationTable (add_log (Info Starting) w) = (Ok tt, w1) ->
  run_steps l1 w1 = (Ok tt, w2) ->
  step_body s w2 = (Throw e, w3) ->
  runMigrations w = (Throw e, add_log (Logged CriticalSetup e) w3) /\
  db (add_log (Logged CriticalSetup e) w3) = db w3 /\
  exists new,
    log (add_log (Logged CriticalSetup e) w3) = log w ++ new /\
    entered new = l1 ++ [s] /\
    forall s', In s' (l2 ++ noncritical_steps) -> ~ In (Enter s') new.
Proof.
  intros Hsplit Hm H1 Hs.
  split; [|split; [reflexivity|]].
  - rewrite runMigrations_runner. unfold runner, console_log.
    unfold bind at 1. unfold emit at 1.
    apply try_Throw with (h := rethrow_critical) (w1 := w3) (e := e).
    erewrite bind_Ok by exact Hm.
    apply bind_Throw. rewrite Hsplit. eapply run_steps_throw; eassumption.
  - destruct (ensureMigrationTable_entered _ _ _ Hm) as (n0 & Hl0 & He0).
    destruct (run_steps_throw_entered _ _ _ _ _ _ H1 Hs) as (n1 & Hl1 & He1).
    exists (n0 ++ n1 ++ [Logged CriticalSetup e]). simpl.
    rewrite Hl1, Hl0, <- !app_assoc. split; [reflexivity|].
    assert (Hent : entered (n0 ++ n1 ++ [Logged CriticalSetup e]) = l1 ++ [s]).
    { rewrite !entered_app, He0, He1. simpl. apply app_nil_r. }
    split; [exact Hent|].
    intros s' Hin Hen. apply In_entered in Hen. rewrite Hent in Hen.
    revert Hen. apply NoDup_later with (l2 := l2 ++ noncritical_steps); [|exact Hin].
    pose proof step_sequence_NoDup as Hnd. unfold step_sequence in Hnd.
    rewrite Hsplit, <- app_assoc in Hnd. exact Hnd.
Qed.

Lemma critical_failure_propagates_witness :
  fst (runMigrations base_schema_fails) = Throw boom /\
  entered (log (snd (runMigrations base_schema_fails))) = [CreateBaseSchema].
Proof.
  pose (w1 := snd (ensureMigrationTable (add_log (Info Starting) base_schema_fails))).
  pose (w3 := snd (step_body CreateBaseSchema w1)).
  destruct (critical_failure_propagates base_schema_fails w1 w1 w3 []
              CreateBaseSchema
              [EnsureSessionTable; AddDrawingCategoryEnumValues; SeedSchoolsAndBoards]
              boom) as (Hrun & _ & _);
    [reflexivity | vm_compute; reflexivity | reflexivity | vm_compute; reflexivity |].
  rewrite Hrun. split; vm_compute; reflexivity.
Defined.

(** ** Failure of a non-critical step *)




(** ** The tracking check fails open *)

Lemma hasMigrationRun_throws name w e w1 :
  db_execute (QSelectMigration name) w = (Throw e, w1) ->
  hasMigrationRun name w
  = (Ok false, add_log (Logged (CheckingMigrationStatus name) e) w1).
Proof.
  intros H. unfold hasMigrationRun.
  erewrite try_Throw by (apply bind_Throw; exact H). reflexivity.
Qed.

Lemma mentions_db_execute q : mentions (Exec q) (db_execute q).
Proof.
  intros w r w' E. apply db_execute_log in E. exists [Exec q]. simpl. auto.
Qed.

Lemma mentions_bind ev {A B} (c : M A) (k : A -> M B) :
  mentions ev c -> (forall a, emits any_event (k a)) -> mentions ev (bind c k).
Proof.
  intros Hc Hk. eapply logs_bind; [exact Hc | exact Hk | | | ]; cbv beta;
    intros; try apply in_or_app; auto.
Qed.

Lemma mentions_try ev {A} (c : M A) (h : Error -> M A) :
  mentions ev c -> (forall e, emits any_event (h e)) -> mentions ev (try_catch c h).
Proof.
  intros Hc Hh. eapply logs_try; [exact Hc | exact Hh | | | ]; cbv beta;
    intros; try apply in_or_app; auto.
Qed.

Ltac mentions_tac :=
  repeat first
    [ apply mentions_db_execute
    | apply mentions_bind; [| intros ?; emits_tac]
    | apply mentions_try; [| intros ?; emits_tac] ].

Definition not_already_completed (e : Event) : bool :=
  match e with Info (AlreadyCompleted _) => false | _ => true end.

(** What a step does once its tracking check has thrown. *)
Lemma unchecked_body (body : M unit) (q : Sql) w r w' :
  mentions (Exec q) body ->
  emits not_already_completed body ->
  body w = (r, w') ->
  exists new, log w' = log w ++ new /\ In (Exec q) new /\
              forallb not_already_completed new = true.
Proof.
  intros Hm He E.
  destruct (Hm _ _ _ E) as (n1 & Hl1 & Hin).
  destruct (He _ _ _ E) as (n2 & Hl2 & Hq).
  rewrite Hl1 in Hl2. apply app_inv_head in Hl2. subst n2. eauto.
Qed.

Lemma not_already_completed_In s l :
  forallb not_already_completed l = true -> ~ In (Info (AlreadyCompleted s)) l.
Proof.
  intros H Hin. rewrite forallb_forall in H. apply H in Hin. discriminate.
Qed.

(** C3. When the query of [hasMigrationRun] throws, [hasMigrationRun] logs
    the error and answers false; a step that consults it first then goes on
    to its statements instead of returning early. *)
Theorem tracking_check_fails_open :
  (forall name w e w1,
      db_execute (QSelectMigration name) w = (Throw e, w1) ->
      hasMigrationRun name w
      = (Ok false, add_log (Logged (CheckingMigrationStatus name) e) w1)) /\
  (forall s name q w e w1 r w',
      tracking_name s = Some name ->
      first_statement s = Some q ->
      db_execute (QSelectMigration name) (add_log (Enter s) w) = (Throw e, w1) ->
      step_body s w = (r, w') ->
      exists new, log w' = log w ++ new /\
                  In (Exec q) new /\ ~ In (Info (AlreadyCompleted s)) new).
Proof.
  split; [exact hasMigrationRun_throws|].
  intros s name q w e w1 r w' Hn Hq Hthrow Hrun.
  pose proof (hasMigrationRun_throws _ _ _ _ Hthrow) as Hhas.
  pose proof (db_execute_log _ _ _ _ Hthrow) as Hlog1. simpl in Hlog1.
  assert (Hgoal : forall body,
             body (add_log (Logged (CheckingMigrationStatus name) e) w1) = (r, w') ->
             mentions (Exec q) body -> emits not_already_completed body ->
             exists new, log w' = log w ++ new /\
                         In (Exec q) new /\ ~ In (Info (AlreadyCompleted s)) new).
  { intros body Hb Hm He.
    destruct (unchecked_body _ _ _ _ _ Hm He Hb) as (new & Hl & Hin & Hnot).
    exists ([Enter s; Exec (QSelectMigration name);
             Logged (CheckingMigrationStatus name) e] ++ new).
    simpl in Hl. rewrite Hl, Hlog1, <- !app_assoc. simpl.
    split; [reflexivity|]. split; [auto|].
    intros [H|[H|[H|H]]]; try discriminate.
    revert H. apply not_already_completed_In, Hnot. }
  destruct s; simpl in Hn, Hq; try discriminate;
    inversion Hn; subst name; inversion Hq; subst q; clear Hn Hq;
    cbn [step_body] in Hrun;
    match type of Hrun with ?c _ = _ => unfold c in Hrun end;
    cbv zeta in Hrun; unfold enter in Hrun;
    unfold bind at 1 in Hrun; unfold emit at 1 in Hrun;
    first [ erewrite bind_Ok in Hrun by exact Hhas
          | erewrite try_bind_Ok in Hrun by exact Hhas ];
    cbv iota beta in Hrun;
    (eapply Hgoal; [exact Hrun | mentions_tac | emits_tac]).
Qed.

Lemma tracking_check_fails_open_witness :
  fst (hasMigrationRun "recalculate_budget_spent_amounts" first_query_fails)
  = Ok false /\
  In (Exec QResetSpent)
     (log (snd (recalculateBudgetSpentAmounts first_query_fails))).
Proof.
  destruct tracking_check_fails_open as [H1 H2]. split.
  - erewrite (H1 "recalculate_budget_spent_amounts" first_query_fails boom);
      [reflexivity | vm_compute; reflexivity].
  - destruct (H2 RecalculateBudgetSpentAmounts
                 "recalculate_budget_spent_amounts" QResetSpent
                 first_query_fails boom
                 (snd (db_execute (QSelectMigration "recalculate_budget_spent_amounts")
                         (add_log (Enter RecalculateBudgetSpentAmounts) first_query_fails)))
                 (fst (recalculateBudgetSpentAmounts first_query_fails))
                 (snd (recalculateBudgetSpentAmounts first_query_fails)))
      as (new & Hl & Hin & _);
      [reflexivity | reflexivity | vm_compute; reflexivity
      | vm_compute; reflexivity |].
    rewrite Hl. apply in_or_app. right. exact Hin.
Defined.

(** ** A failed mark is a failed step *)

Section Escalation.
Variable excuse : list Event -> Prop.
Hypothesis excuse_l : forall n1 n2, excuse n1 -> excuse (n1 ++ n2).
Hypothesis excuse_r : forall n1 n2, excuse n2 -> excuse (n1 ++ n2).

Lemma escalates_quiet {A} (c : M A) :
  emits not_mark_failure c -> escalates_unless excuse c.
Proof.
  intros H. eapply logs_weaken; [exact H|]. cbv beta.
  intros r new Hq n e Hin. rewrite forallb_forall in Hq.
  apply Hq in Hin. discriminate.
Qed.

Lemma escalates_bind {A B} (c : M A) (k : A -> M B) :
  escalates_unless excuse c -> (forall a, escalates_unless excuse (k a)) ->
  escalates_unless excuse (bind c k).
Proof.
  intros Hc Hk. eapply logs_bind; [exact Hc | exact Hk | | | ]; cbv beta.
  - intros a n1 r n2 H1 H2 n e Hin. apply in_app_or in Hin. destruct Hin as [Hin|Hin].
    + destruct (H1 _ _ Hin) as [H|H]; [discriminate | auto].
    + destruct (H2 _ _ Hin) as [H|H]; auto.
  - intros e n1 H1 n e' Hin.
    destruct (H1 _ _ Hin) as [H|H]; [left; congruence | auto].
  - intros n1 H1 n e' Hin.
    destruct (H1 _ _ Hin) as [H|H]; [discriminate | auto].
Qed.

(** The handler of most steps logs and throws again what it caught. *)
Lemma escalates_rethrow (c : M unit) s :
  escalates_unless excuse c -> escalates_unless excuse (try_catch c (rethrow s)).
Proof.
  intros Hc.
  eapply logs_try with (P2 := fun e r n => r = Throw e /\ n = [Logged (DuringStep s) e]);
    [exact Hc | | | | ]; cbv beta.
  - intros e w r w' E. inversion E; subst. exists [Logged (DuringStep s) e]. auto.
  - intros a n1 H1 n e' Hin. exact (H1 _ _ Hin).
  - intros e n1 r n2 H1 [-> ->] n e' Hin. apply in_app_or in Hin.
    destruct Hin as [Hin|[Hin|[]]]; [|discriminate].
    destruct (H1 _ _ Hin) as [H|H]; [left; exact H | auto].
  - intros n1 H1 n e' Hin. exact (H1 _ _ Hin).
Qed.

Lemma escalates_mark name : escalates_unless excuse (markMigrationComplete name).
Proof.
  unfold markMigrationComplete.
  eapply logs_try
    with (P1 := fun _ n => forallb not_mark_failure n = true)
         (P2 := fun e r n => r = Throw e /\ n = [Logged (MarkingMigrationComplete name) e]);
    cbv beta.
  - change (emits not_mark_failure (db_execute (QInsertMigration name) ;; ret tt)).
    emits_tac.
  - intros e w r w' E. inversion E; subst. eexists. split; [reflexivity|]. auto.
  - intros a n1 Hq n e Hin. rewrite forallb_forall in Hq. apply Hq in Hin. discriminate.
  - intros e n1 r n2 Hq [-> ->] n e' Hin. apply in_app_or in Hin.
    destruct Hin as [Hin|[Hin|[]]].
    + rewrite forallb_forall in Hq. apply Hq in Hin. discriminate.
    + inversion Hin; subst. auto.
  - intros n1 Hq n e Hin. rewrite forallb_forall in Hq. apply Hq in Hin. discriminate.
Qed.
End Escalation.

Ltac escalates_tac :=
  repeat first
    [ solve [apply escalates_quiet; emits_tac]
    | match goal with
      | |- escalates_unless _ (markMigrationComplete _) => apply escalates_mark
      | |- escalates_unless _ (try_catch _ (rethrow _)) =>
          apply escalates_rethrow; [solve [auto] ..|]
      | |- escalates_unless _ (bind _ _) =>
          apply escalates_bind; [solve [auto] ..| | intros ?]
      | |- escalates_unless _ (if ?b then _ else _) => destruct b
      | |- escalates_unless _ (match ?x with _ => _ end) => destruct x
      | |- escalates_unless _ (let _ := _ in _) => cbv zeta
      end ].

Lemma step_escalates s : s <> CreateBaseSchema -> escalates (step_body s).
Proof.
  intros Hs. unfold escalates.
  destruct s; try congruence; clear Hs; cbn [step_body];
    match goal with |- escalates_unless _ ?c => unfold c end; cbv zeta;
    escalates_tac.
Qed.

Lemma mentions_emit_first e (c : M unit) :
  emits any_event c -> mentions e (emit e ;; c).
Proof.
  intros H. apply mentions_bind; [|intros _; exact H].
  apply logs_emit. simpl. auto.
Qed.

Lemma escalates_excused ev {A} (c : M A) :
  mentions ev c -> escalates_unless (In ev) c.
Proof.
  intros H. eapply logs_weaken; [exact H|]. cbv beta. auto.
Qed.

Lemma createBaseSchema_escalates :
  escalates_unless (In (Info SchemaAlreadyExists)) createBaseSchema.
Proof.
  assert (Hl : forall n1 n2 : list Event,
             In (Info SchemaAlreadyExists) n1 -> In (Info SchemaAlreadyExists) (n1 ++ n2))
    by (intros; apply in_or_app; auto).
  assert (Hr : forall n1 n2 : list Event,
             In (Info SchemaAlreadyExists) n2 -> In (Info SchemaAlreadyExists) (n1 ++ n2))
    by (intros; apply in_or_app; auto).
  unfold createBaseSchema. cbv zeta.
  apply escalates_bind; auto; [apply escalates_quiet; emits_tac | intros _].
  apply escalates_rethrow; auto.
  apply escalates_bind; auto; [apply escalates_quiet; emits_tac | intros tableCheck].
  destruct (first_exists tableCheck).
  - apply escalates_excused. apply mentions_emit_first. emits_tac.
  - escalates_tac.
Qed.

(** C4, as stated, fails: when the base schema already exists and the insert
    into migration_status throws, createBaseSchema catches the error thrown by
    markMigrationComplete and returns normally. *)
Lemma mark_failure_counterexample :
  ~ mark_failure_fails_step CreateBaseSchema mark_fails_on_existing_schema.
Proof.
  intros H. specialize (H "create_base_schema" boom).
  assert (Hin : In (Logged (MarkingMigrationComplete "create_base_schema") boom)
                   (log (snd (step_body CreateBaseSchema mark_fails_on_existing_schema))))
    by (vm_compute; tauto).
  specialize (H Hin). vm_compute in H. discriminate H.
Qed.

(** C4, amended. [markMigrationComplete] logs and rethrows a failure of its
    insert. A step in which that happened has thrown the same error, with one
    exception: createBaseSchema on the path where it found the base schema
    already in place, which ignores the failure. *)
Theorem mark_failure_escalates :
  (forall name w e w1,
      db_execute (QInsertMigration name) w = (Throw e, w1) ->
      markMigrationComplete name w
      = (Throw e, add_log (Logged (MarkingMigrationComplete name) e) w1)) /\
  (forall s w r w' new n e,
      step_body s w = (r, w') ->
      log w' = log w ++ new ->
      In (Logged (MarkingMigrationComplete n) e) new ->
      r = Throw e \/ (s = CreateBaseSchema /\ In (Info SchemaAlreadyExists) new)).
Proof.
  split.
  - intros name w e w1 H. unfold markMigrationComplete.
    erewrite try_Throw by (apply bind_Throw; exact H). reflexivity.
  - intros s w r w' new n e Hrun Hlog Hin.
    destruct (Step_eq_dec s CreateBaseSchema) as [->|Hs].
    + destruct (createBaseSchema_escalates _ _ _ Hrun) as (new' & Hl & H).
      rewrite Hlog in Hl. apply app_inv_head in Hl. subst new'.
      destruct (H _ _ Hin); auto.
    + destruct (step_escalates s Hs _ _ _ Hrun) as (new' & Hl & H).
      rewrite Hlog in Hl. apply app_inv_head in Hl. subst new'.
      destruct (H _ _ Hin) as [H'|[]]. auto.
Qed.

Lemma mark_failure_escalates_witness :
  fst (fixJeanAdminRole mark_fails_after_work) = Throw boom.
Proof.
  destruct mark_failure_escalates as [_ H].
  destruct (H FixJeanAdminRole mark_fails_after_work
              (fst (fixJeanAdminRole mark_fails_after_work))
              (snd (fixJeanAdminRole mark_fails_after_work))
              (log (snd (fixJeanAdminRole mark_fails_after_work)))
              "fix_jean_admin_role_v2" boom)
    as [Hthrow|[Hs _]];
    [ vm_compute; reflexivity | reflexivity | vm_compute; tauto
    | exact Hthrow | discriminate Hs ].
Defined.

(** ** The steps run in the order of their dependencies *)

Lemma mem_In x l : mem x l = true <-> In x l.
Proof.
  unfold mem. rewrite existsb_exists. split.
  - intros (y & Hy & E). apply String.eqb_eq in E. subst. exact Hy.
  - intros H. exists x. split; [exact H | apply String.eqb_refl].
Qed.

Lemma mem_add_name t x l :
  mem t (add_name x l) = true <-> t = x \/ mem t l = true.
Proof.
  unfold add_name. destruct (mem x l) eqn:E.
  - split; [auto|]. intros [->|H]; auto.
  - rewrite !mem_In. simpl. intuition.
Qed.

Lemma mem_add_names t names l :
  mem t (add_names names l) = true <-> In t names \/ mem t l = true.
Proof.
  induction names as [|x names IH]; simpl.
  - tauto.
  - rewrite mem_add_name, IH. intuition.
Qed.

(** A statement that succeeds found the relations it needs. *)
Lemma exec_sql_needs q d x :
  exec_sql q d = inr x -> has_all (sql_needs q) d = true.
Proof.
  destruct q; cbn [exec_sql sql_needs]; unfold requiring; try reflexivity;
    destruct (has_all _ d); intros H; try reflexivity; discriminate H.
Qed.

Lemma relations_create_schema t d :
  mem t (relations (create_schema d)) = true ->
  mem t (relations d) = true \/ In t (base_types ++ base_tables).
Proof.
  unfold create_schema. cbn [relations set_relations].
  rewrite mem_add_names. tauto.
Qed.

Lemma relations_add_relation t n d :
  mem t (relations (add_relation n d)) = true ->
  mem t (relations d) = true \/ t = n.
Proof.
  unfold add_relation. cbn [relations set_relations]. rewrite mem_add_name. tauto.
Qed.

Lemma relations_add_columns names d :
  relations (add_columns names d) = relations d.
Proof. reflexivity. Qed.

Lemma relations_drop_columns names d :
  relations (drop_columns names d) = relations d.
Proof. reflexivity. Qed.

Lemma relations_insert_migration n d :
  relations (insert_migration n d) = relations d.
Proof. reflexivity. Qed.

(** Relations come into being through the statements that create them. *)
Lemma exec_sql_creates q d r d' t :
  exec_sql q d = inr (r, d') ->
  mem t (relations d') = true ->
  mem t (relations d) = true \/ In t (sql_creates q).
Proof.
  destruct q; cbn [exec_sql sql_creates]; unfold create_table, requiring, done, answer;
    repeat match goal with
           | |- context [if ?b then _ else _] => destruct b
           | |- context [match ?l with [] => _ | _ :: _ => _ end] => destruct l
           | |- context [match ?n with O => _ | S _ => _ end] => destruct n
           end;
    intros H; inversion H; subst; clear H;
    rewrite ?relations_add_columns, ?relations_drop_columns,
            ?relations_insert_migration;
    cbn [relations set_relations set_boards set_schools set_users
         set_user_schools set_budget_categories set_investment_years
         set_drawings set_drawing_category_labels set_role_labels];
    auto; intros Hm.
  all: try (apply relations_create_schema in Hm; exact Hm).
  all: try (apply relations_add_relation in Hm; destruct Hm as [Hm| ->];
            [auto | right; simpl; auto]).
Qed.

(** The statements a step executes stay within its declared footprint. *)
Lemma step_footprint s : emits (within_footprint s) (step_body s).
Proof.
  destruct s; cbn [step_body];
    match goal with |- emits _ ?c => unfold c end; cbv zeta; emits_tac.
Qed.

Lemma runner_entered :
  logs runner (fun _ new => exists rest, step_sequence = entered new ++ rest).
Proof.
  unfold runner.
  eapply logs_bind with (P1 := fun _ n => entered n = [])
                        (P2 := fun _ _ n => exists rest, step_sequence = entered n ++ rest).
  - apply logs_emit. reflexivity.
  - intros _.
    eapply logs_try with (P1 := fun _ n => exists rest, step_sequence = entered n ++ rest)
                         (P2 := fun _ _ n => entered n = []).
    + eapply logs_bind with (P1 := fun _ n => entered n = [])
                            (P2 := fun _ _ n => exists rest, step_sequence = entered n ++ rest).
      * eapply logs_weaken; [apply ensureMigrationTable_quiet|].
        intros r new. apply entered_quiet.
      * intros _.
        eapply logs_bind with (P2 := fun _ _ n => exists rest, noncritical_steps = entered n ++ rest).
        -- apply run_steps_entered.
        -- intros _.
           eapply logs_bind with (P1 := fun _ n => exists rest, noncritical_steps = entered n ++ rest)
                                 (P2 := fun _ _ n => entered n = []).
           ++ eapply logs_try with (P2 := fun _ _ n => entered n = []).
              ** apply run_steps_entered.
              ** intros e. apply logs_emit. reflexivity.
              ** intros a n1 (l1 & l2 & Hl & He & _). exists l2. rewrite He. exact Hl.
              ** intros e n1 r n2 (l1 & l2 & Hl & He & _) H2. exists l2.
                 rewrite entered_app, He, H2, app_nil_r. exact Hl.
              ** intros n1 (l1 & l2 & Hl & He & _). exists l2. rewrite He. exact Hl.
           ++ intros _. apply logs_emit. reflexivity.
           ++ intros a n1 r n2 (rest & Hr) H2. exists rest.
              rewrite entered_app, H2, app_nil_r. exact Hr.
           ++ intros e n1 H. exact H.
           ++ intros n1 H. exact H.
        -- intros a n1 r n2 (l1 & l2 & Hl & He & Hok) (rest & Hr). exists rest.
           destruct a. rewrite (Hok eq_refl), app_nil_r in Hl.
           rewrite entered_app, <- app_assoc, <- Hr, He, <- Hl. reflexivity.
        -- intros e n1 (l1 & l2 & Hl & He & _). exists (l2 ++ noncritical_steps).
           unfold step_sequence. rewrite Hl, He, <- app_assoc. reflexivity.
        -- intros n1 (l1 & l2 & Hl & He & _). exists (l2 ++ noncritical_steps).
           unfold step_sequence. rewrite Hl, He, <- app_assoc. reflexivity.
      * intros a n1 r n2 H1 (rest & Hr). exists rest. rewrite entered_app, H1. exact Hr.
      * intros e n1 H1. exists step_sequence. rewrite H1. reflexivity.
      * intros n1 H1. exists step_sequence. rewrite H1. reflexivity.
    + intros e. unfold rethrow_critical.
      eapply logs_bind with (P1 := fun _ n => entered n = [])
                            (P2 := fun _ _ n => entered n = []).
      * apply logs_emit. reflexivity.
      * intros _. apply logs_silent. intros w r w' E. inversion E; auto.
      * intros a n1 r n2 H1 H2. rewrite entered_app, H1, H2. reflexivity.
      * auto.
      * auto.
    + auto.
    + intros e n1 r n2 (rest & Hr) H2. exists rest.
      rewrite entered_app, H2, app_nil_r. exact Hr.
    + auto.
  - intros a n1 r n2 H1 (rest & Hr). exists rest. rewrite entered_app, H1. exact Hr.
  - intros e n1 H1. exists step_sequence. rewrite H1. reflexivity.
  - intros n1 H1. exists step_sequence. rewrite H1. reflexivity.
Qed.

(** What a run has entered is an initial part of [step_sequence]. *)
Lemma runMigrations_entered w r w' new :
  runMigrations w = (r, w') -> log w' = log w ++ new ->
  exists rest, step_sequence = entered new ++ rest.
Proof.
  intros E Hl. rewrite runMigrations_runner in E.
  destruct (runner_entered _ _ _ E) as (new' & Hl' & H).
  rewrite Hl in Hl'. apply app_inv_head in Hl'. subst. exact H.
Qed.

Lemma Step_eqb_eq a b : Step_eqb a b = true <-> a = b.
Proof.
  unfold Step_eqb. destruct (Step_eq_dec a b); split; auto; discriminate.
Qed.

Lemma position_skip b x z :
  ~ In b x -> position b (x ++ b :: z) = List.length x.
Proof.
  induction x as [|a x IH]; simpl; intros H.
  - destruct (Step_eqb b b) eqn:E; [reflexivity|].
    assert (Step_eqb b b = true) by (apply Step_eqb_eq; reflexivity). congruence.
  - destruct (Step_eqb a b) eqn:E.
    + apply Step_eqb_eq in E. subst. exfalso. auto.
    + rewrite IH; auto.
Qed.

Lemma position_within a x z :
  (position a (x ++ z) < List.length x)%nat -> In a x.
Proof.
  induction x as [|c x IH]; simpl; intros H.
  - lia.
  - destruct (Step_eqb c a) eqn:E.
    + apply Step_eqb_eq in E. auto.
    + right. apply IH. lia.
Qed.

(** In an initial part of a sequence without repetition that reaches [b],
    whatever is declared before [b] comes before [b]. *)
Lemma before_in_prefix a b (l rest : list Step) :
  NoDup (l ++ rest) ->
  (position a (l ++ rest) < position b (l ++ rest))%nat ->
  In b l -> before a b l.
Proof.
  intros Hnd Hlt Hin. apply in_split in Hin. destruct Hin as (x & y & ->).
  exists x, y. split; [reflexivity|].
  rewrite <- app_assoc in Hlt, Hnd. simpl in Hlt, Hnd.
  rewrite (position_skip b x (y ++ rest)) in Hlt.
  - apply position_within in Hlt. exact Hlt.
  - apply NoDup_remove_2 in Hnd. intros H. apply Hnd. apply in_or_app. auto.
Qed.

Lemma declared_before_runs_before a b :
  declared_before a b = true -> runs_before a b.
Proof.
  intros Hd w r w' new E Hl Hin.
  destruct (runMigrations_entered _ _ _ _ E Hl) as (rest & Hseq).
  apply before_in_prefix with (rest := rest); [| |exact Hin]; rewrite <- Hseq.
  - exact step_sequence_NoDup.
  - unfold declared_before in Hd. apply Nat.ltb_lt. exact Hd.
Qed.

Lemma shares_relation_intro a b t :
  In t (step_creates a) -> In t (step_needs b) -> shares_relation a b = true.
Proof.
  intros Ha Hb. unfold shares_relation. apply existsb_exists.
  exists t. split; [exact Ha | apply mem_In, Hb].
Qed.



(** ** Round trips *)

(** A round trip either applies its statement or throws and leaves the
    database as it was. *)
Lemma db_execute_cases q w r w' :
  db_execute q w = (r, w') ->
  (exists res, r = Ok res /\ exec_sql q (db w) = inr (res, db w')) \/
  (exists e, r = Throw e /\ db w' = db w).
Proof.
  unfold db_execute, bind, emit.
  destruct (next_fault (add_log (Exec q) w)) as [[[]|e|] w1] eqn:E1;
    unfold next_fault in E1; cbn [faults add_log] in E1;
    destruct (faults w) as [|[e'|] f]; inversion E1; subst; clear E1;
    unfold run_sql; cbn [db set_faults add_log].
  1,2: destruct (exec_sql q (db w)) as [e|[res d]]; intros E; inversion E; subst;
       [right; eauto | left; eauto].
  intros E; inversion E; subst. right; eauto.
Qed.

Lemma emit_db e w r w' : emit e w = (r, w') -> r = Ok tt /\ db w' = db w.
Proof. intros E. inversion E. auto. Qed.

(** Without faults a round trip is the statement itself. *)
Lemma db_execute_clean q w :
  faults w = [] ->
  db_execute q w =
  match exec_sql q (db w) with
  | inl e => (Throw e, add_log (Exec q) w)
  | inr (res, d) => (Ok res, set_db d (add_log (Exec q) w))
  end.
Proof.
  intros Hf. unfold db_execute, bind, emit, next_fault, run_sql.
  cbn [faults add_log db]. rewrite Hf. reflexivity.
Qed.

Lemma bind_inv {A B} (c : M A) (k : A -> M B) w r w' :
  bind c k w = (r, w') ->
  (exists a w1, c w = (Ok a, w1) /\ k a w1 = (r, w')) \/
  (exists e, c w = (Throw e, w') /\ r = Throw e) \/
  (c w = (Diverge, w') /\ r = Diverge).
Proof.
  unfold bind. destruct (c w) as [[a|e|] w1]; intros E.
  - left. eauto.
  - inversion E; subst. right. left. eauto.
  - inversion E; subst. right. right. eauto.
Qed.

Lemma try_inv {A} (c : M A) h w r w' :
  try_catch c h w = (r, w') ->
  (exists a, c w = (Ok a, w') /\ r = Ok a) \/
  (exists e w1, c w = (Throw e, w1) /\ h e w1 = (r, w')) \/
  (c w = (Diverge, w') /\ r = Diverge).
Proof.
  unfold try_catch. destruct (c w) as [[a|e|] w1]; intros E.
  - inversion E; subst. left. eauto.
  - right. left. eauto.
  - inversion E; subst. right. right. eauto.
Qed.

(** ** Parts of the database a computation does not touch *)

Section Keeps.
Context {X : Type}.
Variable f : DB -> X.

Lemma keeps_silent {A} (c : M A) :
  (forall w r w', c w = (r, w') -> db w' = db w) -> keeps f c.
Proof. intros H w r w' E. rewrite (H _ _ _ E). reflexivity. Qed.

Lemma keeps_ret {A} (a : A) : keeps f (ret a).
Proof. apply keeps_silent. intros w r w' E; inversion E; reflexivity. Qed.

Lemma keeps_throw {A} e : keeps f (@throw A e).
Proof. apply keeps_silent. intros w r w' E; inversion E; reflexivity. Qed.

Lemma keeps_diverge {A} : keeps f (@diverge A).
Proof. apply keeps_silent. intros w r w' E; inversion E; reflexivity. Qed.

Lemma keeps_existsSync : keeps f existsSync.
Proof. apply keeps_silent. intros w r w' E; inversion E; reflexivity. Qed.

Lemma keeps_emit e : keeps f (emit e).
Proof. apply keeps_silent. intros w r w' E; inversion E; reflexivity. Qed.

Lemma keeps_external c : keeps f (external c).
Proof.
  apply keeps_silent. intros w r w'. unfold external, bind, emit, next_fault.
  cbn [faults add_log].
  destruct (faults w) as [|[e|] fs]; destruct c; unfold ret; intros E;
    inversion E; subst; try reflexivity;
    match goal with |- context [if ?b then _ else _] => destruct b end; reflexivity.
Qed.

Lemma keeps_db_execute q : sql_keeps f q -> keeps f (db_execute q).
Proof.
  intros H w r w' E. apply db_execute_cases in E.
  destruct E as [(res & _ & E)|(e & _ & E)].
  - exact (H _ _ _ E).
  - rewrite E. reflexivity.
Qed.

Lemma keeps_bind {A B} (c : M A) (k : A -> M B) :
  keeps f c -> (forall a, keeps f (k a)) -> keeps f (bind c k).
Proof.
  intros Hc Hk w r w' E. apply bind_inv in E.
  destruct E as [(a & w1 & E1 & E2)|[(e & E1 & _)|(E1 & _)]].
  - rewrite (Hk _ _ _ _ E2). exact (Hc _ _ _ E1).
  - exact (Hc _ _ _ E1).
  - exact (Hc _ _ _ E1).
Qed.

Lemma keeps_try {A} (c : M A) (h : Error -> M A) :
  keeps f c -> (forall e, keeps f (h e)) -> keeps f (try_catch c h).
Proof.
  intros Hc Hh w r w' E. apply try_inv in E.
  destruct E as [(a & E1 & _)|[(e & w1 & E1 & E2)|(E1 & _)]].
  - exact (Hc _ _ _ E1).
  - rewrite (Hh _ _ _ _ E2). exact (Hc _ _ _ E1).
  - exact (Hc _ _ _ E1).
Qed.

Lemma keeps_for_each {A} (l : list A) (body : A -> M unit) :
  (forall x, keeps f (body x)) -> keeps f (for_each l body).
Proof.
  intros H. induction l as [|x l IH]; simpl.
  - apply keeps_ret.
  - apply keeps_bind; auto.
Qed.

Lemma keeps_when b c : keeps f c -> keeps f (when b c).
Proof. intros H. destruct b; simpl; [exact H | apply keeps_ret]. Qed.

Lemma keeps_year_loop fuel id y m c :
  (forall i z, sql_keeps f (QInsertInvestmentYear i z)) ->
  keeps f (year_loop fuel id y m c).
Proof.
  intros H. revert y. induction fuel as [|fuel IH]; intros y; simpl;
    destruct (y <=? m); try apply keeps_ret; try apply keeps_diverge.
  apply keeps_bind; [apply keeps_db_execute, H | intros _; apply IH].
Qed.

Lemma keeps_populate_one row :
  (forall i z, sql_keeps f (QInsertInvestmentYear i z)) ->
  keeps f (populate_one row).
Proof.
  intros H. unfold populate_one. destruct row; try apply keeps_throw.
  destruct (cyclic_interval i).
  - apply keeps_year_loop, H.
  - apply keeps_bind; [apply keeps_db_execute, H | intros _; apply keeps_ret].
Qed.
End Keeps.

(** Decides [sql_keeps f q] for a statement that does not write [f]. *)
Ltac sql_keeps_tac :=
  let d := fresh "d" in let res := fresh "res" in
  let d' := fresh "d'" in let H := fresh "H" in
  intros d res d' H; cbn [exec_sql] in H;
  unfold create_table, requiring, done, answer in H;
  repeat match type of H with
         | context [if ?b then _ else _] => destruct b
         | context [match ?l with [] => _ | _ :: _ => _ end] => destruct l
         | context [match ?n with O => _ | S _ => _ end] => destruct n
         end;
  inversion H; subst; clear H;
  unfold insert_migration, add_relation, add_columns, drop_columns, create_schema;
  repeat match goal with
         | |- context [if ?b then _ else _] => destruct b
         end;
  reflexivity.

Ltac keeps_step :=
  match goal with
  | |- keeps _ (ret _) => apply keeps_ret
  | |- keeps _ (throw _) => apply keeps_throw
  | |- keeps _ diverge => apply keeps_diverge
  | |- keeps _ existsSync => apply keeps_existsSync
  | |- keeps _ (emit _) => apply keeps_emit
  | |- keeps _ (console_log _) => apply keeps_emit
  | |- keeps _ (console_error _ _) => apply keeps_emit
  | |- keeps _ (enter _) => apply keeps_emit
  | |- keeps _ (external _) => apply keeps_external
  | |- keeps _ (db_execute _) => apply keeps_db_execute; sql_keeps_tac
  | |- keeps _ (bind _ _) => apply keeps_bind; [| intros ?]
  | |- keeps _ (try_catch _ _) => apply keeps_try; [| intros ?]
  | |- keeps _ (for_each _ _) => apply keeps_for_each; intros ?
  | |- keeps _ (when _ _) => apply keeps_when
  | |- keeps _ (rethrow _ _) => unfold rethrow
  | |- keeps _ (hasMigrationRun _) => unfold hasMigrationRun
  | |- keeps _ (markMigrationComplete _) => unfold markMigrationComplete
  | |- keeps _ (populate_one _) => apply keeps_populate_one; intros; sql_keeps_tac
  | |- keeps _ (if ?b then _ else _) => destruct b
  | |- keeps _ (match ?x with _ => _ end) => destruct x
  | |- keeps _ (let _ := _ in _) => cbv zeta
  end.

Ltac keeps_tac := repeat keeps_step.

Lemma hasMigrationRun_keeps_db name w r w' :
  hasMigrationRun name w = (r, w') -> db w' = db w.
Proof.
  intros E. assert (H : keeps (fun d => d) (hasMigrationRun name)) by keeps_tac.
  exact (H _ _ _ E).
Qed.

Lemma bind_enter {B} s (k : unit -> M B) w :
  bind (enter s) k w = k tt (add_log (Enter s) w).
Proof. reflexivity. Qed.

Lemma bind_console_log {B} m (k : unit -> M B) w :
  bind (console_log m) k w = k tt (add_log (Info m) w).
Proof. reflexivity. Qed.

Lemma rethrow_run s e w : rethrow s e w = (Throw e, add_log (Logged (DuringStep s) e) w).
Proof. reflexivity. Qed.

(** What [markMigrationComplete] does to the database. *)
Lemma markMigrationComplete_db name w r w' :
  markMigrationComplete name w = (r, w') ->
  (r = Ok tt /\ has_all ["migration_status"] (db w) = true /\
   db w' = insert_migration name (db w)) \/
  (exists e, r = Throw e /\ db w' = db w).
Proof.
  unfold markMigrationComplete. intros E. apply try_inv in E.
  destruct E as [(a & E & ->)|[(e & w1 & E & Eh)|(E & _)]];
    apply bind_inv in E;
    destruct E as [(res & w2 & E1 & E2)|[(e' & E1 & E2)|(E1 & E2)]];
    try discriminate; try (inversion E2; fail).
  - inversion E2; subst. apply db_execute_cases in E1.
    destruct E1 as [(res' & _ & E1)|(e & He & _)]; [|discriminate].
    left. cbn [exec_sql] in E1. unfold requiring, done in E1.
    destruct (has_all ["migration_status"] (db w)); [|discriminate].
    inversion E1. auto.
  - inversion E2; subst. inversion Eh; subst. right. exists e'. split; [reflexivity|].
    apply db_execute_cases in E1. destruct E1 as [(res' & He & _)|(e & _ & E1)];
      [discriminate | exact E1].
  - apply db_execute_cases in E1. destruct E1 as [(? & ? & _)|(? & ? & _)]; discriminate.
Qed.

Lemma fold_insert_school_empty :
  with_seed_schools [] = seed_schools.
Proof. vm_compute. reflexivity. Qed.

Lemma insert_board_grows acc b :
  exists added, insert_board acc b = acc ++ added /\ incl added [b] /\
                (exists b', In b' (insert_board acc b) /\ board_id b' = board_id b).
Proof.
  unfold insert_board.
  destruct (existsb _ acc) eqn:E.
  - exists []. rewrite app_nil_r. split; [reflexivity|]. split; [intros x []|].
    apply existsb_exists in E. destruct E as (x & Hx & Ex).
    apply String.eqb_eq in Ex. eauto.
  - exists [b]. split; [reflexivity|]. split; [apply incl_refl|].
    exists b. split; [apply in_or_app; right; left|]; reflexivity.
Qed.

Lemma fold_insert_board_spec old :
  exists added,
    with_seed_boards old = old ++ added /\
    incl added seed_boards /\
    forall b, In b seed_boards ->
              exists b', In b' (with_seed_boards old) /\
                         board_id b' = board_id b.
Proof.
  unfold with_seed_boards, seed_boards. cbn [fold_left].
  destruct (insert_board_grows old (mkBoard hervormde_scholen "Hervormde Scholen"))
    as (a1 & E1 & I1 & (x1 & Hx1 & Hid1)).
  destruct (insert_board_grows (insert_board old (mkBoard hervormde_scholen "Hervormde Scholen"))
                               (mkBoard vpco "VPCO"))
    as (a2 & E2 & I2 & (x2 & Hx2 & Hid2)).
  exists (a1 ++ a2). rewrite E2, E1, <- app_assoc. split; [reflexivity|]. split.
  - intros x Hx. apply in_app_or in Hx. destruct Hx as [Hx|Hx].
    + apply I1 in Hx. destruct Hx as [<-|[]]. left. reflexivity.
    + apply I2 in Hx. destruct Hx as [<-|[]]. right. left. reflexivity.
  - intros b [<-|[<-|[]]].
    + exists x1. split; [|exact Hid1]. rewrite E1 in Hx1.
      rewrite app_assoc. apply in_or_app. left. exact Hx1.
    + exists x2. split; [|exact Hid2]. rewrite E2, E1, <- app_assoc in Hx2. exact Hx2.
Qed.

(** ** Seeding of the boards and schools *)

Lemma count_schools_result w res w1 :
  db_execute QCountSchools w = (Ok res, w1) ->
  db w1 = db w /\
  first_count res = Some (Z.of_nat (List.length (schools (db w)))).
Proof.
  intros E. apply db_execute_cases in E.
  destruct E as [(res' & Hr & E)|(e & Hr & _)]; [|discriminate].
  inversion Hr; subst res'. cbn [exec_sql] in E. unfold requiring, answer in E.
  destruct (has_all ["schools"] (db w)); [|discriminate].
  inversion E. auto.
Qed.

Lemma schools_insert_migration n d : schools (insert_migration n d) = schools d.
Proof. reflexivity. Qed.

Lemma boards_insert_migration n d : boards (insert_migration n d) = boards d.
Proof. reflexivity. Qed.

Lemma seed_with_schools w r w' :
  seedSchoolsAndBoards w = (r, w') -> schools (db w) <> [] ->
  boards (db w') = boards (db w) /\ schools (db w') = schools (db w) /\
  (r = Ok tt -> db w' = insert_migration "seed_schools_and_boards" (db w)).
Proof.
  intros E Hne. unfold seedSchoolsAndBoards in E. cbv zeta in E.
  rewrite bind_enter in E.
  assert (Hpos : (0 <? Z.of_nat (List.length (schools (db w)))) = true).
  { apply Z.ltb_lt. destruct (schools (db w)); [congruence | simpl; lia]. }
  assert (Hk : forall res w1 r1 w2,
             db_execute QCountSchools (add_log (Enter SeedSchoolsAndBoards) w) = (Ok res, w1) ->
             (if match first_count res with Some n => 0 <? n | None => false end
              then console_log SchoolsAlreadyExist ;;
                   markMigrationComplete "seed_schools_and_boards"
              else db_execute QInsertBoards ;; db_execute QInsertSchools ;;
                   markMigrationComplete "seed_schools_and_boards" ;;
                   console_log (Completed SeedSchoolsAndBoards)) w1 = (r1, w2) ->
             (r1 = Ok tt /\ db w2 = insert_migration "seed_schools_and_boards" (db w)) \/
             (exists e, r1 = Throw e /\ db w2 = db w)).
  { intros res w1 r1 w2 Ec Ek. apply count_schools_result in Ec.
    destruct Ec as [Hdb Hc]. cbn [db add_log] in Hdb, Hc.
    rewrite Hc, Hpos in Ek. rewrite bind_console_log in Ek.
    apply markMigrationComplete_db in Ek. cbn [db add_log] in Ek.
    rewrite Hdb in Ek. destruct Ek as [(-> & _ & Ek)|(e & -> & Ek)]; eauto. }
  assert (Hres : (r = Ok tt /\ db w' = insert_migration "seed_schools_and_boards" (db w)) \/
                 (exists e, r = Throw e /\ db w' = db w)).
  { apply try_inv in E. destruct E as [(a & E & ->)|[(e & w1 & E & Eh)|(E & ->)]];
      apply bind_inv in E;
      destruct E as [(res & w2 & E1 & E2)|[(e' & E1 & E2)|(E1 & E2)]];
      try discriminate.
    - destruct (Hk _ _ _ _ E1 E2) as [(Hr & Hd)|(e & Hr & _)]; [|discriminate].
      left. destruct a. auto.
    - rewrite rethrow_run in Eh. inversion Eh; subst. right. exists e. split; [reflexivity|].
      destruct (Hk _ _ _ _ E1 E2) as [(Hr & _)|(? & _ & Hd)]; [discriminate|exact Hd].
    - rewrite rethrow_run in Eh. inversion Eh; subst. right. exists e. split; [reflexivity|].
      apply db_execute_cases in E1. destruct E1 as [(? & ? & _)|(? & _ & Hd)];
        [discriminate | exact Hd].
    - destruct (Hk _ _ _ _ E1 E2) as [(? & _)|(? & ? & _)]; discriminate.
    - apply db_execute_cases in E1. destruct E1 as [(? & ? & _)|(? & ? & _)]; discriminate. }
  destruct Hres as [(-> & Hd)|(e & -> & Hd)]; rewrite Hd.
  - rewrite boards_insert_migration, schools_insert_migration. auto.
  - repeat split; auto. discriminate.
Qed.

Lemma exec_insert_boards d res d' :
  exec_sql QInsertBoards d = inr (res, d') ->
  d' = set_boards (with_seed_boards (boards d)) d.
Proof.
  cbn [exec_sql]. unfold requiring, done. destruct (has_all _ d); intros H;
    inversion H; reflexivity.
Qed.

Lemma exec_insert_schools d res d' :
  exec_sql QInsertSchools d = inr (res, d') ->
  d' = set_schools (with_seed_schools (schools d)) d.
Proof.
  cbn [exec_sql]. unfold requiring, done. destruct (has_all _ d); intros H;
    inversion H; reflexivity.
Qed.

Lemma seed_without_schools w w' :
  seedSchoolsAndBoards w = (Ok tt, w') -> schools (db w) = [] ->
  db w' = insert_migration "seed_schools_and_boards"
            (set_schools seed_schools
               (set_boards (with_seed_boards (boards (db w))) (db w))).
Proof.
  intros E Hempty. unfold seedSchoolsAndBoards in E. cbv zeta in E.
  rewrite bind_enter in E.
  apply try_inv in E. destruct E as [(a & E & _)|[(e & w1 & E & Eh)|(E & ?)]];
    [| rewrite rethrow_run in Eh; discriminate | discriminate].
  apply bind_inv in E.
  destruct E as [(res & w1 & E1 & E)|[(e' & E1 & E2)|(E1 & E2)]]; try discriminate.
  apply count_schools_result in E1. destruct E1 as [Hdb1 Hc]. cbn [db add_log] in Hdb1, Hc.
  rewrite Hc, Hempty in E. cbn [List.length Z.of_nat Z.ltb Z.compare] in E.
  apply bind_inv in E.
  destruct E as [(res2 & w2 & E2 & E)|[(e' & E2 & ?)|(E2 & ?)]]; try discriminate.
  apply bind_inv in E.
  destruct E as [(res3 & w3 & E3 & E)|[(e' & E3 & ?)|(E3 & ?)]]; try discriminate.
  apply bind_inv in E.
  destruct E as [(res4 & w4 & E4 & E)|[(e' & E4 & ?)|(E4 & ?)]]; try discriminate.
  inversion E; subst. cbn [db add_log].
  apply markMigrationComplete_db in E4.
  destruct E4 as [(_ & _ & E4)|(e & ? & _)]; [|discriminate].
  apply db_execute_cases in E2. destruct E2 as [(? & _ & E2)|(? & ? & _)]; [|discriminate].
  apply db_execute_cases in E3. destruct E3 as [(? & _ & E3)|(? & ? & _)]; [|discriminate].
  apply exec_insert_boards in E2. apply exec_insert_schools in E3.
  rewrite E4, E3, E2.
  change (schools (set_boards ?x ?d)) with (schools d).
  rewrite Hdb1, Hempty, fold_insert_school_empty. reflexivity.
Qed.

(** C9. seedSchoolsAndBoards inserts its reference rows, two boards and nine
    schools, only when the schools table is empty. When a school exists,
    boards and schools stay as they are whatever happens, and a normal return
    has only recorded the migration. When no school exists, a normal return
    has made the schools table the nine reference rows and has added to
    boards the reference boards whose ids were not there. *)
Theorem seed_only_when_empty :
  List.length seed_boards = 2%nat /\ List.length seed_schools = 9%nat /\
  (forall w r w',
      seedSchoolsAndBoards w = (r, w') -> schools (db w) <> [] ->
      boards (db w') = boards (db w) /\ schools (db w') = schools (db w) /\
      (r = Ok tt -> db w' = insert_migration "seed_schools_and_boards" (db w))) /\
  (forall w w',
      seedSchoolsAndBoards w = (Ok tt, w') -> schools (db w) = [] ->
      schools (db w') = seed_schools /\
      (exists added, boards (db w') = boards (db w) ++ added /\
                     incl added seed_boards) /\
      (forall b, In b seed_boards ->
                 exists b', In b' (boards (db w')) /\ board_id b' = board_id b) /\
      (boards (db w) = [] -> boards (db w') = seed_boards)).
Proof.
  split; [reflexivity|]. split; [reflexivity|]. split; [exact seed_with_schools|].
  intros w w' E Hempty. rewrite (seed_without_schools _ _ E Hempty).
  rewrite schools_insert_migration, boards_insert_migration. cbn [schools boards set_schools set_boards].
  destruct (fold_insert_board_spec (boards (db w))) as (added & Ha & Hi & Hall).
  split; [reflexivity|]. split; [eauto|]. split; [exact Hall|].
  intros Hb. rewrite Hb. vm_compute. reflexivity.
Qed.

Lemma seed_only_when_empty_witness :
  schools (db (snd (seedSchoolsAndBoards no_schools))) = seed_schools /\
  schools (db (snd (seedSchoolsAndBoards one_school))) = schools (db one_school).
Proof.
  destruct seed_only_when_empty as (_ & _ & H1 & H2). split.
  - apply (H2 no_schools (snd (seedSchoolsAndBoards no_schools)));
      vm_compute; reflexivity.
  - apply (H1 one_school (fst (seedSchoolsAndBoards one_school))
              (snd (seedSchoolsAndBoards one_school)));
      [vm_compute; reflexivity | discriminate].
Defined.

(** ** Recalculation of the spent amounts *)

Lemma recalculated_history_cost d bc :
  recalculated d bc = history_cost (maintenance_history d) bc.
Proof.
  unfold recalculated, history_cost, matching_costs.
  assert (H : forall l, COALESCE (sum_cost l) 0
                        = fold_right (fun mh acc => cost_or_zero mh + acc) 0 l)
    by (intros [|x l]; reflexivity).
  rewrite H. induction (maintenance_history d) as [|mh l IH]; [reflexivity|].
  cbn [filter flat_map]. unfold matches at 1, same_ignoring_case at 1.
  destruct (mh_category mh) as [c|] eqn:Ec; [|exact IH].
  destruct (cost mh) as [z|] eqn:Ez; [|exact IH].
  destruct (String.eqb (LOWER c) (LOWER (bc_name bc)) && String.eqb (mh_school mh) (bc_school bc))%bool.
  - cbn [fold_right app]. unfold cost_or_zero at 1. rewrite Ez, IH. reflexivity.
  - exact IH.
Qed.

Lemma history_cost_set_spent h z bc :
  history_cost h (set_spent z bc) = history_cost h bc.
Proof. reflexivity. Qed.

Lemma exec_reset_spent d res d' :
  exec_sql QResetSpent d = inr (res, d') ->
  d' = set_budget_categories (map (set_spent 0) (budget_categories d)) d.
Proof.
  cbn [exec_sql]. unfold requiring, done. destruct (has_all _ d); intros H;
    inversion H; reflexivity.
Qed.

Lemma exec_recalc_spent d res d' :
  exec_sql QRecalcSpent d = inr (res, d') ->
  d' = set_budget_categories
         (map (fun bc => set_spent (recalculated d bc) bc) (budget_categories d)) d
  /\ forallb (fun bc => in_int4 (recalculated d bc)) (budget_categories d) = true.
Proof.
  cbn [exec_sql]. unfold requiring, done. destruct (has_all _ d); [|discriminate].
  destruct (forallb _ (budget_categories d)); intros H; inversion H; auto.
Qed.

Lemma hasMigrationRun_outcome name w r w' :
  hasMigrationRun name w = (r, w') ->
  exists ran new, r = Ok ran /\ db w' = db w /\ log w' = log w ++ new /\
                  forallb not_already_completed new = true.
Proof.
  intros E.
  assert (Hl : emits not_already_completed (hasMigrationRun name)) by emits_tac.
  destruct (Hl _ _ _ E) as (new & Hlog & Hq).
  pose proof (hasMigrationRun_keeps_db _ _ _ _ E) as Hdb.
  unfold hasMigrationRun in E. apply try_inv in E.
  destruct E as [(a & _ & ->)|[(e & w1 & _ & Eh)|(E & ->)]].
  - eauto 8.
  - inversion Eh; subst. eauto 8.
  - apply bind_inv in E. destruct E as [(? & ? & _ & E)|[(? & _ & ?)|(E & _)]];
      try discriminate.
    apply db_execute_cases in E. destruct E as [(? & ? & _)|(? & ? & _)]; discriminate.
Qed.

Lemma budget_categories_insert_migration n d :
  budget_categories (insert_migration n d) = budget_categories d.
Proof. reflexivity. Qed.

Lemma maintenance_history_insert_migration n d :
  maintenance_history (insert_migration n d) = maintenance_history d.
Proof. reflexivity. Qed.



(** ** Assignment of users to schools *)

Lemma leb_iff a b : String.leb a b = true <-> String_as_OT.lt a b \/ a = b.
Proof.
  unfold String.leb. destruct (String.compare a b) eqn:E.
  - apply String_as_OT.cmp_eq in E. tauto.
  - apply String_as_OT.cmp_lt in E. tauto.
  - split; [discriminate|]. intros [H| ->].
    + apply String_as_OT.cmp_lt in H. unfold String_as_OT.cmp in H. congruence.
    + assert (H : String.compare b b = Eq) by (apply String_as_OT.cmp_eq; reflexivity).
      congruence.
Qed.

Lemma leb_refl a : String.leb a a = true.
Proof. apply leb_iff. auto. Qed.

Lemma leb_trans a b c :
  String.leb a b = true -> String.leb b c = true -> String.leb a c = true.
Proof.
  rewrite !leb_iff. intros [H1| ->] [H2| ->]; auto.
  left. eapply String_as_OT.lt_trans; eassumption.
Qed.

Lemma insert_by_name_perm s l : Permutation (s :: l) (insert_by_name s l).
Proof.
  induction l as [|x l IH]; simpl.
  - apply Permutation_refl.
  - destruct (String.leb (school_name s) (school_name x)).
    + apply Permutation_refl.
    + eapply Permutation_trans; [apply perm_swap|]. apply perm_skip, IH.
Qed.

Lemma sort_by_name_perm l : Permutation l (sort_by_name l).
Proof.
  induction l as [|x l IH]; simpl.
  - apply Permutation_refl.
  - eapply Permutation_trans; [apply perm_skip, IH | apply insert_by_name_perm].
Qed.

(** The first school in the order of names is no later than any other. *)
Lemma sort_by_name_first l s0 r :
  sort_by_name l = s0 :: r ->
  forall x, In x l -> String.leb (school_name s0) (school_name x) = true.
Proof.
  revert s0 r. induction l as [|a l IH]; intros s0 r E x Hin; [destruct Hin|].
  simpl in E. destruct (sort_by_name l) as [|h t] eqn:Es.
  - simpl in E. inversion E; subst.
    assert (l = []) as ->.
    { apply Permutation_nil. apply Permutation_sym. rewrite <- Es. apply sort_by_name_perm. }
    destruct Hin as [<-|[]]. apply leb_refl.
  - simpl in E. destruct (String.leb (school_name a) (school_name h)) eqn:El;
      inversion E; subst.
    + destruct Hin as [<-|Hin]; [apply leb_refl|].
      eapply leb_trans; [exact El|]. eapply IH; [reflexivity | exact Hin].
    + destruct Hin as [<-|Hin].
      * destruct (String.leb_total (school_name s0) (school_name a)); congruence.
      * eapply IH; [reflexivity | exact Hin].
Qed.

Lemma flag_first_user u l r : In r (flag_first u l) -> us_user r = user_id u.
Proof.
  destruct l as [|s l]; simpl; [tauto|].
  intros [<-|H]; [reflexivity|].
  apply in_map_iff in H. destruct H as (x & <- & _). reflexivity.
Qed.

Lemma flag_first_school u l s :
  In s l -> exists r, In r (flag_first u l) /\ us_school r = school_id s.
Proof.
  destruct l as [|s0 l]; simpl; [tauto|].
  intros [<-|H].
  - eexists. split; [left; reflexivity | reflexivity].
  - eexists. split; [right; apply in_map; exact H | reflexivity].
Qed.

Lemma flag_first_default u s0 l :
  filter is_default (flag_first u (s0 :: l))
  = [mkUserSchool (user_id u) (school_id s0) true].
Proof.
  simpl. f_equal. induction l as [|x l IH]; simpl; auto.
Qed.

Lemma filter_none {A} (p : A -> bool) l :
  (forall x, In x l -> p x = false) -> filter p l = [].
Proof.
  induction l as [|x l IH]; simpl; intros H; [reflexivity|].
  rewrite (H x (or_introl eq_refl)). apply IH. intros y Hy. apply H. right. exact Hy.
Qed.

Lemma filter_all {A} (p : A -> bool) l :
  (forall x, In x l -> p x = true) -> filter p l = l.
Proof.
  induction l as [|x l IH]; simpl; intros H; [reflexivity|].
  rewrite (H x (or_introl eq_refl)). f_equal. apply IH. intros y Hy. apply H. right. exact Hy.
Qed.

(** Among the new links, those of a user are the ones made for that user. *)
Lemma new_assignments_of d u l :
  NoDup (map user_id l) -> In u l ->
  filter (fun r => String.eqb (us_user r) (user_id u)) (flat_map (assignments_for d) l)
  = assignments_for d u.
Proof.
  induction l as [|a l IH]; intros Hnd Hin; [destruct Hin|].
  simpl in Hnd. inversion Hnd as [|? ? Hna Hnd']; subst.
  cbn [flat_map]. rewrite filter_app. destruct Hin as [->|Hin].
  - rewrite filter_all.
    + rewrite filter_none; [apply app_nil_r|].
      intros r Hr. apply in_flat_map in Hr. destruct Hr as (u' & Hu' & Hr).
      apply flag_first_user in Hr. rewrite Hr. apply String.eqb_neq.
      intros Heq. apply Hna. rewrite <- Heq. apply in_map. exact Hu'.
    + intros r Hr. apply flag_first_user in Hr. rewrite Hr. apply String.eqb_refl.
  - rewrite filter_none.
    + apply IH; assumption.
    + intros r Hr. apply flag_first_user in Hr. rewrite Hr. apply String.eqb_neq.
      intros Heq. apply Hna. rewrite Heq. apply in_map. exact Hin.
Qed.

Lemma orphaned_not_linked d u s : orphaned d u = true -> linked d u s = false.
Proof.
  unfold orphaned, has_assignment, linked. intros H.
  apply negb_true_iff in H. apply not_true_is_false. intros Hl. 
  apply existsb_exists in Hl. destruct Hl as (r & Hr & Hb).
  apply andb_true_iff in Hb. destruct Hb as [Hb _].
  assert (Ht : existsb (fun us => String.eqb (us_user us) (user_id u)) (user_schools d) = true)
    by (apply existsb_exists; eauto).
  congruence.
Qed.

Lemma orphaned_rows d u : orphaned d u = true -> rows_of d u = [].
Proof.
  unfold orphaned, has_assignment, rows_of. intros H. apply negb_true_iff in H.
  apply filter_none. intros r Hr. apply not_true_is_false. intros Hb.
  assert (Ht : existsb (fun us => String.eqb (us_user us) (user_id u)) (user_schools d) = true)
    by (apply existsb_exists; eauto).
  congruence.
Qed.

(** The links an orphaned user gets: one per school, in the order of the
    school names, the first one the default. *)
Lemma assignments_for_orphan d u :
  orphaned d u = true ->
  assignments_for d u = flag_first u (sort_by_name (schools d)).
Proof.
  intros H. unfold assignments_for. rewrite filter_all; [reflexivity|].
  intros s _. rewrite (orphaned_not_linked d u s H). reflexivity.
Qed.

Lemma exec_count_users d res d' :
  exec_sql QCountUsers d = inr (res, d') ->
  d' = d /\ count_or_zero res = Z.of_nat (List.length (users d)).
Proof.
  cbn [exec_sql]. unfold requiring, answer. destruct (has_all _ d); intros H;
    inversion H; auto.
Qed.

Lemma exec_count_orphaned d res d' :
  exec_sql QCountOrphanedUsers d = inr (res, d') ->
  d' = d /\ count_or_zero res = Z.of_nat (List.length (filter (orphaned d) (users d))).
Proof.
  cbn [exec_sql]. unfold requiring, answer. destruct (has_all _ d); intros H;
    inversion H; auto.
Qed.

Lemma exec_insert_user_schools d res d' :
  exec_sql QInsertUserSchools d = inr (res, d') ->
  users d' = users d /\ schools d' = schools d /\
  user_schools d' = user_schools d ++ new_assignments d.
Proof.
  cbn [exec_sql]. unfold requiring, done. destruct (has_all _ d); [|discriminate].
  destruct (new_assignments d) eqn:E; intros H; inversion H; subst;
    cbn [users schools user_schools set_user_schools]; rewrite ?app_nil_r; auto.
Qed.

Lemma assign_effect w w' :
  assignUsersToSchools w = (Ok tt, w') ->
  (exists u, In u (users (db w)) /\ orphaned (db w) u = true) ->
  users (db w') = users (db w) /\ schools (db w') = schools (db w) /\
  user_schools (db w') = user_schools (db w) ++ new_assignments (db w).
Proof.
  intros E (u & Hu & Ho). unfold assignUsersToSchools in E.
  rewrite bind_enter in E.
  apply try_inv in E. destruct E as [(a & E & _)|[(e & w1 & E & Eh)|(E & ?)]];
    [| rewrite rethrow_run in Eh; discriminate | discriminate].
  apply bind_inv in E.
  destruct E as [(res1 & w1 & E1 & E)|[(e' & E1 & ?)|(E1 & ?)]]; try discriminate.
  apply db_execute_cases in E1. destruct E1 as [(? & Hr & E1)|(? & ? & _)]; [|discriminate].
  inversion Hr; subst x. apply exec_count_users in E1. cbn [db add_log] in E1.
  destruct E1 as [Hd1 Hc1]. cbv zeta in E. rewrite Hc1 in E.
  assert (Hn1 : (Z.of_nat (List.length (users (db w))) =? 0) = false).
  { apply Z.eqb_neq. destruct (users (db w)); [destruct Hu | simpl; lia]. }
  rewrite Hn1 in E.
  apply bind_inv in E.
  destruct E as [(res2 & w2 & E2 & E)|[(e' & E2 & ?)|(E2 & ?)]]; try discriminate.
  apply db_execute_cases in E2. destruct E2 as [(? & Hr2 & E2)|(? & ? & _)]; [|discriminate].
  inversion Hr2; subst x. apply exec_count_orphaned in E2.
  destruct E2 as [Hd2 Hc2]. rewrite Hc2, Hd1 in E.
  assert (Hn2 : (Z.of_nat (List.length (filter (orphaned (db w)) (users (db w)))) =? 0) = false).
  { apply Z.eqb_neq.
    assert (Hin : In u (filter (orphaned (db w)) (users (db w))))
      by (apply filter_In; auto).
    destruct (filter (orphaned (db w)) (users (db w))); [destruct Hin | simpl; lia]. }
  rewrite Hn2 in E.
  apply bind_inv in E.
  destruct E as [(res3 & w3 & E3 & E)|[(e' & E3 & ?)|(E3 & ?)]]; try discriminate.
  apply db_execute_cases in E3. destruct E3 as [(? & _ & E3)|(? & ? & _)]; [|discriminate].
  apply exec_insert_user_schools in E3. rewrite Hd2, Hd1 in E3.
  inversion E; subst. exact E3.
Qed.

(** What assignUsersToSchools gives an orphaned user when there is a school. *)
Lemma assign_links_orphans w w' :
  assignUsersToSchools w = (Ok tt, w') ->
  NoDup (map user_id (users (db w))) ->
  schools (db w) <> [] ->
  forall u, In u (users (db w)) -> orphaned (db w) u = true ->
    (forall s, In s (schools (db w')) ->
               exists r, In r (rows_of (db w') u) /\ us_school r = school_id s) /\
    (exists r0 s0,
        filter is_default (rows_of (db w') u) = [r0] /\
        In s0 (schools (db w')) /\ us_school r0 = school_id s0 /\
        forall s, In s (schools (db w')) ->
                  String.leb (school_name s0) (school_name s) = true).
Proof.
  intros E Hnd Hne u Hu Ho.
  destruct (assign_effect _ _ E (ex_intro _ u (conj Hu Ho))) as (_ & Hs & Hus).
  assert (Hrows : rows_of (db w') u = flag_first u (sort_by_name (schools (db w)))).
  { unfold rows_of. rewrite Hus, filter_app.
    fold (rows_of (db w) u). rewrite (orphaned_rows _ _ Ho). cbn [app].
    unfold new_assignments. rewrite new_assignments_of by assumption.
    apply assignments_for_orphan, Ho. }
  rewrite Hrows, Hs. split.
  - intros s Hin. apply flag_first_school.
    eapply Permutation_in; [apply sort_by_name_perm | exact Hin].
  - destruct (sort_by_name (schools (db w))) as [|s0 rest] eqn:Es.
    + exfalso. apply Hne. apply Permutation_nil. apply Permutation_sym.
      rewrite <- Es. apply sort_by_name_perm.
    + exists (mkUserSchool (user_id u) (school_id s0) true), s0.
      split; [apply flag_first_default|]. split.
      * eapply Permutation_in; [apply Permutation_sym, sort_by_name_perm|].
        rewrite Es. left. reflexivity.
      * split; [reflexivity|]. apply (sort_by_name_first _ _ _ Es).
Qed.

Lemma seed_leaves_schools w w' :
  seedSchoolsAndBoards w = (Ok tt, w') -> schools (db w') <> [].
Proof.
  intros E. destruct (schools (db w)) as [|s l] eqn:Es.
  - rewrite (seed_without_schools _ _ E Es), schools_insert_migration.
    cbn [schools set_schools]. discriminate.
  - destruct (seed_with_schools _ _ _ E) as (_ & Hs & _); [rewrite Es; discriminate|].
    rewrite Hs, Es. discriminate.
Qed.

Lemma admin_seed_keeps_schools : keeps schools seedHardcodedAdminUser.
Proof. unfold seedHardcodedAdminUser. keeps_tac. Qed.



(** ** Runs without faults *)

Lemma returns_ret {A} (a : A) w : faults w = [] -> returns (ret a) w a (db w).
Proof. intros H. exists w. auto. Qed.

Lemma returns_emit e w : faults w = [] -> returns (emit e) w tt (db w).
Proof. intros H. exists (add_log e w). auto. Qed.

Lemma returns_bind {A B} (c : M A) (k : A -> M B) w a d1 b d2 :
  returns c w a d1 ->
  (forall w1, faults w1 = [] -> db w1 = d1 -> returns (k a) w1 b d2) ->
  returns (bind c k) w b d2.
Proof.
  intros (w1 & E1 & Hf1 & Hd1) Hk.
  destruct (Hk w1 Hf1 Hd1) as (w2 & E2 & Hf2 & Hd2).
  exists w2. erewrite bind_Ok by exact E1. auto.
Qed.

Lemma returns_try {A} (c : M A) h w a d :
  returns c w a d -> returns (try_catch c h) w a d.
Proof.
  intros (w1 & E1 & Hf1 & Hd1). exists w1. erewrite try_Ok by exact E1. auto.
Qed.

Lemma returns_db_execute q w res d :
  faults w = [] -> exec_sql q (db w) = inr (res, d) ->
  returns (db_execute q) w res d.
Proof.
  intros Hf E. exists (set_db d (add_log (Exec q) w)).
  rewrite db_execute_clean by exact Hf. rewrite E. auto.
Qed.

Lemma returns_hasMigrationRun name w :
  faults w = [] -> mem "migration_status" (relations (db w)) = true ->
  returns (hasMigrationRun name) w (mem name (migration_status (db w))) (db w).
Proof.
  intros Hf Hm. unfold hasMigrationRun. apply returns_try.
  eapply returns_bind.
  - apply returns_db_execute; [exact Hf|]. cbn [exec_sql].
    unfold requiring, has_all. cbn [forallb]. rewrite Hm. reflexivity.
  - intros w1 Hf1 Hd1. cbv beta.
    replace (Nat.ltb 0 (List.length (rows (some_rows (if mem name (migration_status (db w)) then [RowOne] else [])))))
      with (mem name (migration_status (db w)))
      by (destruct (mem name (migration_status (db w))); reflexivity).
    rewrite <- Hd1. apply returns_ret, Hf1.
Qed.

Lemma returns_markMigrationComplete name w :
  faults w = [] -> mem "migration_status" (relations (db w)) = true ->
  returns (markMigrationComplete name) w tt (insert_migration name (db w)).
Proof.
  intros Hf Hm. unfold markMigrationComplete. apply returns_try.
  eapply returns_bind.
  - apply returns_db_execute; [exact Hf|]. cbn [exec_sql].
    unfold requiring, has_all. cbn [forallb]. rewrite Hm. reflexivity.
  - intros w1 Hf1 Hd1. rewrite <- Hd1. apply returns_ret, Hf1.
Qed.

(** ** The investment years *)

Definition year_rows (id : string) (l : list Z) : list InvestmentYear :=
  map (fun y => mkInvestmentYear id y 0) l.

Lemma set_investment_years_same d :
  set_investment_years (investment_years d ++ []) d = d.
Proof. destruct d. unfold set_investment_years. cbn. rewrite app_nil_r. reflexivity. Qed.

Lemma has_year_false d id y :
  (forall r, In r (investment_years d) -> iy_investment r = id -> iy_year r <> y) ->
  has_year d id y = false.
Proof.
  intros H. unfold has_year. apply not_true_is_false. intros Hb.
  apply existsb_exists in Hb. destruct Hb as (r & Hr & Hb).
  apply andb_true_iff in Hb. destruct Hb as [H1 H2].
  apply String.eqb_eq in H1. apply Z.eqb_eq in H2. exact (H r Hr H1 H2).
Qed.

(** Without faults and without conflicting rows, the loop inserts one row per
    year it visits. *)
Lemma year_loop_returns id maxYear c fuel :
  forall y l w,
    loop_years fuel y maxYear c = Some l ->
    faults w = [] ->
    mem "investment_years" (relations (db w)) = true ->
    NoDup l ->
    (forall r, In r (investment_years (db w)) -> iy_investment r = id ->
               ~ In (iy_year r) l) ->
    returns (year_loop fuel id y maxYear c) w tt
            (set_investment_years (investment_years (db w) ++ year_rows id l) (db w)).
Proof.
  induction fuel as [|fuel IH]; intros y l w Hl Hf Hm Hnd Hfree; simpl in Hl |- *;
    destruct (y <=? maxYear); try discriminate.
  - inversion Hl; subst. cbn [year_rows map]. rewrite set_investment_years_same.
    apply returns_ret, Hf.
  - destruct (loop_years fuel (y + c) maxYear c) as [l'|] eqn:El; [|discriminate].
    inversion Hl; subst. inversion Hnd as [|? ? Hy Hnd']; subst.
    eapply returns_bind.
    + apply returns_db_execute; [exact Hf|]. cbn [exec_sql].
      unfold requiring, has_all. cbn [forallb]. rewrite Hm. cbn [andb].
      rewrite has_year_false; [reflexivity|].
      intros r Hr Hid Heq. apply (Hfree r Hr Hid). left. auto.
    + intros w1 Hf1 Hd1. cbv beta.
      replace (set_investment_years (investment_years (db w) ++ year_rows id (y :: l')) (db w))
        with (set_investment_years (investment_years (db w1) ++ year_rows id l') (db w1)).
      * apply IH; auto.
        -- rewrite Hd1. exact Hm.
        -- rewrite Hd1. cbn [investment_years set_investment_years].
           intros r Hr Hid Hin. apply in_app_or in Hr. destruct Hr as [Hr|[<-|[]]].
           ++ apply (Hfree r Hr Hid). right. exact Hin.
           ++ cbn in Hin. auto.
      * rewrite Hd1. unfold set_investment_years. cbn. rewrite <- app_assoc. reflexivity.
  - inversion Hl; subst. cbn [year_rows map]. rewrite set_investment_years_same.
    apply returns_ret, Hf.
Qed.

(** With a positive interval the loop visits the planned cycle of years,
    within 31 iterations. *)
Lemma loop_years_count c maxYear :
  0 < c ->
  forall n fuel y,
    (n <= fuel)%nat ->
    maxYear < y + Z.of_nat n * c ->
    (n <> O -> y + (Z.of_nat n - 1) * c <= maxYear) ->
    loop_years fuel y maxYear c
    = Some (map (fun k => y + Z.of_nat k * c) (seq 0 n)).
Proof.
  intros Hc. induction n as [|n IH]; intros fuel y Hfuel Hgt Hle.
  - assert (Hy : (y <=? maxYear) = false) by (apply Z.leb_gt; lia).
    destruct fuel; simpl; rewrite Hy; reflexivity.
  - destruct fuel as [|fuel]; [lia|].
    assert (Hy : (y <=? maxYear) = true).
    { apply Z.leb_le. specialize (Hle ltac:(discriminate)). nia. }
    simpl loop_years. rewrite Hy.
    rewrite (IH fuel (y + c)); [| lia | lia | intros Hn; specialize (Hle ltac:(discriminate)); lia].
    cbn [seq map]. f_equal. f_equal; [lia|].
    rewrite <- seq_shift, map_map. apply map_ext. intros k. lia.
Qed.

Lemma loop_years_planned y c :
  0 < c -> loop_years year_fuel y (y + 30) c = Some (cycle_of_years y c).
Proof.
  intros Hc. unfold cycle_of_years. apply loop_years_count; [exact Hc | | | ].
  - unfold year_fuel.
    assert (30 / c <= 30) by (apply Z.div_le_upper_bound; lia).
    assert (0 <= 30 / c) by (apply Z.div_pos; lia). lia.
  - assert (0 <= 30 / c) by (apply Z.div_pos; lia).
    rewrite Nat2Z.inj_succ, Z2Nat.id by assumption.
    pose proof (Z.mul_succ_div_gt 30 c Hc). lia.
  - intros _. assert (0 <= 30 / c) by (apply Z.div_pos; lia).
    rewrite Nat2Z.inj_succ, Z2Nat.id by assumption.
    pose proof (Z.mul_div_le 30 c Hc). lia.
Qed.

Lemma cycle_of_years_NoDup y c : 0 < c -> NoDup (cycle_of_years y c).
Proof.
  intros Hc. unfold cycle_of_years.
  apply Finite.Injective_map_NoDup; [|apply seq_NoDup].
  intros a b H. nia.
Qed.

Lemma planned_years_interval i :
  planned_years i = match cyclic_interval i with
                    | Some c => cycle_of_years (start_year i) c
                    | None => [start_year i]
                    end.
Proof.
  unfold planned_years, cyclic_interval.
  destruct (is_cyclic i); [|reflexivity].
  destruct (cycle_years i) as [c|]; [|reflexivity].
  destruct (c =? 0); reflexivity.
Qed.

Lemma cyclic_interval_Some i c :
  cyclic_interval i = Some c ->
  is_cyclic i = true /\ cycle_years i = Some c /\ c <> 0.
Proof.
  unfold cyclic_interval. destruct (is_cyclic i); [|discriminate].
  destruct (cycle_years i) as [c'|]; [|discriminate].
  destruct (c' =? 0) eqn:E; [discriminate|].
  intros H; inversion H; subst. apply Z.eqb_neq in E. auto.
Qed.

(** One investment without year rows gets its planned rows. *)
Lemma populate_one_returns i w :
  faults w = [] ->
  mem "investment_years" (relations (db w)) = true ->
  (forall r, In r (investment_years (db w)) -> iy_investment r <> inv_id i) ->
  (forall c, cyclic_interval i = Some c -> 0 < c) ->
  returns (populate_one (RowInvestment i)) w tt
          (set_investment_years (investment_years (db w) ++ planned_rows i) (db w)).
Proof.
  intros Hf Hm Hfree Hpos. unfold populate_one, planned_rows.
  rewrite planned_years_interval.
  destruct (cyclic_interval i) as [c|] eqn:Ec.
  - specialize (Hpos c eq_refl).
    apply year_loop_returns; auto.
    + apply loop_years_planned, Hpos.
    + apply cycle_of_years_NoDup, Hpos.
    + intros r Hr Hid. exfalso. exact (Hfree r Hr Hid).
  - cbn [map]. eapply returns_bind.
    + apply returns_db_execute; [exact Hf|]. cbn [exec_sql].
      unfold requiring, has_all. cbn [forallb]. rewrite Hm. cbn [andb].
      rewrite has_year_false; [reflexivity|].
      intros r Hr Hid. exfalso. exact (Hfree r Hr Hid).
    + intros w1 Hf1 Hd1. rewrite <- Hd1. apply returns_ret, Hf1.
Qed.

Lemma planned_rows_id i r : In r (planned_rows i) -> iy_investment r = inv_id i.
Proof.
  unfold planned_rows. intros H. apply in_map_iff in H.
  destruct H as (y & <- & _). reflexivity.
Qed.

Lemma populate_all_returns sel :
  forall w,
    faults w = [] ->
    mem "investment_years" (relations (db w)) = true ->
    NoDup (map inv_id sel) ->
    (forall i r, In i sel -> In r (investment_years (db w)) ->
                 iy_investment r <> inv_id i) ->
    (forall i c, In i sel -> cyclic_interval i = Some c -> 0 < c) ->
    returns (for_each (map RowInvestment sel) populate_one) w tt
            (set_investment_years
               (investment_years (db w) ++ flat_map planned_rows sel) (db w)).
Proof.
  induction sel as [|i sel IH]; intros w Hf Hm Hnd Hfree Hpos.
  - cbn [map for_each flat_map]. rewrite set_investment_years_same.
    apply returns_ret, Hf.
  - cbn [map for_each flat_map]. simpl in Hnd. inversion Hnd as [|? ? Hni Hnd']; subst.
    eapply returns_bind.
    + apply populate_one_returns; auto.
      * intros r Hr. apply Hfree; [left; reflexivity | exact Hr].
      * intros c. apply Hpos. left. reflexivity.
    + intros w1 Hf1 Hd1.
      replace (set_investment_years
                 (investment_years (db w) ++ planned_rows i ++ flat_map planned_rows sel) (db w))
        with (set_investment_years
                (investment_years (db w1) ++ flat_map planned_rows sel) (db w1)).
      * apply IH; auto.
        -- rewrite Hd1. exact Hm.
        -- rewrite Hd1. cbn [investment_years set_investment_years].
           intros j r Hj Hr. apply in_app_or in Hr. destruct Hr as [Hr|Hr].
           ++ apply Hfree; [right; exact Hj | exact Hr].
           ++ apply planned_rows_id in Hr. rewrite Hr. intros Heq. apply Hni.
              rewrite Heq. apply in_map. exact Hj.
        -- intros j c Hj. apply Hpos. right. exact Hj.
      * rewrite Hd1. unfold set_investment_years. cbn. rewrite <- app_assoc. reflexivity.
Qed.

Lemma has_years_false d i r :
  has_years d i = false -> In r (investment_years d) -> iy_investment r <> inv_id i.
Proof.
  unfold has_years. intros H Hr Heq.
  assert (Ht : existsb (fun iy => String.eqb (iy_investment iy) (inv_id i)) (investment_years d) = true)
    by (apply existsb_exists; exists r; split; [exact Hr | apply String.eqb_eq, Heq]).
  congruence.
Qed.

Lemma NoDup_map_inj {A B} (f : A -> B) l a b :
  NoDup (map f l) -> In a l -> In b l -> f a = f b -> a = b.
Proof.
  induction l as [|x l IH]; simpl; intros Hnd Ha Hb Heq; [destruct Ha|].
  inversion Hnd as [|? ? Hx Hnd']; subst.
  destruct Ha as [->|Ha], Hb as [->|Hb]; auto.
  - exfalso. apply Hx. rewrite Heq. apply in_map. exact Hb.
  - exfalso. apply Hx. rewrite <- Heq. apply in_map. exact Ha.
Qed.

Lemma NoDup_map_filter {A B} (f : A -> B) p l :
  NoDup (map f l) -> NoDup (map f (filter p l)).
Proof.
  induction l as [|x l IH]; simpl; intros Hnd; [constructor|].
  inversion Hnd as [|? ? Hx Hnd']; subst.
  destruct (p x); simpl; auto. constructor; auto.
  intros Hin. apply Hx. apply in_map_iff in Hin. destruct Hin as (y & Hy & Hin).
  apply filter_In in Hin. rewrite <- Hy. apply in_map. tauto.
Qed.

(** Among the planned rows of several investments with distinct ids, those
    of one investment are its own. *)
Lemma planned_rows_of i sel :
  NoDup (map inv_id sel) -> In i sel ->
  filter (fun r => String.eqb (iy_investment r) (inv_id i)) (flat_map planned_rows sel)
  = planned_rows i.
Proof.
  induction sel as [|j sel IH]; intros Hnd Hin; [destruct Hin|].
  simpl in Hnd. inversion Hnd as [|? ? Hj Hnd']; subst.
  cbn [flat_map]. rewrite filter_app. destruct Hin as [->|Hin].
  - rewrite filter_all.
    + rewrite filter_none; [apply app_nil_r|].
      intros r Hr. apply in_flat_map in Hr. destruct Hr as (k & Hk & Hr).
      apply planned_rows_id in Hr. rewrite Hr. apply String.eqb_neq.
      intros Heq. apply Hj. rewrite <- Heq. apply in_map. exact Hk.
    + intros r Hr. apply planned_rows_id in Hr. rewrite Hr. apply String.eqb_refl.
  - rewrite filter_none; [apply IH; assumption|].
    intros r Hr. apply planned_rows_id in Hr. rewrite Hr. apply String.eqb_neq.
    intros Heq. apply Hj. rewrite Heq. apply in_map. exact Hin.
Qed.

Lemma planned_rows_of_other i sel :
  (forall j, In j sel -> inv_id j <> inv_id i) ->
  filter (fun r => String.eqb (iy_investment r) (inv_id i)) (flat_map planned_rows sel)
  = [].
Proof.
  intros H. apply filter_none. intros r Hr.
  apply in_flat_map in Hr. destruct Hr as (k & Hk & Hr).
  apply planned_rows_id in Hr. rewrite Hr. apply String.eqb_neq. apply H, Hk.
Qed.

Lemma exec_select_investments d :
  has_all ["investments"; "investment_years"] d = true ->
  exec_sql QSelectInvestmentsWithoutYears d
  = inr (some_rows (map RowInvestment (filter (needs_years d) (investments d))), d).
Proof.
  intros H. cbn [exec_sql]. unfold requiring, answer. rewrite H. reflexivity.
Qed.

Lemma investment_years_insert_migration n d :
  investment_years (insert_migration n d) = investment_years d.
Proof. reflexivity. Qed.

Lemma investments_insert_migration n d :
  investments (insert_migration n d) = investments d.
Proof. reflexivity. Qed.

(** The step as a whole, without faults. *)
Lemma populate_returns w :
  faults w = [] ->
  has_all ["migration_status"; "investments"; "investment_years"] (db w) = true ->
  mem "populate_investment_years" (migration_status (db w)) = false ->
  NoDup (map inv_id (investments (db w))) ->
  (forall i c, In i (investments (db w)) -> needs_years (db w) i = true ->
               cyclic_interval i = Some c -> 0 < c) ->
  returns populateInvestmentYears w tt
    (insert_migration "populate_investment_years"
       (set_investment_years
          (investment_years (db w)
           ++ flat_map planned_rows (filter (needs_years (db w)) (investments (db w))))
          (db w))).
Proof.
  intros Hf Hall Hnot Hnd Hpos.
  unfold has_all in Hall. cbn [forallb] in Hall.
  apply andb_true_iff in Hall. destruct Hall as [Hm Hall].
  apply andb_true_iff in Hall. destruct Hall as [Hi Hall].
  apply andb_true_iff in Hall. destruct Hall as [Hy _].
  unfold populateInvestmentYears. cbv zeta.
  eapply returns_bind; [apply returns_emit, Hf|]. intros w0 Hf0 Hd0.
  eapply returns_bind; [apply returns_hasMigrationRun; [exact Hf0 | rewrite Hd0; exact Hm]|].
  intros w1 Hf1 Hd1. rewrite Hd0, Hnot. apply returns_try.
  eapply returns_bind.
  { apply returns_db_execute; [exact Hf1|]. apply exec_select_investments.
    rewrite Hd1, Hd0. unfold has_all. cbn [forallb]. rewrite Hi, Hy. reflexivity. }
  intros w2 Hf2 Hd2. cbv zeta. cbn [rows some_rows].
  rewrite Hd1, Hd0 in Hd2 |- *.
  remember (filter (needs_years (db w)) (investments (db w))) as sel eqn:Esel.
  destruct (Nat.eqb (List.length (map RowInvestment sel)) 0) eqn:Elen.
  - assert (sel = []) as -> by (destruct sel; [reflexivity | discriminate Elen]).
    cbn [flat_map].
    eapply returns_bind; [apply returns_emit, Hf2|]. intros w3 Hf3 Hd3.
    rewrite set_investment_years_same, <- Hd2, <- Hd3.
    apply returns_markMigrationComplete; [exact Hf3|].
    rewrite Hd3, Hd2. exact Hm.
  - eapply returns_bind.
    { apply populate_all_returns; [exact Hf2 | rewrite Hd2; exact Hy | | | ].
      - subst sel. apply NoDup_map_filter, Hnd.
      - intros i r Hin Hr. rewrite Hd2 in Hr. subst sel. apply filter_In in Hin.
        destruct Hin as [_ Hn]. unfold needs_years in Hn.
        apply andb_true_iff in Hn. destruct Hn as [Hn _].
        apply negb_true_iff in Hn. exact (has_years_false _ _ _ Hn Hr).
      - intros i c Hin. subst sel. apply filter_In in Hin. destruct Hin as [Hin Hn].
        apply Hpos; assumption. }
    intros w3 Hf3 Hd3. rewrite Hd2 in Hd3.
    eapply returns_bind.
    { apply returns_markMigrationComplete; [exact Hf3|]. rewrite Hd3. exact Hm. }
    intros w4 Hf4 Hd4. rewrite Hd3 in Hd4. rewrite <- Hd4.
    apply returns_emit, Hf4.
Qed.

(** The planned cycle is start, start + interval, ... as long as the year
    does not pass start + 30. *)
Lemma cycle_of_years_spec s c y :
  0 < c ->
  In y (cycle_of_years s c) <->
  exists k, 0 <= k /\ y = s + k * c /\ y <= s + 30.
Proof.
  intros Hc. unfold cycle_of_years. rewrite in_map_iff.
  assert (H0 : 0 <= 30 / c) by (apply Z.div_pos; lia).
  split.
  - intros (k & <- & Hk). apply in_seq in Hk. exists (Z.of_nat k).
    split; [lia|]. split; [reflexivity|].
    assert (Z.of_nat k <= 30 / c) by lia.
    pose proof (Z.mul_div_le 30 c Hc). nia.
  - intros (k & Hk & -> & Hle). exists (Z.to_nat k).
    rewrite Z2Nat.id by exact Hk. split; [reflexivity|].
    apply in_seq. split; [lia|].
    assert (k <= 30 / c) by (apply Z.div_le_lower_bound; lia). lia.
Qed.

(** With an interval below zero the loop of populateInvestmentYears never
    leaves: whatever the fuel, it runs out. *)
Lemma loop_years_negative fuel y maxYear c :
  c <= 0 -> y <= maxYear -> loop_years fuel y maxYear c = None.
Proof.
  intros Hc. revert y. induction fuel as [|fuel IH]; intros y Hy; simpl;
    (replace (y <=? maxYear) with true by (symmetry; apply Z.leb_le; exact Hy)).
  - reflexivity.
  - rewrite IH by lia. reflexivity.
Qed.



(** ** Properties of the world that a run maintains *)

Section Maintains.
Variable I : World -> Prop.
Hypothesis HI : stable I.

Lemma maintains_ret {A} (a : A) : maintains I (ret a).
Proof. intros w r w' E; inversion E; subst; auto. Qed.

Lemma maintains_throw {A} e : maintains I (@throw A e).
Proof. intros w r w' E; inversion E; subst; auto. Qed.

Lemma maintains_diverge {A} : maintains I (@diverge A).
Proof. intros w r w' E; inversion E; subst; auto. Qed.

Lemma maintains_existsSync : maintains I existsSync.
Proof. intros w r w' E; inversion E; subst; auto. Qed.

Lemma maintains_emit e : maintains I (emit e).
Proof. intros w r w' E; inversion E; subst. apply (stable_log I HI). Qed.

Lemma maintains_next_fault : maintains I next_fault.
Proof. intros w r w' E. exact (stable_faults I HI _ _ _ E). Qed.

Lemma maintains_run_sql q : maintains I (run_sql q).
Proof.
  intros w r w'. unfold run_sql.
  destruct (exec_sql q (db w)) as [e|[res d]] eqn:Eq; intros E; inversion E; subst; auto.
  apply (stable_sql I HI _ _ _ _ Eq).
Qed.

Lemma maintains_bind {A B} (c : M A) (k : A -> M B) :
  maintains I c -> (forall a, maintains I (k a)) -> maintains I (bind c k).
Proof.
  intros Hc Hk w r w' E Hw. apply bind_inv in E.
  destruct E as [(a & w1 & E1 & E2)|[(e & E1 & _)|(E1 & _)]].
  - exact (Hk a _ _ _ E2 (Hc _ _ _ E1 Hw)).
  - exact (Hc _ _ _ E1 Hw).
  - exact (Hc _ _ _ E1 Hw).
Qed.

Lemma maintains_try {A} (c : M A) (h : Error -> M A) :
  maintains I c -> (forall e, maintains I (h e)) -> maintains I (try_catch c h).
Proof.
  intros Hc Hh w r w' E Hw. apply try_inv in E.
  destruct E as [(a & E1 & _)|[(e & w1 & E1 & E2)|(E1 & _)]].
  - exact (Hc _ _ _ E1 Hw).
  - exact (Hh e _ _ _ E2 (Hc _ _ _ E1 Hw)).
  - exact (Hc _ _ _ E1 Hw).
Qed.

Lemma maintains_db_execute q : maintains I (db_execute q).
Proof.
  unfold db_execute.
  apply maintains_bind; [apply maintains_emit | intros _].
  apply maintains_bind; [apply maintains_next_fault | intros _].
  apply maintains_run_sql.
Qed.

Lemma maintains_external c : maintains I (external c).
Proof.
  unfold external.
  apply maintains_bind; [apply maintains_emit | intros _].
  apply maintains_bind; [apply maintains_next_fault | intros _].
  destruct c; [apply maintains_ret|].
  intros w r w' E Hw. inversion E; subst.
  destruct (mem bucket (buckets w)); [exact Hw | apply (stable_buckets I HI), Hw].
Qed.

Lemma maintains_for_each {A} (l : list A) (body : A -> M unit) :
  (forall x, maintains I (body x)) -> maintains I (for_each l body).
Proof.
  intros H. induction l as [|x l IH]; simpl.
  - apply maintains_ret.
  - apply maintains_bind; auto.
Qed.

Lemma maintains_when b c : maintains I c -> maintains I (when b c).
Proof. intros H. destruct b; simpl; [exact H | apply maintains_ret]. Qed.

Lemma maintains_year_loop fuel id y m c : maintains I (year_loop fuel id y m c).
Proof.
  revert y. induction fuel as [|fuel IH]; intros y; simpl;
    destruct (y <=? m)%Z; try apply maintains_ret; try apply maintains_diverge.
  apply maintains_bind; [apply maintains_db_execute | intros _; apply IH].
Qed.

Lemma maintains_populate_one row : maintains I (populate_one row).
Proof.
  unfold populate_one. destruct row; try apply maintains_throw.
  destruct (cyclic_interval i).
  - apply maintains_year_loop.
  - apply maintains_bind; [apply maintains_db_execute | intros _; apply maintains_ret].
Qed.
End Maintains.

Ltac maintains_step HI :=
  match goal with
  | |- maintains _ (ret _) => apply maintains_ret
  | |- maintains _ (throw _) => apply maintains_throw
  | |- maintains _ diverge => apply maintains_diverge
  | |- maintains _ existsSync => apply maintains_existsSync
  | |- maintains _ (emit _) => apply (maintains_emit _ HI)
  | |- maintains _ (console_log _) => apply (maintains_emit _ HI)
  | |- maintains _ (console_error _ _) => apply (maintains_emit _ HI)
  | |- maintains _ (enter _) => apply (maintains_emit _ HI)
  | |- maintains _ (external _) => apply (maintains_external _ HI)
  | |- maintains _ (db_execute _) => apply (maintains_db_execute _ HI)
  | |- maintains _ (bind _ _) => apply maintains_bind; [| intros ?]
  | |- maintains _ (try_catch _ _) => apply maintains_try; [| intros ?]
  | |- maintains _ (for_each _ _) => apply maintains_for_each; intros ?
  | |- maintains _ (when _ _) => apply maintains_when
  | |- maintains _ (rethrow _ _) => unfold rethrow
  | |- maintains _ (hasMigrationRun _) => unfold hasMigrationRun
  | |- maintains _ (markMigrationComplete _) => unfold markMigrationComplete
  | |- maintains _ (populate_one _) => apply (maintains_populate_one _ HI)
  | |- maintains _ (if ?b then _ else _) => destruct b
  | |- maintains _ (match ?x with _ => _ end) => destruct x
  | |- maintains _ (let _ := _ in _) => cbv zeta
  end.

Lemma step_maintains I (HI : stable I) s : maintains I (step_body s).
Proof.
  destruct s; cbn [step_body];
    match goal with |- maintains _ ?c => unfold c end; cbv zeta;
    repeat maintains_step HI.
Qed.

Lemma ensureMigrationTable_maintains I (HI : stable I) : maintains I ensureMigrationTable.
Proof. unfold ensureMigrationTable. repeat maintains_step HI. Qed.

Lemma run_steps_maintains I (HI : stable I) l : maintains I (run_steps l).
Proof.
  induction l as [|s l IH]; simpl.
  - apply maintains_ret.
  - apply maintains_bind; [apply step_maintains, HI | intros _; exact IH].
Qed.

Lemma stable_faults_free : stable (fun w => faults w = []).
Proof.
  constructor; auto.
  intros w r w' E H. unfold next_fault in E. rewrite H in E. inversion E; subst. exact H.
Qed.

Lemma stable_monotone P : monotone P -> stable (fun w => P (db w)).
Proof.
  intros HP. constructor; auto.
  - intros w r w' E H. unfold next_fault in E.
    destruct (faults w) as [|[e|] f]; inversion E; subst; exact H.
  - intros q w res d E H. exact (HP _ _ _ _ E H).
Qed.

(** *** Facts that only grow *)

Ltac exec_cases H :=
  cbn [exec_sql] in H; unfold create_table, requiring, done, answer in H;
  repeat match type of H with
         | context [if ?b then _ else _] => destruct b eqn:?
         end;
  inversion H; subst; clear H.

Lemma monotone_exists_rel t : monotone (exists_rel t).
Proof.
  intros q d res d' E Ht. unfold exists_rel in *.
  destruct q; exec_cases E;
    cbn [relations set_relations set_boards set_schools set_users set_user_schools
         set_budget_categories set_investment_years set_drawings set_columns
         set_drawing_category_labels set_role_labels set_migration_status
         insert_migration add_relation add_columns drop_columns create_schema];
    try exact Ht.
  all: try (apply mem_add_name; right; exact Ht).
  apply mem_add_names. right. exact Ht.
Qed.

Lemma mem_add_last t x l : mem t l = true -> mem t (add_last x l) = true.
Proof.
  unfold add_last. destruct (mem x l); [auto|].
  rewrite !mem_In. intros H. apply in_or_app. auto.
Qed.

Lemma mem_add_last_self x l : mem x (add_last x l) = true.
Proof.
  unfold add_last. destruct (mem x l) eqn:E; [exact E|].
  apply mem_In. apply in_or_app. right. left. reflexivity.
Qed.

Lemma monotone_marked n : monotone (marked n).
Proof.
  intros q d res d' E Ht. unfold marked in *.
  destruct q; exec_cases E;
    cbn [migration_status set_relations set_boards set_schools set_users set_user_schools
         set_budget_categories set_investment_years set_drawings set_columns
         set_drawing_category_labels set_role_labels set_migration_status
         insert_migration add_relation add_columns drop_columns create_schema];
    try exact Ht.
  all: apply mem_add_last, Ht.
Qed.

Lemma with_seed_schools_nonempty old :
  old <> [] -> with_seed_schools old <> [].
Proof.
  unfold with_seed_schools. generalize seed_schools as new.
  intros new. revert old. induction new as [|s new IH]; intros old H; simpl; [exact H|].
  apply IH. unfold insert_school. destruct (existsb _ old); [exact H|].
  destruct old; [congruence | discriminate].
Qed.

Lemma monotone_schools_nonempty : monotone (fun d => schools d <> []).
Proof.
  intros q d res d' E Ht.
  destruct q; exec_cases E;
    cbn [schools set_relations set_boards set_schools set_users set_user_schools
         set_budget_categories set_investment_years set_drawings set_columns
         set_drawing_category_labels set_role_labels set_migration_status
         insert_migration add_relation add_columns drop_columns create_schema];
    try exact Ht.
  all: apply with_seed_schools_nonempty, Ht.
Qed.

Lemma existsb_map {A B} (f : A -> B) p l :
  existsb p (map f l) = existsb (fun x => p (f x)) l.
Proof. induction l as [|x l IH]; simpl; [reflexivity | rewrite IH; reflexivity]. Qed.

Lemma existsb_same {A} (f g : A -> bool) l :
  (forall x, f x = g x) -> existsb f l = existsb g l.
Proof.
  intros H. induction l as [|x l IH]; simpl; [reflexivity | rewrite H, IH; reflexivity].
Qed.

Lemma monotone_has_user id : monotone (fun d => has_user id d = true).
Proof.
  intros q d res d' E Ht. unfold has_user in *.
  destruct q; exec_cases E;
    cbn [users set_relations set_boards set_schools set_users set_user_schools
         set_budget_categories set_investment_years set_drawings set_columns
         set_drawing_category_labels set_role_labels set_migration_status
         insert_migration add_relation add_columns drop_columns create_schema];
    try exact Ht.
  - rewrite existsb_app, Ht. reflexivity.
  - rewrite existsb_map. erewrite existsb_same; [exact Ht|].
    intros u. cbv beta. destruct (String.eqb (user_role u) "user"); reflexivity.
  - rewrite existsb_map. erewrite existsb_same; [exact Ht|].
    intros u. cbv beta. destruct (is_jean u); reflexivity.
Qed.

Lemma monotone_and P Q : monotone P -> monotone Q -> monotone (fun d => P d /\ Q d).
Proof. intros HP HQ q d res d' E [H1 H2]. split; eauto. Qed.

Lemma monotone_True : monotone (fun _ => True).
Proof. intros q d res d' _ _. exact I. Qed.


(** ** Runs without faults, statement by statement *)

Lemma mem_add_name_b t x l : mem t (add_name x l) = (String.eqb t x || mem t l)%bool.
Proof.
  unfold add_name. destruct (mem x l) eqn:E.
  - destruct (String.eqb t x) eqn:Et; [|reflexivity].
    apply String.eqb_eq in Et. subst. exact E.
  - unfold mem. reflexivity.
Qed.

Lemma mem_add_last_b t x l : mem t (add_last x l) = (String.eqb t x || mem t l)%bool.
Proof.
  unfold add_last. destruct (mem x l) eqn:E.
  - destruct (String.eqb t x) eqn:Et; [|reflexivity].
    apply String.eqb_eq in Et. subst. exact E.
  - unfold mem. rewrite existsb_app. simpl. rewrite orb_false_r. apply orb_comm.
Qed.

Lemma add_name_present x l : mem x l = true -> add_name x l = l.
Proof. unfold add_name. intros ->. reflexivity. Qed.

Lemma add_last_present x l : mem x l = true -> add_last x l = l.
Proof. unfold add_last. intros ->. reflexivity. Qed.

Lemma add_names_present names l :
  (forall x, In x names -> mem x l = true) -> add_names names l = l.
Proof.
  induction names as [|x names IH]; intros H; [reflexivity|].
  cbn [add_names fold_right]. fold (add_names names l).
  rewrite IH by (intros y Hy; apply H; right; exact Hy).
  apply add_name_present, H. left. reflexivity.
Qed.

Lemma add_columns_twice names d :
  add_columns names (add_columns names d) = add_columns names d.
Proof.
  unfold add_columns. cbn [columns set_columns].
  rewrite (add_names_present names (add_names names (columns d))).
  - destruct d; reflexivity.
  - intros x Hx. apply mem_add_names. left. exact Hx.
Qed.

Lemma set_relations_same d : set_relations (relations d) d = d.
Proof. destruct d; reflexivity. Qed.

Lemma set_columns_same d : set_columns (columns d) d = d.
Proof. destruct d; reflexivity. Qed.

Lemma set_migration_status_same d : set_migration_status (migration_status d) d = d.
Proof. destruct d; reflexivity. Qed.

Lemma set_role_labels_same d : set_role_labels (role_labels d) d = d.
Proof. destruct d; reflexivity. Qed.

Lemma set_users_same d : set_users (users d) d = d.
Proof. destruct d; reflexivity. Qed.

Lemma set_budget_categories_same d : set_budget_categories (budget_categories d) d = d.
Proof. destruct d; reflexivity. Qed.

Lemma reset_twice l :
  map (set_spent 0) (map (set_spent 0) l) = map (set_spent 0) l.
Proof. rewrite map_map. reflexivity. Qed.

Lemma set_budget_categories_twice a b d :
  set_budget_categories a (set_budget_categories b d) = set_budget_categories a d.
Proof. reflexivity. Qed.

Lemma set_role_labels_twice a b d :
  set_role_labels a (set_role_labels b d) = set_role_labels a d.
Proof. reflexivity. Qed.

Create Rewrite HintDb db_norm.

#[export] Hint Rewrite mem_add_name_b mem_add_last_b reset_twice
  set_budget_categories_twice set_role_labels_twice add_columns_twice : db_norm.

(** The value of an action in a world without faults. *)
Lemma emit_run e w : emit e w = (Ok tt, add_log e w).
Proof. reflexivity. Qed.

Lemma enter_run s w : enter s w = (Ok tt, add_log (Enter s) w).
Proof. reflexivity. Qed.

Lemma console_log_run m w : console_log m w = (Ok tt, add_log (Info m) w).
Proof. reflexivity. Qed.

Lemma console_error_run c e w : console_error c e w = (Ok tt, add_log (Logged c e) w).
Proof. reflexivity. Qed.

Lemma existsSync_run w : existsSync w = (Ok (schema_file w), w).
Proof. reflexivity. Qed.

Lemma db_execute_ok q w res d :
  faults w = [] -> exec_sql q (db w) = inr (res, d) ->
  db_execute q w = (Ok res, set_db d (add_log (Exec q) w)).
Proof. intros Hf E. rewrite db_execute_clean by exact Hf. rewrite E. reflexivity. Qed.

Lemma db_execute_err q w e :
  faults w = [] -> exec_sql q (db w) = inl e ->
  db_execute q w = (Throw e, add_log (Exec q) w).
Proof. intros Hf E. rewrite db_execute_clean by exact Hf. rewrite E. reflexivity. Qed.

Lemma external_import_clean w :
  faults w = [] ->
  external ImportSupabaseStorage w = (Ok tt, add_log (Call ImportSupabaseStorage) w).
Proof.
  intros Hf. unfold external, bind, emit, next_fault. cbn [faults add_log].
  rewrite Hf. reflexivity.
Qed.

Lemma hasMigrationRun_clean name w :
  faults w = [] -> tracked (db w) ->
  hasMigrationRun name w
  = (Ok (mem name (migration_status (db w))),
     add_log (Exec (QSelectMigration name)) w).
Proof.
  intros Hf Ht. unfold hasMigrationRun, try_catch, bind.
  rewrite db_execute_clean by exact Hf. cbn [exec_sql]. unfold requiring, has_all.
  cbn [forallb]. unfold tracked in Ht. rewrite Ht. cbn [andb]. unfold answer, ret.
  destruct (mem name (migration_status (db w))); destruct w; reflexivity.
Qed.

Lemma markMigrationComplete_clean name w :
  faults w = [] -> tracked (db w) ->
  markMigrationComplete name w
  = (Ok tt, set_db (insert_migration name (db w))
                   (add_log (Exec (QInsertMigration name)) w)).
Proof.
  intros Hf Ht. unfold markMigrationComplete, try_catch, bind.
  rewrite db_execute_clean by exact Hf. cbn [exec_sql]. unfold requiring, has_all.
  cbn [forallb]. unfold tracked in Ht. rewrite Ht. reflexivity.
Qed.

Lemma try_bind_Throw {A B} (c : M A) (k : A -> M B) h w e w1 :
  c w = (Throw e, w1) -> try_catch (bind c k) h w = h e w1.
Proof. intros H. unfold try_catch. erewrite bind_Throw by exact H. reflexivity. Qed.

Lemma try_bind_Diverge {A B} (c : M A) (k : A -> M B) h w w1 :
  c w = (Diverge, w1) -> try_catch (bind c k) h w = (Diverge, w1).
Proof. intros H. unfold try_catch. erewrite bind_Diverge by exact H. reflexivity. Qed.

Lemma try_bind_assoc {A B C} (c : M A) (k : A -> M B) (k' : B -> M C) h w :
  try_catch (bind (bind c k) k') h w
  = try_catch (bind c (fun a => bind (k a) k')) h w.
Proof. apply try_ext, bind_assoc. Qed.

Lemma relations_create_schema_b t d :
  mem t (relations (create_schema d))
  = (mem t (base_types ++ base_tables) || mem t (relations d))%bool.
Proof.
  unfold create_schema. cbn [relations set_relations].
  apply eq_iff_eq_true. rewrite orb_true_iff, mem_add_names, !mem_In. reflexivity.
Qed.

(** create_schema.sql as far as the steps after it look at its result. *)
Lemma db_execute_create_schema w :
  faults w = [] ->
  exists d,
    db_execute QCreateSchema w
    = (Ok (no_rows 0), set_db d (add_log (Exec QCreateSchema) w)) /\
    (forall t, mem t (relations d)
               = (mem t (base_types ++ base_tables) || mem t (relations (db w)))%bool) /\
    migration_status d = migration_status (db w) /\
    schools d = schools (db w).
Proof.
  intros Hf. exists (create_schema (db w)). split; [|split; [|split]].
  - apply db_execute_ok; [exact Hf | reflexivity].
  - intros t. apply relations_create_schema_b.
  - reflexivity.
  - reflexivity.
Qed.

Lemma migration_status_create_schema d :
  migration_status (create_schema d) = migration_status d.
Proof. reflexivity. Qed.

Lemma schools_create_schema d : schools (create_schema d) = schools d.
Proof. reflexivity. Qed.

(** *** Tactics *)

(** Evaluates comparisons of string literals. *)
Ltac eval_eqb :=
  repeat match goal with
         | |- context [String.eqb ?a ?b] =>
             let v := eval vm_compute in (String.eqb a b) in
             match v with
             | true => change (String.eqb a b) with true
             | false => change (String.eqb a b) with false
             end
         | |- context [mem ?a (base_types ++ base_tables)] =>
             let v := eval vm_compute in (mem a (base_types ++ base_tables)) in
             change (mem a (base_types ++ base_tables)) with v
         end.

Ltac eval_eqb_in H :=
  repeat match type of H with
         | context [String.eqb ?a ?b] =>
             let v := eval vm_compute in (String.eqb a b) in
             match v with
             | true => change (String.eqb a b) with true in H
             | false => change (String.eqb a b) with false in H
             end
         | context [mem ?a (base_types ++ base_tables)] =>
             let v := eval vm_compute in (mem a (base_types ++ base_tables)) in
             change (mem a (base_types ++ base_tables)) with v in H
         | context [includes ?a ?b] =>
             let v := eval vm_compute in (includes a b) in
             match v with
             | true => change (includes a b) with true in H
             | false => change (includes a b) with false in H
             end
         end.

Ltac db_cbn :=
  cbn [db faults log buckets schema_file add_log set_db set_faults set_buckets
       relations columns drawing_category_labels role_labels migration_status
       boards schools users user_schools budget_categories maintenance_history
       investments investment_years drawings
       set_relations set_columns set_drawing_category_labels set_role_labels
       set_migration_status set_boards set_schools set_users set_user_schools
       set_budget_categories set_investment_years set_drawings
       insert_migration add_relation add_columns drop_columns
       rows rowCount some_rows no_rows first_exists first_count count_or_zero
       fst snd andb orb negb forallb].

Ltac db_cbn_in H :=
  cbn [db faults log buckets schema_file add_log set_db set_faults set_buckets
       relations columns drawing_category_labels role_labels migration_status
       boards schools users user_schools budget_categories maintenance_history
       investments investment_years drawings
       set_relations set_columns set_drawing_category_labels set_role_labels
       set_migration_status set_boards set_schools set_users set_user_schools
       set_budget_categories set_investment_years set_drawings
       insert_migration add_relation add_columns drop_columns
       rows rowCount some_rows no_rows first_exists first_count count_or_zero
       fst snd andb orb negb forallb] in H.

Ltac is_literal b :=
  lazymatch b with true => idtac | false => idtac end.

(** Rewrites with what is known: the database of a world, and the truth
    values of the conditions met so far. *)
Ltac use_facts :=
  repeat match goal with
         | F : db ?v = _ |- context [db ?v] => rewrite F
         | F : forall t, mem t (relations ?d) = _ |- context [mem _ (relations ?d)] =>
             rewrite F
         | F : migration_status ?d = _ |- context [migration_status ?d] => rewrite F
         | F : relations ?d = _ |- context [relations ?d] => rewrite F
         | F : schools ?d = _ |- context [schools ?d] => rewrite F
         | F : ?b = true |- context [?b] => tryif is_literal b then fail else rewrite F
         | F : ?b = false |- context [?b] => tryif is_literal b then fail else rewrite F
         end.

Ltac use_facts_in H :=
  repeat match goal with
         | F : db ?v = _ |- _ =>
             match type of H with context [db v] => rewrite F in H end
         | F : forall t, mem t (relations ?d) = _ |- _ =>
             match type of H with context [mem _ (relations d)] => rewrite F in H end
         | F : migration_status ?d = _ |- _ =>
             match type of H with context [migration_status d] => rewrite F in H end
         | F : relations ?d = _ |- _ =>
             match type of H with context [relations d] => rewrite F in H end
         | F : schools ?d = _ |- _ =>
             match type of H with context [schools d] => rewrite F in H end
         | F : ?b = true |- _ =>
             tryif is_literal b then fail else
             match type of H with context [b] => rewrite F in H end
         | F : ?b = false |- _ =>
             tryif is_literal b then fail else
             match type of H with context [b] => rewrite F in H end
         end.

Ltac db_simpl :=
  repeat (progress (db_cbn;
                    autorewrite with db_norm;
                    eval_eqb; cbn [andb orb negb]; use_facts)).

Ltac db_simpl_in H :=
  repeat (progress (db_cbn_in H;
                    autorewrite with db_norm in H;
                    eval_eqb_in H; cbn [andb orb negb] in H; use_facts_in H)).

Ltac side_faults := cbn [faults set_db add_log]; assumption.

Ltac side_tracked :=
  unfold tracked; db_simpl; first [assumption | reflexivity].

(** Splits on a condition, on the membership tests inside it first. *)
Ltac split_on b :=
  lazymatch b with
  | context [mem ?a ?l] => destruct (mem a l) eqn:?
  | _ => destruct b eqn:?
  end.

(** Works out [exec_sql q (db W)] into a value, splitting on the conditions
    it meets; leaves the equation as [Hx]. *)
Ltac sql_value q W Hx :=
  let v := fresh "v" in
  let Hv := fresh "Hv" in
  remember (exec_sql q (db W)) as v eqn:Hv;
  pose proof Hv as Hx;
  cbn [exec_sql] in Hx;
  unfold create_table, requiring, done, answer, has_all in Hx;
  db_simpl_in Hx;
  repeat (match type of Hx with
          | _ = (if ?b then _ else _) => split_on b
          end; db_simpl_in Hx);
  rewrite Hv in Hx; clear Hv; try clear v.

(** Proves [c W = (r, W')] for an action [c] that is not composed; a
    statement needs its value [exec_sql q (db W) = ...] among the
    hypotheses. *)
Ltac prim :=
  lazymatch goal with
  | |- enter _ _ = _ => apply enter_run
  | |- console_log _ _ = _ => apply console_log_run
  | |- console_error _ _ _ = _ => apply console_error_run
  | |- emit _ _ = _ => apply emit_run
  | |- existsSync _ = _ => apply existsSync_run
  | |- ret _ _ = _ => reflexivity
  | |- throw _ _ = _ => reflexivity
  | |- rethrow _ _ _ = _ => apply rethrow_run
  | |- hasMigrationRun _ _ = _ =>
      apply hasMigrationRun_clean; [side_faults | side_tracked]
  | |- markMigrationComplete _ _ = _ =>
      apply markMigrationComplete_clean; [side_faults | side_tracked]
  | |- external ImportSupabaseStorage _ = _ =>
      apply external_import_clean; side_faults
  | |- db_execute _ _ = _ =>
      first [ apply db_execute_ok; [side_faults | eassumption]
            | apply db_execute_err; [side_faults | eassumption] ]
  end.

Ltac is_prim c :=
  lazymatch c with
  | enter _ => idtac
  | console_log _ => idtac
  | console_error _ _ => idtac
  | emit _ => idtac
  | existsSync => idtac
  | ret _ => idtac
  | throw _ => idtac
  | rethrow _ _ => idtac
  | hasMigrationRun _ => idtac
  | markMigrationComplete _ => idtac
  | external ImportSupabaseStorage => idtac
  end.

(** One action further in the hypothesis [E : c W = (r, w')]. *)
Ltac advance E :=
  lazymatch type of E with
  | try_catch (bind (db_execute QCreateSchema) _) _ _ = _ => fail
  | try_catch (bind (for_each (map _ _) _) _) _ _ = _ => fail
  | bind (bind _ _) _ _ = _ => rewrite bind_assoc in E
  | try_catch (bind (bind _ _) _) _ _ = _ => rewrite try_bind_assoc in E
  | bind (db_execute ?q) _ ?W = _ =>
      let Hx := fresh "Hx" in
      sql_value q W Hx;
      first [ erewrite bind_Ok in E by prim | erewrite bind_Throw in E by prim ];
      clear Hx
  | try_catch (bind (db_execute ?q) _) _ ?W = _ =>
      let Hx := fresh "Hx" in
      sql_value q W Hx;
      first [ erewrite try_bind_Ok in E by prim | erewrite try_bind_Throw in E by prim ];
      clear Hx
  | try_catch (db_execute ?q) _ ?W = _ =>
      let Hx := fresh "Hx" in
      sql_value q W Hx;
      first [ erewrite try_Ok in E by prim | erewrite try_Throw in E by prim ];
      clear Hx
  | db_execute ?q ?W = _ =>
      let Hx := fresh "Hx" in
      sql_value q W Hx;
      first [ rewrite (db_execute_ok _ _ _ _ ltac:(side_faults) Hx) in E
            | rewrite (db_execute_err _ _ _ ltac:(side_faults) Hx) in E ];
      clear Hx
  | bind (when ?b _) _ _ = _ => unfold when in E
  | try_catch (bind (when ?b _) _) _ _ = _ => unfold when in E
  | when ?b _ _ = _ => unfold when in E
  | bind (if ?b then _ else _) _ _ = _ => split_on b
  | try_catch (bind (if ?b then _ else _) _) _ _ = _ => split_on b
  | try_catch (if ?b then _ else _) _ _ = _ => split_on b
  | (if ?b then _ else _) _ = _ => split_on b
  | bind (for_each _ _) _ _ = _ => cbn [for_each] in E
  | try_catch (bind (for_each _ _) _) _ _ = _ => cbn [for_each] in E
  | for_each _ _ _ = _ => cbn [for_each] in E
  | bind (try_catch ?c ?h) _ ?W = _ =>
      sub_run E (try_catch c h) W
  | try_catch (bind (try_catch ?c ?h) _) _ ?W = _ =>
      sub_run E (try_catch c h) W
  | try_catch (try_catch ?c ?h) _ ?W = _ =>
      sub_run E (try_catch c h) W
  | bind ?c _ _ = _ =>
      is_prim c;
      first [ erewrite bind_Ok in E by prim | erewrite bind_Throw in E by prim ]
  | try_catch (bind ?c _) _ _ = _ =>
      is_prim c;
      first [ erewrite try_bind_Ok in E by prim | erewrite try_bind_Throw in E by prim ]
  | try_catch ?c _ _ = _ =>
      is_prim c;
      first [ erewrite try_Ok in E by prim | erewrite try_Throw in E by prim ]
  | ?c ?W = _ =>
      is_prim c;
      let X := fresh "X" in
      eassert (X : c W = _) by prim; rewrite X in E; clear X
  end;
  cbv beta in E; db_simpl_in E

with sub_run E c W :=
  let E1 := fresh "E" in
  let E2 := fresh "E" in
  let r1 := fresh "r" in
  let W1 := fresh "w" in
  destruct (c W) as [r1 W1] eqn:E1;
  pose proof E1 as E2;
  repeat advance E1;
  inversion E1; subst r1 W1; clear E1;
  first [ erewrite bind_Ok in E by exact E2
        | erewrite bind_Throw in E by exact E2
        | erewrite try_bind_Ok in E by exact E2
        | erewrite try_bind_Throw in E by exact E2
        | erewrite try_Ok in E by exact E2
        | erewrite try_Throw in E by exact E2 ];
  clear E2.

Ltac advance_all E := cbv zeta in E; repeat advance E.

(** Opens a goal [settled c d] or [stuck c d] into a run of [c] to follow. *)
Ltac rerun c E :=
  let v := fresh "v" in
  let Hfv := fresh "Hfv" in
  let Hdv := fresh "Hdv" in
  let r := fresh "r" in
  let v' := fresh "v'" in
  intros v Hfv Hdv; db_cbn_in Hdv;
  destruct (c v) as [r v'] eqn:E; unfold c in E.

(** Closes an equation between two databases that differ by insertions of
    what is already there. *)
Ltac db_eq :=
  db_simpl; rewrite ?add_columns_twice; unfold insert_migration, add_relation;
  repeat first
    [ rewrite add_last_present by (db_simpl; first [assumption | reflexivity])
    | rewrite add_name_present by (db_simpl; first [assumption | reflexivity]) ];
  rewrite ?add_columns_twice, ?set_relations_same, ?set_columns_same, ?set_migration_status_same,
    ?set_role_labels_same, ?set_users_same, ?set_budget_categories_same;
  try reflexivity.

(** Closes a goal [exists w', (r, v') = (r, w') /\ faults w' = [] /\ db w' = d]
    once the run has been followed to its end in [E]. *)
Ltac finish_rerun E :=
  inversion E; subst; clear E;
  repeat eexists; first [side_faults | db_eq].

Ltac open_facts := unfold tracked, marked, exists_rel in *.


Ltac done_tac := cbn [Done tracking_name]; open_facts; db_simpl; reflexivity.

Ltac stuck_tac c :=
  let E := fresh "E" in
  cbn [step_body]; rerun c E; advance_all E; finish_rerun E.

Ltac first_run_tac c :=
  let E := fresh "E" in
  intros w r w' Hf Ht _ E; open_facts; cbn [step_body] in E; unfold c in E;
  advance_all E; inversion E; subst; clear E;
  first [ solve [done_tac] | stuck_tac c ].

Ltac settled_tac c :=
  let E := fresh "E" in
  cbn [step_body]; rerun c E; advance_all E; finish_rerun E.

Lemma createRoomsAndTerrainTables_first : first_run CreateRoomsAndTerrainTables.
Proof. first_run_tac createRoomsAndTerrainTables. Qed.

Lemma addMaxStudentsToRooms_first : first_run AddMaxStudentsToRooms.
Proof. first_run_tac addMaxStudentsToRooms. Qed.

Lemma createFoldersAndExtendDocuments_first : first_run CreateFoldersAndExtendDocuments.
Proof. first_run_tac createFoldersAndExtendDocuments. Qed.

Lemma createInvestmentYearsTable_first : first_run CreateInvestmentYearsTable.
Proof. first_run_tac createInvestmentYearsTable. Qed.

Lemma fixInvalidDrawingCategories_first : first_run FixInvalidDrawingCategories.
Proof. first_run_tac fixInvalidDrawingCategories. Qed.

Lemma addAttachmentColumns_first : first_run AddAttachmentColumnsToReportsAndMaintenance.
Proof. first_run_tac addAttachmentColumnsToReportsAndMaintenance. Qed.

Lemma fixJeanAdminRole_first : first_run FixJeanAdminRole.
Proof. first_run_tac fixJeanAdminRole. Qed.


(** *** A step that is done returns and changes nothing *)

Ltac settled_marked c :=
  let d := fresh "d" in
  let Ht := fresh "Ht" in
  let Hd := fresh "Hd" in
  intros d Ht Hd; cbn [Done tracking_name] in Hd; open_facts; settled_tac c.

Lemma createBaseSchema_settled d :
  tracked d -> Done CreateBaseSchema d -> settled (step_body CreateBaseSchema) d.
Proof.
  intros Ht [H1 H2]. open_facts. settled_tac createBaseSchema.
Qed.

Lemma ensureSessionTable_settled d :
  tracked d -> Done EnsureSessionTable d -> settled (step_body EnsureSessionTable) d.
Proof.
  intros Ht (H1 & H2 & H3). open_facts. settled_tac ensureSessionTable.
Qed.

Lemma count_positive {A} (l : list A) :
  l <> [] -> (0 <? Z.of_nat (List.length l)) = true.
Proof. destruct l; [congruence | reflexivity]. Qed.

Lemma seedSchoolsAndBoards_settled d :
  tracked d -> Done SeedSchoolsAndBoards d -> settled (step_body SeedSchoolsAndBoards) d.
Proof.
  intros Ht (H1 & H2 & H3). apply count_positive in H2. open_facts.
  settled_tac seedSchoolsAndBoards.
Qed.

Lemma has_user_rows {B} (f : User -> B) id d :
  has_user id d = true ->
  Nat.ltb 0 (List.length (map f (filter (fun u => String.eqb (user_id u) id) (users d))))
  = true.
Proof.
  unfold has_user. induction (users d) as [|u l IH]; simpl; [discriminate|].
  destruct (String.eqb (user_id u) id); simpl; [reflexivity | exact IH].
Qed.

Lemma seedHardcodedAdminUser_settled d :
  tracked d -> Done SeedHardcodedAdminUser d ->
  settled (step_body SeedHardcodedAdminUser) d.
Proof.
  intros Ht (H1 & H2). apply (has_user_rows (fun u => RowId (user_id u))) in H2.
  open_facts. settled_tac seedHardcodedAdminUser.
Qed.

Lemma no_orphans_count d :
  no_orphans d ->
  (Z.of_nat (List.length (filter (orphaned d) (users d))) =? 0) = true.
Proof.
  unfold no_orphans, orphaned. induction (users d) as [|u l IH]; simpl; [reflexivity|].
  intros H. apply andb_true_iff in H. destruct H as [H1 H2].
  rewrite H1. simpl. exact (IH H2).
Qed.

Lemma assignUsersToSchools_settled d :
  tracked d -> Done AssignUsersToSchools d -> settled (step_body AssignUsersToSchools) d.
Proof.
  intros Ht (H1 & [H2|(H2 & H3)]).
  - assert (F : (Z.of_nat (List.length (users d)) =? 0) = true) by (rewrite H2; reflexivity).
    clear H2. open_facts. settled_tac assignUsersToSchools.
  - apply no_orphans_count in H3. open_facts. settled_tac assignUsersToSchools.
Qed.
Lemma addDrawingCategoryEnumValues_settled d :
  tracked d -> Done AddDrawingCategoryEnumValues d ->
  settled (step_body AddDrawingCategoryEnumValues) d.
Proof. revert d. settled_marked addDrawingCategoryEnumValues. Qed.

Lemma recalculateBudgetSpentAmounts_settled d :
  tracked d -> Done RecalculateBudgetSpentAmounts d ->
  settled (step_body RecalculateBudgetSpentAmounts) d.
Proof. revert d. settled_marked recalculateBudgetSpentAmounts. Qed.

Lemma createRoomsAndTerrainTables_settled d :
  tracked d -> Done CreateRoomsAndTerrainTables d ->
  settled (step_body CreateRoomsAndTerrainTables) d.
Proof. revert d. settled_marked createRoomsAndTerrainTables. Qed.

Lemma addMaxStudentsToRooms_settled d :
  tracked d -> Done AddMaxStudentsToRooms d ->
  settled (step_body AddMaxStudentsToRooms) d.
Proof. revert d. settled_marked addMaxStudentsToRooms. Qed.

Lemma createFoldersAndExtendDocuments_settled d :
  tracked d -> Done CreateFoldersAndExtendDocuments d ->
  settled (step_body CreateFoldersAndExtendDocuments) d.
Proof. revert d. settled_marked createFoldersAndExtendDocuments. Qed.

Lemma createInvestmentYearsTable_settled d :
  tracked d -> Done CreateInvestmentYearsTable d ->
  settled (step_body CreateInvestmentYearsTable) d.
Proof. revert d. settled_marked createInvestmentYearsTable. Qed.

Lemma fixInvalidDrawingCategories_settled d :
  tracked d -> Done FixInvalidDrawingCategories d ->
  settled (step_body FixInvalidDrawingCategories) d.
Proof. revert d. settled_marked fixInvalidDrawingCategories. Qed.

Lemma populateInvestmentYears_settled d :
  tracked d -> Done PopulateInvestmentYears d ->
  settled (step_body PopulateInvestmentYears) d.
Proof. revert d. settled_marked populateInvestmentYears. Qed.

Lemma addAttachmentColumns_settled d :
  tracked d -> Done AddAttachmentColumnsToReportsAndMaintenance d ->
  settled (step_body AddAttachmentColumnsToReportsAndMaintenance) d.
Proof. revert d. settled_marked addAttachmentColumnsToReportsAndMaintenance. Qed.

Lemma extendRoleEnumForRbac_settled d :
  tracked d -> Done ExtendRoleEnumForRbac d ->
  settled (step_body ExtendRoleEnumForRbac) d.
Proof. revert d. settled_marked extendRoleEnumForRbac. Qed.

Lemma fixJeanAdminRole_settled d :
  tracked d -> Done FixJeanAdminRole d ->
  settled (step_body FixJeanAdminRole) d.
Proof. revert d. settled_marked fixJeanAdminRole. Qed.



(** *** Bucket provisioning never throws and never writes to the database *)

Lemma external_clean c w :
  faults w = [] ->
  exists w', external c w = (Ok tt, w') /\ faults w' = [] /\ db w' = db w.
Proof.
  intros Hf. unfold external, bind, emit, next_fault. cbn [faults add_log].
  rewrite Hf. destruct c.
  - eexists. split; [reflexivity|]. split; [exact Hf | reflexivity].
  - eexists. split; [reflexivity|].
    destruct (mem bucket (buckets (add_log _ w))); split; solve [exact Hf | reflexivity].
Qed.

Lemma bucket_loop_clean (l : list School) w :
  faults w = [] ->
  exists w',
    for_each (map RowSchool l)
      (fun row =>
         match row with
         | RowSchool s =>
             let schoolId := school_id s in
             let bucketName := String.append "school-" (remove_dashes schoolId) in
             try_catch
               (external (CreateBucketIfNotExists bucketName))
               (fun supabaseError =>
                  console_error (CreatingBucket bucketName) supabaseError)
         | _ => throw type_error
         end) w = (Ok tt, w') /\ faults w' = [] /\ db w' = db w.
Proof.
  revert w. induction l as [|s l IH]; intros w Hf.
  - exists w. repeat split; auto.
  - cbn [map for_each]. cbv zeta.
    destruct (external_clean
                (CreateBucketIfNotExists (String.append "school-" (remove_dashes (school_id s))))
                w Hf) as (w1 & E1 & F1 & D1).
    erewrite bind_Ok by (apply try_Ok; exact E1).
    destruct (IH w1 F1) as (w2 & E2 & F2 & D2).
    exists w2. split; [exact E2|]. split; [exact F2 | congruence].
Qed.

Lemma ensureSupabaseBucketsForSchools_settled d :
  settled (step_body EnsureSupabaseBucketsForSchools) d.
Proof.
  cbn [step_body]. rerun ensureSupabaseBucketsForSchools E. advance_all E.
  all: try solve [finish_rerun E].
  match type of E with
  | try_catch (bind (for_each (map RowSchool ?l) _) _) _ ?W = _ =>
      destruct (bucket_loop_clean l W ltac:(side_faults)) as (w1 & E1 & F1 & D1)
  end.
  db_cbn_in D1.
  erewrite try_bind_Ok in E by exact E1. advance_all E. finish_rerun E.
Qed.

Lemma ensureSupabaseBucketsForSchools_first : first_run EnsureSupabaseBucketsForSchools.
Proof.
  intros w r w' Hf _ _ E.
  destruct (ensureSupabaseBucketsForSchools_settled (db w) w Hf eq_refl) as (w1 & E1 & _).
  rewrite E1 in E. inversion E; subst. exact I.
Qed.

(** *** First runs of the critical steps *)


Ltac critical_tac c :=
  let E := fresh "E" in
  intros w w' Hf Ht E; open_facts; cbn [step_body] in E; unfold c in E;
  advance_all E; inversion E; subst; clear E.

Lemma createBaseSchema_first : first_run_critical CreateBaseSchema.
Proof.
  intros w w' Hf Ht E. open_facts. cbn [step_body] in E. unfold createBaseSchema in E.
  advance_all E.
  all: try match type of E with
       | try_catch (bind (db_execute QCreateSchema) _) _ ?W = _ =>
           destruct (db_execute_create_schema W ltac:(side_faults))
             as (d1 & E1 & Hrel & Hms & Hsch);
           db_cbn_in Hrel; db_cbn_in Hms; db_cbn_in Hsch;
           erewrite try_bind_Ok in E by exact E1; clear E1; advance_all E
       end.
  all: inversion E; subst; clear E.
  all: cbn [Done]; open_facts; db_simpl; auto.
Qed.

Lemma ensureSessionTable_first : first_run_critical EnsureSessionTable.
Proof.
  critical_tac ensureSessionTable.
  all: cbn [Done]; open_facts; db_simpl; auto.
Qed.

Lemma addDrawingCategoryEnumValues_first :
  first_run_critical AddDrawingCategoryEnumValues.
Proof.
  critical_tac addDrawingCategoryEnumValues.
  all: cbn [Done tracking_name]; open_facts; db_simpl; auto.
Qed.

Lemma count_positive_inv {A} (l : list A) :
  (0 <? Z.of_nat (List.length l)) = true -> l <> [].
Proof. destruct l; [discriminate | discriminate]. Qed.

Lemma with_seed_schools_any old : with_seed_schools old <> [].
Proof.
  destruct old as [|s old].
  - vm_compute. discriminate.
  - apply with_seed_schools_nonempty. discriminate.
Qed.

Lemma seedSchoolsAndBoards_first : first_run_critical SeedSchoolsAndBoards.
Proof.
  critical_tac seedSchoolsAndBoards.
  all: cbn [Done]; open_facts; db_simpl; repeat split; auto.
  - apply count_positive_inv. assumption.
  - apply with_seed_schools_any.
Qed.


(** *** First runs of the steps that look at rows *)

Lemma rows_found {A B} (f : A -> B) p (l : list A) :
  Nat.ltb 0 (List.length (map f (filter p l))) = existsb p l.
Proof.
  induction l as [|x l IH]; simpl; [reflexivity|].
  destruct (p x); simpl; [reflexivity | exact IH].
Qed.

Lemma has_user_admin id d :
  has_user id (set_users (users d ++ [admin_user id]) d) = true.
Proof.
  unfold has_user. cbn [users set_users]. rewrite existsb_app. simpl.
  rewrite String.eqb_refl. apply orb_true_iff. right. reflexivity.
Qed.

Lemma seedHardcodedAdminUser_first : first_run SeedHardcodedAdminUser.
Proof.
  intros w r w' Hf Ht _ E; open_facts; cbn [step_body] in E;
    unfold seedHardcodedAdminUser in E.
  advance_all E; inversion E; subst; clear E.
  all: try solve [stuck_tac seedHardcodedAdminUser].
  all: cbn [Done]; open_facts; db_cbn; split; try assumption.
  - rewrite rows_found in *. assumption.
  - apply has_user_admin.
Qed.

Lemma assigned_after_insert d :
  schools d <> [] ->
  no_orphans (set_user_schools (user_schools d ++ new_assignments d) d).
Proof.
  intros Hs. unfold no_orphans. cbn [users set_user_schools].
  apply forallb_forall. intros u Hu.
  unfold has_assignment. cbn [user_schools set_user_schools]. rewrite existsb_app.
  destruct (existsb (fun us => String.eqb (us_user us) (user_id u)) (user_schools d)) eqn:E;
    [reflexivity|].
  cbn [orb]. apply existsb_exists.
  assert (Ho : orphaned d u = true)
    by (unfold orphaned, has_assignment; rewrite E; reflexivity).
  pose proof (assignments_for_orphan d u Ho) as Ha.
  destruct (sort_by_name (schools d)) as [|s0 rest] eqn:Es.
  - exfalso. apply Hs. apply Permutation_nil. apply Permutation_sym.
    rewrite <- Es. apply sort_by_name_perm.
  - exists (mkUserSchool (user_id u) (school_id s0) true). split.
    + unfold new_assignments. apply in_flat_map. exists u.
      split; [exact Hu|]. rewrite Ha. simpl. left. reflexivity.
    + simpl. apply String.eqb_refl.
Qed.

Lemma no_orphans_of_count d :
  (Z.of_nat (List.length (filter (orphaned d) (users d))) =? 0) = true -> no_orphans d.
Proof.
  unfold no_orphans, orphaned. induction (users d) as [|u l IH]; simpl; [reflexivity|].
  destruct (has_assignment d u); simpl; [exact IH | discriminate].
Qed.

Lemma no_users_of_count d :
  (Z.of_nat (List.length (users d)) =? 0) = true -> users d = [].
Proof. destruct (users d); [reflexivity | discriminate]. Qed.

Lemma assignUsersToSchools_first : first_run AssignUsersToSchools.
Proof.
  intros w r w' Hf Ht Hs E; open_facts; cbn [step_body] in E;
    unfold assignUsersToSchools in E.
  advance_all E; inversion E; subst; clear E.
  all: try solve [stuck_tac assignUsersToSchools].
  all: cbn [Done]; open_facts; db_cbn; split; try assumption.
  - left. apply no_users_of_count. assumption.
  - right. split; [assumption|]. apply no_orphans_of_count. assumption.
  - right. split; [assumption|]. apply assigned_after_insert. exact Hs.
Qed.

Lemma recalculateBudgetSpentAmounts_first : first_run RecalculateBudgetSpentAmounts.
Proof. first_run_tac recalculateBudgetSpentAmounts. Qed.


Lemma extendRoleEnumForRbac_first : first_run ExtendRoleEnumForRbac.
Proof. first_run_tac extendRoleEnumForRbac. Qed.

(** *** The loop over the investments never throws *)


Lemma same_catalog_refl w : faults w = [] -> same_catalog w w.
Proof. intros H. repeat split. exact H. Qed.

Lemma same_catalog_trans w w1 w2 :
  same_catalog w w1 -> same_catalog w1 w2 -> same_catalog w w2.
Proof.
  intros (_ & R1 & M1) (F2 & R2 & M2). repeat split; [exact F2 | congruence | congruence].
Qed.

Lemma insert_year_clean id y w :
  faults w = [] -> mem "investment_years" (relations (db w)) = true ->
  exists res w1,
    db_execute (QInsertInvestmentYear id y) w = (Ok res, w1) /\ same_catalog w w1.
Proof.
  intros Hf Hr. rewrite db_execute_clean by exact Hf. cbn [exec_sql].
  unfold requiring, has_all. cbn [forallb]. rewrite Hr. cbn [andb].
  destruct (has_year (db w) id y); unfold done; do 2 eexists;
    (split; [reflexivity|]); repeat split; exact Hf.
Qed.

Lemma year_loop_clean fuel id m c y w :
  faults w = [] -> mem "investment_years" (relations (db w)) = true ->
  exists r w1,
    year_loop fuel id y m c w = (r, w1) /\ (r = Ok tt \/ r = Diverge) /\
    same_catalog w w1.
Proof.
  revert y w. induction fuel as [|fuel IH]; intros y w Hf Hr; cbn [year_loop].
  - destruct (y <=? m); do 2 eexists; (split; [reflexivity|]);
      (split; [auto | apply same_catalog_refl, Hf]).
  - destruct (y <=? m).
    + destruct (insert_year_clean id y w Hf Hr) as (res & w1 & E1 & S1).
      erewrite bind_Ok by exact E1.
      destruct (IH (y + c) w1) as (r & w2 & E2 & Hr2 & S2).
      * apply S1.
      * destruct S1 as (_ & -> & _). exact Hr.
      * exists r, w2. split; [exact E2|]. split; [exact Hr2|].
        eapply same_catalog_trans; eassumption.
    + do 2 eexists. split; [reflexivity|]. split; [auto | apply same_catalog_refl, Hf].
Qed.

Lemma populate_one_clean i w :
  faults w = [] -> mem "investment_years" (relations (db w)) = true ->
  exists r w1,
    populate_one (RowInvestment i) w = (r, w1) /\ (r = Ok tt \/ r = Diverge) /\
    same_catalog w w1.
Proof.
  intros Hf Hr. unfold populate_one. cbv zeta. destruct (cyclic_interval i).
  - apply year_loop_clean; assumption.
  - destruct (insert_year_clean (inv_id i) (start_year i) w Hf Hr) as (res & w1 & E1 & S1).
    erewrite bind_Ok by exact E1. do 2 eexists. split; [reflexivity|]. auto.
Qed.

Lemma populate_loop_clean l w :
  faults w = [] -> mem "investment_years" (relations (db w)) = true ->
  exists r w1,
    for_each (map RowInvestment l) populate_one w = (r, w1) /\
    (r = Ok tt \/ r = Diverge) /\ same_catalog w w1.
Proof.
  revert w. induction l as [|i l IH]; intros w Hf Hr; cbn [map for_each].
  - do 2 eexists. split; [reflexivity|]. split; [auto | apply same_catalog_refl, Hf].
  - destruct (populate_one_clean i w Hf Hr) as (r1 & w1 & E1 & [->| ->] & S1).
    + erewrite bind_Ok by exact E1.
      destruct (IH w1) as (r & w2 & E2 & Hr2 & S2).
      * apply S1.
      * destruct S1 as (_ & -> & _). exact Hr.
      * exists r, w2. split; [exact E2|]. split; [exact Hr2|].
        eapply same_catalog_trans; eassumption.
    + erewrite bind_Diverge by exact E1. do 2 eexists. split; [reflexivity|]. auto.
Qed.

Lemma populateInvestmentYears_first : first_run PopulateInvestmentYears.
Proof.
  intros w r w' Hf Ht _ E; open_facts; cbn [step_body] in E;
    unfold populateInvestmentYears in E.
  advance_all E.
  all: try match type of E with
       | try_catch (bind (for_each (map RowInvestment ?l) _) _) _ ?W = _ =>
           destruct (populate_loop_clean l W ltac:(side_faults) ltac:(db_simpl; reflexivity))
             as (r1 & w1 & E1 & [->| ->] & F1 & R1 & M1);
           db_cbn_in R1; db_cbn_in M1;
           [ erewrite try_bind_Ok in E by exact E1
           | erewrite try_bind_Diverge in E by exact E1 ];
           clear E1; advance_all E
       end.
  all: inversion E; subst; clear E.
  all: try solve [done_tac].
  all: try solve [stuck_tac populateInvestmentYears].
  all: exact I.
Qed.


(** ** What is done stays done *)

Lemma Done_monotone s : s <> AssignUsersToSchools -> monotone (Done s).
Proof.
  destruct s; intros Hs; try congruence; cbn [Done tracking_name];
    repeat apply monotone_and;
    first [ apply monotone_exists_rel | apply monotone_marked
          | apply monotone_schools_nonempty | apply monotone_has_user
          | apply monotone_True ].
Qed.

Lemma map_user_id_kept (f : User -> bool) r l :
  map user_id (map (fun u => if f u then set_role r u else u) l) = map user_id l.
Proof.
  rewrite map_map. apply map_ext. intros u. destruct (f u); reflexivity.
Qed.

Lemma steps_keep_membership s :
  s <> SeedHardcodedAdminUser -> s <> AssignUsersToSchools ->
  keeps membership (step_body s).
Proof.
  destruct s; intros H1 H2; try congruence; cbn [step_body];
    match goal with |- keeps _ ?c => unfold c end; keeps_tac.
  all: apply keeps_db_execute; intros d res d' H; cbn [exec_sql] in H;
    unfold requiring, done, answer in H; destruct (has_all _ d);
    inversion H; subst; clear H; unfold membership;
    cbn [users user_schools set_users]; rewrite map_user_id_kept; reflexivity.
Qed.

Lemma no_orphans_membership d d' :
  membership d' = membership d -> no_orphans d -> no_orphans d'.
Proof.
  unfold membership, no_orphans, has_assignment. intros H. inversion H as [[Hu Hs]].
  rewrite Hs. clear H Hs. revert Hu. generalize (users d) as l. generalize (users d') as l'.
  induction l' as [|u' l' IH]; intros l Hu Hl; [reflexivity|].
  destruct l as [|u l]; [discriminate|]. cbn [map] in Hu. inversion Hu as [[Hid Hrest]].
  cbn [forallb] in *. apply andb_true_iff in Hl. destruct Hl as [H1 H2].
  rewrite Hid, H1. cbn [andb]. exact (IH l Hrest H2).
Qed.

Lemma no_users_membership d d' :
  membership d' = membership d -> users d = [] -> users d' = [].
Proof.
  unfold membership. intros H Hu. inversion H as [[H1 H2]]. rewrite Hu in H1.
  destruct (users d'); [reflexivity | discriminate].
Qed.



Lemma Step_eqb_false a b : Step_eqb a b = false -> a <> b.
Proof. unfold Step_eqb. destruct (Step_eq_dec a b); [discriminate | auto]. Qed.

Lemma Step_eqb_true a b : Step_eqb a b = true -> a = b.
Proof. unfold Step_eqb. destruct (Step_eq_dec a b); [auto | discriminate]. Qed.

Lemma compatible_lasts p s : compatible p s = true -> lasts p s.
Proof.
  unfold compatible, lasts. intros H. apply negb_true_iff in H.
  destruct (Step_eqb p AssignUsersToSchools) eqn:Ep.
  - apply Step_eqb_true in Ep. subst p. cbn [andb] in H.
    apply orb_false_iff in H. destruct H as [H1 H2].
    apply Step_eqb_false in H1. apply Step_eqb_false in H2.
    intros w r w' E (Hu & Hd). cbn [Done].
    pose proof (steps_keep_membership s H1 H2 _ _ _ E) as Hm.
    split.
    + exact (step_maintains _ (stable_monotone _ (monotone_exists_rel "users")) s _ _ _ E Hu).
    + destruct Hd as [Hd|[Hd1 Hd2]].
      * left. eapply no_users_membership; eassumption.
      * right. split.
        -- exact (step_maintains _ (stable_monotone _ (monotone_exists_rel "user_schools"))
                    s _ _ _ E Hd1).
        -- eapply no_orphans_membership; eassumption.
  - apply Step_eqb_false in Ep.
    apply step_maintains. apply stable_monotone. apply Done_monotone. exact Ep.
Qed.


(** ** A first run of a list of steps *)



Lemma monotone_tracked : monotone tracked.
Proof. exact (monotone_exists_rel "migration_status"). Qed.

Section FirstRun.
Variable C : DB -> Prop.
Variable Q : Step -> DB -> Prop.
Hypothesis C_monotone : monotone C.

Lemma run_steps_first l : forall prev w r w',
  (forall s, In s l -> first_run_with C Q s) ->
  (forall p s, In p prev -> In s l -> compatible p s = true) ->
  ordered l = true ->
  faults w = [] -> tracked (db w) -> C (db w) ->
  (forall p, In p prev -> Done p (db w)) ->
  run_steps l w = (r, w') ->
  match r with
  | Ok _ => forall p, In p (prev ++ l) -> Done p (db w')
  | Throw _ =>
      exists l1 s l2,
        l = l1 ++ s :: l2 /\ (forall p, In p (prev ++ l1) -> Done p (db w')) /\
        Q s (db w')
  | Diverge => True
  end.
Proof.
  induction l as [|s l IH]; intros prev w r w' Hfirst Hcomp Hord Hf Ht HC Hprev E.
  - inversion E; subst. intros p Hp. rewrite app_nil_r in Hp. auto.
  - cbn [run_steps] in E. cbn [ordered] in Hord. apply andb_true_iff in Hord.
    destruct Hord as [Hs Hord].
    assert (Hkept : forall r1 w1, step_body s w = (r1, w1) ->
                                  forall p, In p prev -> Done p (db w1)).
    { intros r1 w1 E1 p Hp.
      exact (compatible_lasts p s (Hcomp p s Hp (in_eq _ _)) _ _ _ E1 (Hprev p Hp)). }
    apply bind_inv in E. destruct E as [(a & w1 & E1 & E2)|[(e & E1 & ->)|(E1 & ->)]].
    + pose proof (Hfirst s (in_eq _ _) _ _ _ Hf Ht HC E1) as Hdone. cbv beta iota in Hdone.
      assert (Hf1 : faults w1 = [])
        by exact (step_maintains _ stable_faults_free s _ _ _ E1 Hf).
      assert (Ht1 : tracked (db w1))
        by exact (step_maintains _ (stable_monotone _ monotone_tracked) s _ _ _ E1 Ht).
      assert (HC1 : C (db w1))
        by exact (step_maintains _ (stable_monotone _ C_monotone) s _ _ _ E1 HC).
      specialize (IH (prev ++ [s]) w1 r w').
      assert (Hres : match r with
                     | Ok _ => forall p, In p ((prev ++ [s]) ++ l) -> Done p (db w')
                     | Throw _ =>
                         exists l1 s0 l2,
                           l = l1 ++ s0 :: l2 /\
                           (forall p, In p ((prev ++ [s]) ++ l1) -> Done p (db w')) /\
                           Q s0 (db w')
                     | Diverge => True
                     end).
      { apply IH; auto.
        - intros s0 Hs0. apply Hfirst. right. exact Hs0.
        - intros p s0 Hp Hs0. apply in_app_or in Hp. destruct Hp as [Hp|[<-|[]]].
          + apply Hcomp; [exact Hp | right; exact Hs0].
          + rewrite forallb_forall in Hs. apply Hs, Hs0.
        - intros p Hp. apply in_app_or in Hp. destruct Hp as [Hp|[<-|[]]].
          + exact (Hkept _ _ E1 p Hp).
          + exact Hdone. }
      destruct r as [u|e|]; [| |exact I].
      * intros p Hp. apply Hres. rewrite <- app_assoc. exact Hp.
      * destruct Hres as (l1 & s0 & l2 & -> & H1 & H2).
        exists (s :: l1), s0, l2. split; [reflexivity|]. split; [|exact H2].
        intros p Hp. apply H1. rewrite <- app_assoc. exact Hp.
    + exists [], s, l. split; [reflexivity|]. split.
      * intros p Hp. rewrite app_nil_r in Hp. exact (Hkept _ _ E1 p Hp).
      * exact (Hfirst s (in_eq _ _) _ _ _ Hf Ht HC E1).
    + exact I.
Qed.
End FirstRun.

(** ** A second run *)

Lemma settled_bind c c' d : settled c d -> settled c' d -> settled (c ;; c') d.
Proof.
  intros H1 H2 w Hf Hd. destruct (H1 w Hf Hd) as (w1 & E1 & F1 & D1).
  destruct (H2 w1 F1 D1) as (w2 & E2 & F2 & D2).
  exists w2. erewrite bind_Ok by exact E1. auto.
Qed.

Lemma stuck_bind c c' d : stuck c d -> stuck (c ;; c') d.
Proof.
  intros H1 w Hf Hd. destruct (H1 w Hf Hd) as (e & w1 & E1 & F1 & D1).
  exists e, w1. erewrite bind_Throw by exact E1. auto.
Qed.

Lemma settled_stuck_bind c c' d : settled c d -> stuck c' d -> stuck (c ;; c') d.
Proof.
  intros H1 H2 w Hf Hd. destruct (H1 w Hf Hd) as (w1 & E1 & F1 & D1).
  destruct (H2 w1 F1 D1) as (e & w2 & E2 & F2 & D2).
  exists e, w2. erewrite bind_Ok by exact E1. auto.
Qed.

Lemma settled_try c h d : settled c d -> settled (try_catch c h) d.
Proof.
  intros H1 w Hf Hd. destruct (H1 w Hf Hd) as (w1 & E1 & F1 & D1).
  exists w1. erewrite try_Ok by exact E1. auto.
Qed.

Lemma settled_swallow c d : stuck c d -> settled (try_catch c swallow_noncritical) d.
Proof.
  intros H1 w Hf Hd. destruct (H1 w Hf Hd) as (e & w1 & E1 & F1 & D1).
  eexists. erewrite try_Throw by exact E1. split; [reflexivity|]. auto.
Qed.

Lemma settled_console_log m d : settled (console_log m) d.
Proof. intros w Hf Hd. eexists. split; [reflexivity|]. auto. Qed.

Lemma settled_ret d : settled (ret tt) d.
Proof. intros w Hf Hd. eexists. split; [reflexivity|]. auto. Qed.

Lemma run_steps_settled l d :
  (forall s, In s l -> settled (step_body s) d) -> settled (run_steps l) d.
Proof.
  induction l as [|s l IH]; intros H; cbn [run_steps].
  - apply settled_ret.
  - apply settled_bind; [apply H; left; reflexivity|].
    apply IH. intros s0 Hs0. apply H. right. exact Hs0.
Qed.

Lemma run_steps_stuck l1 s l2 d :
  (forall p, In p l1 -> settled (step_body p) d) -> stuck (step_body s) d ->
  stuck (run_steps (l1 ++ s :: l2)) d.
Proof.
  induction l1 as [|p l1 IH]; intros H Hs; cbn [app run_steps].
  - apply stuck_bind, Hs.
  - apply settled_stuck_bind; [apply H; left; reflexivity|].
    apply IH; [|exact Hs]. intros p0 Hp0. apply H. right. exact Hp0.
Qed.

Lemma Done_settled s d : tracked d -> Done s d -> settled (step_body s) d.
Proof.
  destruct s; intros Ht Hd.
  - apply createBaseSchema_settled; assumption.
  - apply ensureSessionTable_settled; assumption.
  - apply addDrawingCategoryEnumValues_settled; assumption.
  - apply seedSchoolsAndBoards_settled; assumption.
  - apply seedHardcodedAdminUser_settled; assumption.
  - apply assignUsersToSchools_settled; assumption.
  - apply ensureSupabaseBucketsForSchools_settled.
  - apply recalculateBudgetSpentAmounts_settled; assumption.
  - apply createRoomsAndTerrainTables_settled; assumption.
  - apply addMaxStudentsToRooms_settled; assumption.
  - apply createFoldersAndExtendDocuments_settled; assumption.
  - apply createInvestmentYearsTable_settled; assumption.
  - apply fixInvalidDrawingCategories_settled; assumption.
  - apply populateInvestmentYears_settled; assumption.
  - apply addAttachmentColumns_settled; assumption.
  - apply extendRoleEnumForRbac_settled; assumption.
  - apply fixJeanAdminRole_settled; assumption.
Qed.

Lemma ensureMigrationTable_settled d : tracked d -> settled ensureMigrationTable d.
Proof.
  intros Ht. open_facts. rerun ensureMigrationTable E. advance_all E. finish_rerun E.
Qed.

Lemma ensureMigrationTable_tracks w w' :
  faults w = [] -> ensureMigrationTable w = (Ok tt, w') -> tracked (db w').
Proof.
  intros Hf E. unfold ensureMigrationTable in E. advance_all E.
  all: inversion E; subst; clear E; unfold tracked; db_simpl; reflexivity.
Qed.

Lemma critical_first s :
  In s critical_steps -> first_run_with (fun _ => True) (fun _ _ => True) s.
Proof.
  intros Hs w r w' Hf Ht _ E.
  assert (H : first_run_critical s).
  { cbn in Hs. destruct Hs as [<-|[<-|[<-|[<-|[]]]]].
    - apply createBaseSchema_first.
    - apply ensureSessionTable_first.
    - apply addDrawingCategoryEnumValues_first.
    - apply seedSchoolsAndBoards_first. }
  destruct r as [[]|e|]; [exact (H _ _ Hf Ht E) | exact I | exact I].
Qed.

Lemma noncritical_first s :
  In s noncritical_steps ->
  first_run_with (fun d => schools d <> []) (fun s d => stuck (step_body s) d) s.
Proof.
  intros Hs.
  assert (H : first_run s); [|exact H].
  cbn in Hs. repeat (destruct Hs as [<-|Hs]); [..|destruct Hs].
  - apply seedHardcodedAdminUser_first.
  - apply assignUsersToSchools_first.
  - apply ensureSupabaseBucketsForSchools_first.
  - apply recalculateBudgetSpentAmounts_first.
  - apply createRoomsAndTerrainTables_first.
  - apply addMaxStudentsToRooms_first.
  - apply createFoldersAndExtendDocuments_first.
  - apply createInvestmentYearsTable_first.
  - apply fixInvalidDrawingCategories_first.
  - apply populateInvestmentYears_first.
  - apply addAttachmentColumns_first.
  - apply extendRoleEnumForRbac_first.
  - apply fixJeanAdminRole_first.
Qed.


(** ** Running the migrations twice *)


Lemma bind_Ok_inv {A B} (c : M A) (k : A -> M B) w b w' :
  bind c k w = (Ok b, w') -> exists a w1, c w = (Ok a, w1) /\ k a w1 = (Ok b, w').
Proof.
  intros E. apply bind_inv in E.
  destruct E as [(a & w1 & E1 & E2)|[(e & _ & H)|(_ & H)]]; [eauto | discriminate | discriminate].
Qed.

Lemma critical_compatible p s : In p critical_steps -> compatible p s = true.
Proof. cbn. intros [<-|[<-|[<-|[<-|[]]]]]; reflexivity. Qed.

Lemma runner_maintains I : stable I -> maintains I runner.
Proof.
  intros HI. unfold runner, rethrow_critical, swallow_noncritical.
  repeat first [ apply run_steps_maintains, HI
               | apply ensureMigrationTable_maintains, HI
               | maintains_step HI ].
Qed.

Lemma runner_settled d :
  tracked d ->
  (forall s, In s critical_steps -> Done s d) ->
  settled (run_steps noncritical_steps) d \/ stuck (run_steps noncritical_steps) d ->
  settled runner d.
Proof.
  intros Ht Hc Hn. unfold runner.
  apply settled_bind; [apply settled_console_log|]. apply settled_try.
  apply settled_bind; [apply ensureMigrationTable_settled, Ht|].
  apply settled_bind.
  { apply run_steps_settled. intros s Hs. apply Done_settled; auto. }
  apply settled_bind; [|apply settled_console_log].
  destruct Hn as [Hn|Hn]; [apply settled_try, Hn | apply settled_swallow, Hn].
Qed.



